(** * ban.core.versioning: optimistic versioning, snapshots, diffs,
      redirects and flags

    A shallow embedding of [ban/core/versioning.py].  Python values are a
    small tagged union, a dict is a [gmap], a database table is a list of
    rows in insertion order, and every method that touches the database is
    a computation in a state-and-exception monad over the database. *)

From stdpp Require Import base option list gmap strings pretty.

#[local] Open Scope string_scope.
#[local] Open Scope list_scope.
#[local] Open Scope Z_scope.

(** ** Python values *)

(** The values that reach this module: [None], integers and strings. *)
Inductive pyval :=
| VNone
| VInt (z : Z)
| VStr (s : string).

#[global] Instance pyval_eq_dec : EqDecision pyval.
Proof. solve_decision. Defined.

(** [bool(v)]. *)
Definition truthy (v : pyval) : bool :=
  match v with
  | VNone => false
  | VInt z => negb (Z.eqb z 0)
  | VStr s => negb (String.eqb s "")
  end.

(** [str(v)]. *)
Definition str (v : pyval) : string :=
  match v with
  | VNone => "None"
  | VInt z => pretty z
  | VStr s => s
  end.

(** [s.lower()], on the ASCII letters. *)
Definition lower_ascii (c : Ascii.ascii) : Ascii.ascii :=
  let n := Ascii.nat_of_ascii c in
  if (Nat.leb 65 n && Nat.leb n 90)%nat then Ascii.ascii_of_nat (n + 32) else c.

Fixpoint lower (s : string) : string :=
  match s with
  | EmptyString => EmptyString
  | String c s' => String (lower_ascii c) (lower s')
  end.

(** [s.split(':')]: the pieces between colons, at least one. *)
Fixpoint split_colon (s : string) : list string :=
  match s with
  | EmptyString => [EmptyString]
  | String c s' =>
      if Ascii.eqb c (Ascii.ascii_of_nat 58) then EmptyString :: split_colon s'
      else match split_colon s' with
           | [] => [String c EmptyString]
           | p :: ps => String c p :: ps
           end
  end.

(** ** Sessions and clients (ban.auth.models) *)

Record Client := { client_pk : Z }.

Record Session := {
  session_pk : Z;
  client : option Client;
  contributor_type : option string
}.

#[global] Instance Client_eq_dec : EqDecision Client.
Proof. solve_decision. Defined.
#[global] Instance Session_eq_dec : EqDecision Session.
Proof. solve_decision. Defined.

(** ** Exceptions *)

Inductive exn :=
| ForcedVersionError (msg : string)
| ValueError (msg : string)
| AssertionError (msg : string)
| AttributeError (name : string)
| KeyError (key : string)
| TypeError
| IntegrityError
| DoesNotExist
| RedirectError (identifier : string) (id : pyval) (redirect : string)
| MultipleRedirectsError (identifier : string) (id : pyval)
                         (redirects : list string).

(** ** Model classes and instances *)

(** What this module reads of a versioned model class: its name, the
    [resource] name and the [identifiers] list (both declared by the
    resource layer), and the names of its own columns. *)
Record ModelClass := {
  __name__ : string;
  resource : string;
  identifiers : list string;
  columns : list string
}.

#[global] Instance ModelClass_eq_dec : EqDecision ModelClass.
Proof. solve_decision. Defined.

(** An instance of a [Versioned] model.  [fields] holds the columns of
    the concrete model; [_locked_version] is [None] while the instance has
    no such attribute. *)
Record Versioned := {
  __class__ : ModelClass;
  pk : option Z;
  ban_id : pyval;                       (* the attribute [id] *)
  version : Z;
  created_at : option Z;
  created_by : option Session;
  modified_at : option Z;
  modified_by : option Session;
  source_kind : option string;
  fields : gmap string pyval;
  _locked_version : option Z
}.

#[global] Instance Versioned_eq_dec : EqDecision Versioned.
Proof. solve_decision. Defined.

Definition set_pk (p : option Z) (e : Versioned) : Versioned :=
  {| __class__ := __class__ e; pk := p; ban_id := ban_id e;
     version := version e; created_at := created_at e;
     created_by := created_by e; modified_at := modified_at e;
     modified_by := modified_by e; source_kind := source_kind e;
     fields := fields e; _locked_version := _locked_version e |}.

Definition set_version (v : Z) (e : Versioned) : Versioned :=
  {| __class__ := __class__ e; pk := pk e; ban_id := ban_id e;
     version := v; created_at := created_at e;
     created_by := created_by e; modified_at := modified_at e;
     modified_by := modified_by e; source_kind := source_kind e;
     fields := fields e; _locked_version := _locked_version e |}.

Definition set_created_at (t : option Z) (e : Versioned) : Versioned :=
  {| __class__ := __class__ e; pk := pk e; ban_id := ban_id e;
     version := version e; created_at := t;
     created_by := created_by e; modified_at := modified_at e;
     modified_by := modified_by e; source_kind := source_kind e;
     fields := fields e; _locked_version := _locked_version e |}.

Definition set_created_by (s : option Session) (e : Versioned) : Versioned :=
  {| __class__ := __class__ e; pk := pk e; ban_id := ban_id e;
     version := version e; created_at := created_at e;
     created_by := s; modified_at := modified_at e;
     modified_by := modified_by e; source_kind := source_kind e;
     fields := fields e; _locked_version := _locked_version e |}.

Definition set_modified_at (t : option Z) (e : Versioned) : Versioned :=
  {| __class__ := __class__ e; pk := pk e; ban_id := ban_id e;
     version := version e; created_at := created_at e;
     created_by := created_by e; modified_at := t;
     modified_by := modified_by e; source_kind := source_kind e;
     fields := fields e; _locked_version := _locked_version e |}.

Definition set_modified_by (s : option Session) (e : Versioned) : Versioned :=
  {| __class__ := __class__ e; pk := pk e; ban_id := ban_id e;
     version := version e; created_at := created_at e;
     created_by := created_by e; modified_at := modified_at e;
     modified_by := s; source_kind := source_kind e;
     fields := fields e; _locked_version := _locked_version e |}.

Definition set_source_kind (k : option string) (e : Versioned) : Versioned :=
  {| __class__ := __class__ e; pk := pk e; ban_id := ban_id e;
     version := version e; created_at := created_at e;
     created_by := created_by e; modified_at := modified_at e;
     modified_by := modified_by e; source_kind := k;
     fields := fields e; _locked_version := _locked_version e |}.

Definition set_fields (f : gmap string pyval) (e : Versioned) : Versioned :=
  {| __class__ := __class__ e; pk := pk e; ban_id := ban_id e;
     version := version e; created_at := created_at e;
     created_by := created_by e; modified_at := modified_at e;
     modified_by := modified_by e; source_kind := source_kind e;
     fields := f; _locked_version := _locked_version e |}.

Definition set_locked (l : option Z) (e : Versioned) : Versioned :=
  {| __class__ := __class__ e; pk := pk e; ban_id := ban_id e;
     version := version e; created_at := created_at e;
     created_by := created_by e; modified_at := modified_at e;
     modified_by := modified_by e; source_kind := source_kind e;
     fields := fields e; _locked_version := l |}.

(** [getattr(instance, name)] for the attributes a query or a redirect
    can name.  Foreign keys compare by primary key. *)
Definition opt_int (o : option Z) : pyval :=
  match o with Some z => VInt z | None => VNone end.

Definition getattr (e : Versioned) (name : string) : pyval :=
  if decide (name = "pk") then opt_int (pk e)
  else if decide (name = "id") then ban_id e
  else if decide (name = "version") then VInt (version e)
  else if decide (name = "created_at") then opt_int (created_at e)
  else if decide (name = "modified_at") then opt_int (modified_at e)
  else if decide (name = "created_by") then opt_int (session_pk <$> created_by e)
  else if decide (name = "modified_by") then opt_int (session_pk <$> modified_by e)
  else default VNone (fields e !! name).

(** The attributes of the class itself: the columns of [Versioned], the
    primary key, the public id, and the model's own columns. *)
Definition base_columns : list string :=
  ["pk"; "id"; "version"; "created_at"; "created_by"; "modified_at";
   "modified_by"].

Definition hasattr (model : ModelClass) (name : string) : bool :=
  bool_decide (name ∈ base_columns ++ columns model).

(** ** Rows of the tables owned by this module *)

(** A [Version] row; [period] is the range [[lower, upper)], with [None]
    for a bound that is open. *)
Record VersionRow := {
  v_pk : Z;
  v_model_name : string;
  v_model_pk : Z;
  v_sequential : Z;
  v_data : gmap string pyval;
  v_period : option Z * option Z
}.

#[global] Instance VersionRow_eq_dec : EqDecision VersionRow.
Proof. solve_decision. Defined.

(** One entry of a diff: the old and the new value of a field, [None]
    where the field is absent on that side. *)
Definition Change : Type := option pyval * option pyval.

Record DiffRow := {
  d_pk : option Z;
  d_old : option VersionRow;
  d_new : option VersionRow;
  d_insee : string;
  d_diff : option (gmap string Change);
  d_created_at : option Z
}.

Record RedirectRow := {
  r_model_name : string;
  r_model_id : string;
  r_identifier : string;
  r_value : string
}.

#[global] Instance RedirectRow_eq_dec : EqDecision RedirectRow.
Proof. solve_decision. Defined.

Record FlagRow := {
  f_pk : Z;
  f_version : Z;
  f_client : Z;
  f_session : Z;
  f_created_at : Z
}.

#[global] Instance FlagRow_eq_dec : EqDecision FlagRow.
Proof. solve_decision. Defined.

(** ** The database *)

(** The tables, each in insertion order, and the sequences that hand out
    primary keys.  The rows of every versioned model live in [entities],
    told apart by their class. *)
Record Database := {
  entities : list Versioned;
  versions : list VersionRow;
  diffs : list DiffRow;
  redirects : list RedirectRow;
  flags : list FlagRow;
  seq_entity : Z;
  seq_version : Z;
  seq_diff : Z;
  seq_flag : Z
}.

Definition set_entities (l : list Versioned) (seq : Z) (db : Database) :=
  {| entities := l; versions := versions db; diffs := diffs db;
     redirects := redirects db; flags := flags db;
     seq_entity := seq; seq_version := seq_version db;
     seq_diff := seq_diff db; seq_flag := seq_flag db |}.

Definition set_versions (l : list VersionRow) (seq : Z) (db : Database) :=
  {| entities := entities db; versions := l; diffs := diffs db;
     redirects := redirects db; flags := flags db;
     seq_entity := seq_entity db; seq_version := seq;
     seq_diff := seq_diff db; seq_flag := seq_flag db |}.

Definition set_diffs (l : list DiffRow) (seq : Z) (db : Database) :=
  {| entities := entities db; versions := versions db; diffs := l;
     redirects := redirects db; flags := flags db;
     seq_entity := seq_entity db; seq_version := seq_version db;
     seq_diff := seq; seq_flag := seq_flag db |}.

Definition set_redirects (l : list RedirectRow) (db : Database) :=
  {| entities := entities db; versions := versions db; diffs := diffs db;
     redirects := l; flags := flags db;
     seq_entity := seq_entity db; seq_version := seq_version db;
     seq_diff := seq_diff db; seq_flag := seq_flag db |}.

Definition set_flags (l : list FlagRow) (seq : Z) (db : Database) :=
  {| entities := entities db; versions := versions db; diffs := diffs db;
     redirects := redirects db; flags := l;
     seq_entity := seq_entity db; seq_version := seq_version db;
     seq_diff := seq_diff db; seq_flag := seq |}.

(** ** The ambient state of a call *)

(** What a call reads from outside the database: the session of
    [context.get('session')], the clock reading [utcnow()], the switch
    [Diff.ACTIVE] and [BaseVersioned.registry]. *)
Record Env := {
  session : option Session;
  utcnow : Z;
  Diff_ACTIVE : bool;
  registry : gmap string ModelClass
}.

(** [BaseVersioned.__new__]: every new class is filed under its lowercased
    name. *)
Definition register (cls : ModelClass) (reg : gmap string ModelClass)
  : gmap string ModelClass :=
  <[lower (__name__ cls) := cls]> reg.

(** What the collaborators of this module provide: the serialisation
    [as_version] of an instance, the INSEE code of its municipality, the
    constant [Client.TYPE_VIEWER], and the constraints of the concrete
    tables (unique and not-null columns, foreign keys), as the test that a
    row may be written next to the others. *)
Class Collaborators := {
  as_version : Versioned → gmap string pyval;
  municipality_insee : Versioned → string;
  TYPE_VIEWER : string;
  store_accepts : list Versioned → Versioned → bool
}.

(** ** Computations over the database *)

Definition M (A : Type) : Type := Database → (exn + A) * Database.

Definition ret {A} (a : A) : M A := λ db, (inr a, db).

Definition raise {A} (e : exn) : M A := λ db, (inl e, db).

Definition bind {A B} (c : M A) (k : A → M B) : M B :=
  λ db, match c db with
        | (inr a, db') => k a db'
        | (inl e, db') => (inl e, db')
        end.

Definition get_db : M Database := λ db, (inr db, db).

Definition put_db (db' : Database) : M unit := λ _, (inr tt, db').

(** [with database.atomic():] what the block wrote is undone when it
    raises. *)
Definition atomic {A} (c : M A) : M A :=
  λ db, match c db with
        | (inl e, _) => (inl e, db)
        | (inr a, db') => (inr a, db')
        end.

Notation "x <- c ;; k" := (bind c (λ x, k))
  (at level 100, c at next level, right associativity).
Notation "c ;;; k" := (bind c (λ _, k))
  (at level 100, right associativity).

(** [for x in l: body(x)]. *)
Fixpoint for_each {A} (l : list A) (body : A → M unit) : M unit :=
  match l with
  | [] => ret tt
  | x :: l' => body x ;;; for_each l' body
  end.

(** ** The decorator [contributor_type_required] *)

Definition str_truthy (o : option string) : bool :=
  match o with
  | Some s => negb (String.eqb s "")
  | None => false
  end.

(** The wrapped method runs with the session of the context as its
    argument, once the session has passed the four tests. *)
Definition contributor_type_required `{Collaborators}
    (env : Env) (func : Session → M unit) : M unit :=
  match session env with
  | None => raise (ValueError "Must be logged in.")
  | Some session =>
      if negb (bool_decide (is_Some (client session)))
      then raise (ValueError "Token must be linked to a client.")
      else if negb (str_truthy (contributor_type session))
      then raise (ValueError "Session must have a valid contributor_type.")
      else if bool_decide (contributor_type session = Some TYPE_VIEWER)
      then raise
        (ValueError "Contributor type viewer cannot flag/unflag resource.")
      else func session
  end.

(** ** [class Flag] *)

Module Flag.

(** [Flag.where(Flag.version == version, Flag.client == client)]. *)
Definition where_ (version : VersionRow) (client : option Client)
    (db : Database) : list FlagRow :=
  filter (λ f, f_version f = v_pk version
               ∧ Some (f_client f) = client_pk <$> client) (flags db).

(** [Flag.create(version=, session=, client=)], through [Flag.save]:
    [created_at] is unset, so it takes the clock reading; the client
    column does not accept NULL. *)
Definition create (env : Env) (version : VersionRow) (session : Session)
    (client : option Client) : M unit :=
  match client with
  | None => raise IntegrityError
  | Some c =>
      db <- get_db ;;
      put_db (set_flags
                (flags db ++ [ {| f_pk := seq_flag db;
                                  f_version := v_pk version;
                                  f_client := client_pk c;
                                  f_session := session_pk session;
                                  f_created_at := utcnow env |} ])
                (seq_flag db + 1) db)
  end.

(** [Flag.delete().where(Flag.version == version,
                         Flag.client == client).execute()]. *)
Definition delete_where (version : VersionRow) (client : option Client)
    : M unit :=
  db <- get_db ;;
  put_db (set_flags
            (filter (λ f, ¬ (f_version f = v_pk version
                             ∧ Some (f_client f) = client_pk <$> client))
                    (flags db))
            (seq_flag db) db).

End Flag.

(** ** [class Redirect] *)

Module Redirect.

Definition mk (model_name identifier value model_id : string)
    : RedirectRow :=
  {| r_model_name := model_name; r_model_id := model_id;
     r_identifier := identifier; r_value := value |}.

(** [cls.get_or_create(...)]: the four columns are the primary key, so
    the row is inserted only when it is not there yet. *)
Definition get_or_create (row : RedirectRow) : M unit :=
  db <- get_db ;;
  if bool_decide (row ∈ redirects db) then ret tt
  else put_db (set_redirects (redirects db ++ [row]) db).

(** [model.first(getattr(model, identifier) == value)]. *)
Definition first (model : ModelClass) (identifier : string)
    (value : pyval) (db : Database) : option Versioned :=
  head (filter (λ e, __class__ e = model ∧ getattr e identifier = value)
               (entities db)).

(** [cls.update(model_id=model_id).where(cls.model_id == old_id,
    cls.model_name == model_name)], as a function on the table. *)
Definition retarget (model_name old_id model_id : string)
    (r : RedirectRow) : RedirectRow :=
  if decide (r_model_id r = old_id ∧ r_model_name r = model_name)
  then mk (r_model_name r) (r_identifier r) (r_value r) model_id
  else r.

(** The update fails when two rows would get the same primary key. *)
Definition update_model_id (model_name old_id model_id : string)
    : M unit :=
  db <- get_db ;;
  let rows := retarget model_name old_id model_id <$> redirects db in
  if bool_decide (NoDup rows) then put_db (set_redirects rows db)
  else raise IntegrityError.

(** "An identifier was a target and it becomes itself a redirect." *)
Definition propagate (env : Env) (model_name identifier : string)
    (value model_id : pyval) : M unit :=
  match registry env !! model_name with
  | Some model =>
      if negb (hasattr model identifier)
      then raise (AttributeError identifier)
      else
        db <- get_db ;;
        match first model identifier value db with
        | Some old =>
            update_model_id model_name (str (ban_id old)) (str model_id)
        | None => ret tt
        end
  | None => ret tt
  end.

(** [instance] is a model instance, or the pair [(model_name, model_id)]
    "so we don't need to request db when creating a redirect from a
    diff". *)
Definition add (env : Env) (instance : Versioned + string * pyval)
    (identifier : string) (value : pyval) : M unit :=
  target <-
    match instance with
    | inr (model_name, model_id) => ret (model_name, model_id)
    | inl instance =>
        if bool_decide
             (identifier ∉ identifiers (__class__ instance) ++ ["id"; "pk"])
        then raise (ValueError ("Invalid identifier: " +:+ identifier))
        else if bool_decide (getattr instance identifier = value)
        then raise (ValueError "Redirect cannot point to itself")
        else ret (resource (__class__ instance), ban_id instance)
    end ;;
  get_or_create (mk target.1 identifier (str value) (str target.2)) ;;;
  propagate env target.1 identifier value target.2.

Definition remove (instance : Versioned) (identifier : string)
    (value : pyval) : M unit :=
  db <- get_db ;;
  put_db (set_redirects
            (filter (λ r, ¬ (r_model_name r = resource (__class__ instance)
                             ∧ r_identifier r = identifier
                             ∧ r_value r = str value
                             ∧ r_model_id r = str (ban_id instance)))
                    (redirects db)) db).

Definition clear (instance : Versioned) : M unit :=
  db <- get_db ;;
  put_db (set_redirects
            (filter (λ r, ¬ (r_model_name r = resource (__class__ instance)
                             ∧ r_model_id r = str (ban_id instance)))
                    (redirects db)) db).

Definition opt_truthy (o : option pyval) : bool :=
  match o with Some v => truthy v | None => false end.

(** The body of the loop of [from_diff] for one identifier. *)
Definition from_diff_step (env : Env) (model : ModelClass)
    (new : VersionRow) (changes : gmap string Change)
    (identifier : string) : M unit :=
  match changes !! identifier with
  | None => raise (KeyError identifier)
  | Some (old_value, new_value) =>
      if negb (opt_truthy old_value) || negb (opt_truthy new_value)
      then ret tt
      else
        match v_data new !! "id" with
        | None => raise (KeyError "id")
        | Some model_id =>
            add env (inr (lower (__name__ model), model_id)) identifier
                (default VNone old_value)
        end
  end.

Definition from_diff (env : Env) (diff : DiffRow) : M unit :=
  match d_new diff, d_old diff with
  | Some new, Some _ =>
      match registry env !! v_model_name new with
      | None => raise (KeyError (v_model_name new))
      | Some model =>
          match d_diff diff with
          | None => raise TypeError
          | Some changes =>
              let identifiers :=
                filter (λ i, is_Some (changes !! i)) (identifiers model) in
              for_each identifiers (from_diff_step env model new changes)
          end
      end
  | _, _ =>
      (* Only update makes sense for us, not creation nor deletion. *)
      ret tt
  end.

Definition follow (model_name identifier : string) (value : pyval)
    : M (list string) :=
  db <- get_db ;;
  ret (r_model_id <$>
         filter (λ r, r_model_name r = lower model_name
                      ∧ r_identifier r = identifier
                      ∧ r_value r = str value) (redirects db)).

(** ['{}:{}'.format(self.identifier, self.value)]. *)
Definition serialize (self : RedirectRow) : string :=
  r_identifier self +:+ ":" +:+ r_value self.

End Redirect.

(** ** [class Version] *)

(** What [coerce] needs of the class it is called on: its name, its
    table, and for each attribute name the row test that
    [getattr(cls, name) == value] stands for ([None] when the class has no
    such attribute). *)
Class PeeweeModel (R : Type) := {
  cls_name : string;
  cls_field : string → option (pyval → R → bool);
  raw_select : Database → list R
}.

Module Version.

(** The unique index on [(model_name, model_pk, sequential)]. *)
Definition key (v : VersionRow) : string * Z * Z :=
  (v_model_name v, v_model_pk v, v_sequential v).

(** [Version.create(...)]: [model_pk] does not accept NULL, and the
    unique index refuses a second row with the same key. *)
Definition create (model_name : string) (model_pk : option Z)
    (sequential : Z) (data : gmap string pyval)
    (period : option Z * option Z) : M VersionRow :=
  db <- get_db ;;
  match model_pk with
  | None => raise IntegrityError
  | Some model_pk =>
      let row := {| v_pk := seq_version db; v_model_name := model_name;
                    v_model_pk := model_pk; v_sequential := sequential;
                    v_data := data; v_period := period |} in
      if bool_decide (key row ∈ key <$> versions db)
      then raise IntegrityError
      else put_db (set_versions (versions db ++ [row])
                                (seq_version db + 1) db) ;;;
           ret row
  end.

(** [self.save()] of a row that has a primary key: an UPDATE. *)
Definition save (self : VersionRow) : M unit :=
  db <- get_db ;;
  let rows := (λ r, if decide (v_pk r = v_pk self) then self else r)
                <$> versions db in
  if bool_decide (NoDup (key <$> rows))
  then put_db (set_versions rows (seq_version db) db)
  else raise IntegrityError.

Definition with_period (period : option Z * option Z) (v : VersionRow)
    : VersionRow :=
  {| v_pk := v_pk v; v_model_name := v_model_name v;
     v_model_pk := v_model_pk v; v_sequential := v_sequential v;
     v_data := v_data v; v_period := period |}.

(** "DateTimeRange is immutable, so create new one."  The updated
    object is returned. *)
Definition close_period (self : VersionRow) (bound : option Z)
    : M VersionRow :=
  let self := with_period ((v_period self).1, bound) self in
  save self ;;; ret self.

(** The property [model]: [BaseVersioned.registry[self.model_name]]. *)
Definition model (env : Env) (self : VersionRow) : exn + ModelClass :=
  match registry env !! v_model_name self with
  | Some cls => inr cls
  | None => inl (KeyError (v_model_name self))
  end.

(** The property [diff]: [Diff.first(Diff.new == self.pk)], the rows of
    [Diff] being kept in the order of their primary keys. *)
Definition diff (self : VersionRow) (db : Database) : option DiffRow :=
  head (filter (λ d, v_pk <$> d_new d = Some (v_pk self)) (diffs db)).

Section flags.
Context `{Collaborators}.

(** "Flag current version with current client." *)
Definition flag (env : Env) (self : VersionRow) : M unit :=
  contributor_type_required env (λ session,
    db <- get_db ;;
    if negb (bool_decide (Flag.where_ self (client session) db ≠ []))
    then Flag.create env self session (client session)
    else ret tt).

(** "Delete current version's flags made by current session
    client." *)
Definition unflag (env : Env) (self : VersionRow) : M unit :=
  contributor_type_required env (λ session,
    Flag.delete_where self (client session)).
End flags.

(** The identifier and value [coerce] looks up when it is given a
    value: the identifier passed, or one read off the value. *)
Definition resolve_identifier (id : pyval) (identifier : option string)
    : string * pyval :=
  if str_truthy identifier then (default "" identifier, id)
  else
    match id with
    | VStr s =>
        let parts := split_colon s in
        let extra := removelast parts in
        (match extra with
         | [] => "sequential"    (* BAN id by default. *)
         | first :: _ => first
         end,
         VStr (List.last parts ""))
    | VInt _ => ("pk", id)
    | VNone => ("sequential", id)
    end.

Section coerce.
Context {R : Type} `{PeeweeModel R}.

Definition coerce (id : R + pyval) (identifier : option string)
    : M R :=
  match id with
  | inl instance => ret instance
  | inr id =>
      let '(identifier, id) := resolve_identifier id identifier in
      match cls_field identifier with
      | None => raise (AttributeError identifier)
      | Some field =>
          db <- get_db ;;
          match List.filter (field id) (raw_select db) with
          | instance :: _ => ret instance
          | [] =>
              (* Is it an old identifier? *)
              redirects <- Redirect.follow cls_name identifier id ;;
              match redirects with
              | [] => raise DoesNotExist
              | first :: others =>
                  if (1 <? length redirects)%nat
                  then raise
                         (MultipleRedirectsError identifier id redirects)
                  else raise (RedirectError identifier id first)
              end
          end
      end
  end.
End coerce.

End Version.

(** The class [Version] itself as a class [coerce] can be called on.  An
    integer column is compared with the value through the textual form of
    both, which is how a string such as ["pk:12"] finds row 12. *)
#[global] Instance Version_model : PeeweeModel VersionRow := {|
  cls_name := "Version";
  cls_field name :=
    if decide (name = "pk") then
      Some (λ v r, bool_decide (str v = str (VInt (v_pk r))))
    else if decide (name = "model_pk") then
      Some (λ v r, bool_decide (str v = str (VInt (v_model_pk r))))
    else if decide (name = "sequential") then
      Some (λ v r, bool_decide (str v = str (VInt (v_sequential r))))
    else if decide (name = "model_name") then
      Some (λ v r, bool_decide (str v = v_model_name r))
    else None;
  raw_select := versions
|}.

(** ** [class Diff] *)

(** Modelled from the spec: [ban.utils.make_diff], which this module
    imports and whose source is not part of it.  "For every field present
    in either map, emit [{old, new}] in [changes] iff the two values are
    not equal; fields unchanged are omitted; fields present only on one
    side are treated as [old]/[new = absent] to value transitions." *)
Definition make_diff (old new : gmap string pyval) : gmap string Change :=
  merge (λ o n, if decide (o = n) then None else Some (o, n)) old new.

Module Diff.

Definition with_diff (changes : option (gmap string Change))
    (d : DiffRow) : DiffRow :=
  {| d_pk := d_pk d; d_old := d_old d; d_new := d_new d;
     d_insee := d_insee d; d_diff := changes;
     d_created_at := d_created_at d |}.

Definition with_pk (p : option Z) (d : DiffRow) : DiffRow :=
  {| d_pk := p; d_old := d_old d; d_new := d_new d;
     d_insee := d_insee d; d_diff := d_diff d;
     d_created_at := d_created_at d |}.

(** [bool(self.diff)]: neither [None] nor the empty dict. *)
Definition diff_truthy (d : DiffRow) : bool :=
  match d_diff d with
  | Some changes => negb (bool_decide (changes = ∅))
  | None => false
  end.

(** [super().save()]: INSERT for an instance without primary key,
    UPDATE otherwise. *)
Definition super_save (self : DiffRow) : M DiffRow :=
  db <- get_db ;;
  match d_pk self with
  | None =>
      let self := with_pk (Some (seq_diff db)) self in
      put_db (set_diffs (diffs db ++ [self]) (seq_diff db + 1) db) ;;;
      ret self
  | Some p =>
      put_db (set_diffs
                ((λ r, if decide (d_pk r = Some p) then self else r)
                   <$> diffs db) (seq_diff db) db) ;;;
      ret self
  end.

(** The data of a snapshot, or the empty dict when there is none. *)
Definition data_of (v : option VersionRow) : gmap string pyval :=
  match v with Some v => v_data v | None => ∅ end.

(** The first statement of [save]: fill in [diff] when it is not set. *)
Definition with_computed_diff (self : DiffRow) : DiffRow :=
  if negb (diff_truthy self) then
    let old := data_of (d_old self) in
    let new := data_of (d_new self) in
    with_diff (Some (make_diff old new)) self
  else self.

Definition save (env : Env) (self : DiffRow) : M DiffRow :=
  let self := with_computed_diff self in
  self <- super_save self ;;
  Redirect.from_diff env self ;;;
  ret self.

(** [Diff.create(old=, new=, created_at=, insee=)]. *)
Definition create (env : Env) (old new : option VersionRow)
    (created_at : option Z) (insee : string) : M DiffRow :=
  save env {| d_pk := None; d_old := old; d_new := new; d_insee := insee;
              d_diff := None; d_created_at := created_at |}.

End Diff.

(** ** [class Versioned] *)

(** The argument of [load_version]: nothing, a date, or a sequence
    number. *)
Inductive version_ref :=
| RefNone
| RefDatetime (t : Z)
| RefSequential (n : Z).

Module Versioned.

(** [bool(self.pk)]. *)
Definition pk_truthy (e : Versioned) : bool :=
  match pk e with
  | Some p => negb (Z.eqb p 0)
  | None => false
  end.

Definition lock_version (e : Versioned) : Versioned :=
  let e := if negb (pk_truthy e) then set_version 1 e else e in
  set_locked (Some (if pk_truthy e then version e else 0)) e.

Definition prepared (e : Versioned) : Versioned := lock_version e.

(** [Versioned(...)]: [attrs] is the instance as the constructor
    of the base class leaves it, without the private attribute. *)
Definition __init__ (attrs : Versioned) : Versioned :=
  prepared (set_locked None attrs).

(** An instance built from a row of the table: constructed empty, given
    the columns of the row, then [prepared] again. *)
Definition fetched (row : Versioned) : Versioned :=
  prepared (set_locked (Some 0) row).

(** [Model.get(Model.pk == p)] on the class [model]: the first row
    with this primary key, as an instance, or [DoesNotExist]. *)
Definition get (model : ModelClass) (p : Z) : M Versioned :=
  db <- get_db ;;
  match head (filter (λ r, __class__ r = model ∧ pk r = Some p)
                     (entities db)) with
  | Some row => ret (fetched row)
  | None => raise DoesNotExist
  end.

(** The property [locked_version] and its setter. *)
Definition locked_version (e : Versioned) : option Z := _locked_version e.

Definition set_locked_version (value : Z) (e : Versioned)
    : exn + Versioned :=
  (* Should be set only once, and never updated. *)
  match _locked_version e with
  | Some _ => inl (AssertionError "locked_version is read only")
  | None => inr (set_locked (Some value) e)
  end.

Definition increment_version (e : Versioned) : Versioned :=
  set_version (version e + 1) e.

Definition check_version (e : Versioned) : M unit :=
  match locked_version e with
  | None => raise TypeError
  | Some locked =>
      if negb (bool_decide (version e = locked + 1))
      then raise (ForcedVersionError
                    ("wrong version number: " +:+ pretty (version e)))
      else ret tt
  end.

Definition update_meta (env : Env) (e : Versioned) : Versioned :=
  let e :=
    match session env with
    | Some session =>
        let e := if negb (bool_decide (is_Some (created_by e)))
                 then set_created_by (Some session) e else e in
        set_modified_by (Some session) e
    | None => e
    end in
  let now := utcnow env in
  let e := if negb (bool_decide (is_Some (created_at e)))
           then set_created_at (Some now) e else e in
  set_modified_at (Some now) e.

(** [Version.select().where(...).order_by(Version.sequential)]: a stable
    insertion sort of the rows of this instance. *)
Fixpoint insert_by_sequential (v : VersionRow) (l : list VersionRow)
    : list VersionRow :=
  match l with
  | [] => [v]
  | w :: l' =>
      if decide (v_sequential v ≤ v_sequential w) then v :: l
      else w :: insert_by_sequential v l'
  end.

Definition order_by_sequential (l : list VersionRow) : list VersionRow :=
  foldr insert_by_sequential [] l.

Definition belongs (e : Versioned) (v : VersionRow) : Prop :=
  v_model_name v = resource (__class__ e) ∧ Some (v_model_pk v) = pk e.

#[global] Instance belongs_dec e v : Decision (belongs e v).
Proof. unfold belongs. apply _. Defined.

Definition versions_of (e : Versioned) (db : Database)
    : list VersionRow :=
  order_by_sequential (filter (belongs e) (versions db)).

(** [Version.period.contains(t)]. *)
Definition period_contains (t : Z) (v : VersionRow) : Prop :=
  match (v_period v).1 with Some lo => lo ≤ t | None => True end
  ∧ match (v_period v).2 with Some hi => t < hi | None => True end.

#[global] Instance period_contains_dec t v : Decision (period_contains t v).
Proof. unfold period_contains. destruct (v_period v) as [[?|] [?|]]; apply _. Defined.

Definition load_version (e : Versioned) (ref : version_ref)
    (db : Database) : option VersionRow :=
  let qs := versions_of e db in
  match ref with
  | RefDatetime t => head (filter (period_contains t) qs)
  | RefSequential n => head (filter (λ v, v_sequential v = n) qs)
  | RefNone => head (filter (λ v, v_sequential v = version e) qs)
  end.

Section persistence.
Context `{Collaborators}.

Definition store_version (env : Env) (e : Versioned) : M unit :=
  new <- Version.create (resource (__class__ e)) (pk e) (version e)
                        (as_version e) (modified_at e, None) ;;
  old <-
    (if 1 <? version e then
       db <- get_db ;;
       match load_version e (RefSequential (version e - 1)) db with
       | None => raise (AttributeError "close_period")
       | Some old =>
           old <- Version.close_period old (v_period new).1 ;;
           ret (Some old)
       end
     else ret None) ;;
  if Diff_ACTIVE env then
    Diff.create env old (Some new) (modified_at e) (municipality_insee e) ;;;
    ret tt
  else ret tt.

(** The columns of an instance, as written to its table. *)
Definition row_of (e : Versioned) : Versioned := set_locked None e.

Definition same_row (e : Versioned) (p : Z) (r : Versioned) : Prop :=
  __class__ r = __class__ e ∧ pk r = Some p.

#[global] Instance same_row_dec e p r : Decision (same_row e p r).
Proof. unfold same_row. apply _. Defined.

(** [super().save()]: an instance without primary key is inserted and
    receives the next key; one with a primary key updates its row.
    The table's own constraints may refuse the row. *)
Definition super_save (e : Versioned) : M Versioned :=
  db <- get_db ;;
  match pk e with
  | None =>
      let e := set_pk (Some (seq_entity db)) e in
      if store_accepts (entities db) (row_of e)
      then put_db (set_entities (entities db ++ [row_of e])
                                (seq_entity db + 1) db) ;;;
           ret e
      else raise IntegrityError
  | Some p =>
      if store_accepts (filter (λ r, ¬ same_row e p r) (entities db))
                       (row_of e)
      then put_db (set_entities
                     ((λ r, if decide (same_row e p r)
                            then row_of e else r) <$> entities db)
                     (seq_entity db) db) ;;;
           ret e
      else raise IntegrityError
  end.

(** [self.source_kind = self.created_by.contributor_type], inside
    [try ... except Exception: pass]. *)
Definition set_source_kind_from_creator (e : Versioned) : Versioned :=
  match created_by e with
  | Some s => set_source_kind (contributor_type s) e
  | None => e
  end.

(** The block under [atomic()] in [save]. *)
Definition save_block (env : Env) (e : Versioned) : M Versioned :=
  check_version e ;;;
  let e := update_meta env e in
  let e := set_source_kind_from_creator e in
  e <- super_save e ;;
  store_version env e ;;;
  ret (lock_version e).

Definition save (env : Env) (e : Versioned) : M Versioned :=
  atomic (save_block env e).

(** [delete_instance]: the redirects go first; the table may refuse
    the deletion when other rows refer to this one. *)
Definition delete_instance (deletable : list Versioned → Versioned → bool)
    (e : Versioned) : M unit :=
  atomic (
    Redirect.clear e ;;;
    db <- get_db ;;
    if deletable (entities db) e
    then put_db (set_entities
                   (filter (λ r, ¬ (__class__ r = __class__ e
                                    ∧ pk r = pk e)) (entities db))
                   (seq_entity db) db)
    else raise IntegrityError).
End persistence.

End Versioned.

(** * Auxiliary definitions for the statements *)

(** The table after [get_or_create row]. *)
Definition inserted (row : RedirectRow) (l : list RedirectRow)
    : list RedirectRow :=
  if bool_decide (row ∈ l) then l else l ++ [row].

(** The rewriting [propagate] applies to every row: the identity, unless
    the model is registered and one of its rows holds [value] in the
    column [identifier]. *)
Definition propagation (env : Env) (model_name identifier : string)
    (value model_id : pyval) (db : Database) : RedirectRow → RedirectRow :=
  match registry env !! model_name with
  | Some model =>
      match Redirect.first model identifier value db with
      | Some old =>
          Redirect.retarget model_name (str (ban_id old)) (str model_id)
      | None => λ r, r
      end
  | None => λ r, r
  end.

(** [db'] differs from [db] in the redirect table at most. *)
Definition only_redirects (db db' : Database) : Prop :=
  db' = set_redirects (redirects db') db.

(** The entity and the id a redirect is registered for. *)
Definition add_target (instance : Versioned + string * pyval)
    : string * pyval :=
  match instance with
  | inr target => target
  | inl e => (resource (__class__ e), ban_id e)
  end.

(** [r'] is [r], or [r] pointed at [target]. *)
Definition retargeted (target : string) (r r' : RedirectRow) : Prop :=
  r' = r
  ∨ r' = Redirect.mk (r_model_name r) (r_identifier r) (r_value r) target.

(** [changes] shows the identifier going from the non-empty value
    [old_value] to another non-empty value. *)
Definition renamed (changes : gmap string Change) (identifier : string)
    (old_value : pyval) : Prop :=
  ∃ new_value, changes !! identifier = Some (Some old_value, Some new_value)
               ∧ truthy old_value = true ∧ truthy new_value = true.

(** The tables and sequences that neither the diff nor the redirect
    registry writes to. *)
Definition same_history (db db' : Database) : Prop :=
  entities db' = entities db ∧ versions db' = versions db
  ∧ flags db' = flags db
  ∧ seq_entity db' = seq_entity db ∧ seq_version db' = seq_version db.

(** The table after the UPDATE of the row with the primary key of
    [self]. *)
Definition replaced (self : VersionRow) (l : list VersionRow)
    : list VersionRow :=
  (λ r, if decide (v_pk r = v_pk self) then self else r) <$> l.

(** The periods of the successive snapshots taken at the times [ts]:
    each one runs to the time of the next, the last one is open. *)
Fixpoint periods (ts : list Z) : list (option Z * option Z) :=
  match ts with
  | [] => []
  | t :: ts' => (Some t, head ts') :: periods ts'
  end.

(** The snapshots of an instance, in table order. *)
Definition snapshots (e : Versioned) (db : Database) : list VersionRow :=
  filter (Versioned.belongs e) (versions db).

(** What a save does to a snapshot that is already there: the one
    before the version being saved gets the time of the save as the end
    of its period, every other one stays as it is. *)
Definition closed_by (e : Versioned) (now : option Z) (v : VersionRow)
    : VersionRow :=
  if decide (1 < version e ∧ Versioned.belongs e v
             ∧ v_sequential v = version e - 1)
  then Version.with_period ((v_period v).1, now) v else v.

(** What the store guarantees by itself: sequences start above zero and
    lie above every key handed out, and primary keys are unique. *)
Record well_formed (db : Database) : Prop := {
  wf_seq_entity : 0 < seq_entity db;
  wf_entities :
    ∀ r, r ∈ entities db → ∃ p, pk r = Some p ∧ p < seq_entity db;
  wf_version_pks : ∀ v, v ∈ versions db → v_pk v < seq_version db;
  wf_model_pks : ∀ v, v ∈ versions db → v_model_pk v < seq_entity db;
  wf_version_unique : NoDup (v_pk <$> versions db)
}.

(** The state of an instance and of the database after saves at the
    times [ts], the last of them through this instance. *)
Record saved (ts : list Z) (e : Versioned) (db : Database) : Prop := {
  saved_times : ts ≠ [];
  saved_pk : ∃ p, pk e = Some p ∧ 0 < p;
  saved_version : version e = Z.of_nat (length ts);
  saved_locked : _locked_version e = Some (version e);
  saved_version_pks : ∀ v, v ∈ versions db → v_pk v < seq_version db;
  saved_unique : NoDup (v_pk <$> versions db);
  saved_sequential :
    v_sequential <$> snapshots e db = seqZ 1 (Z.of_nat (length ts));
  saved_periods : v_period <$> snapshots e db = periods ts;
  saved_row :
    ∃ r, r ∈ entities db ∧ __class__ r = __class__ e ∧ pk r = pk e;
  saved_rows :
    ∀ r, r ∈ entities db → __class__ r = __class__ e → pk r = pk e →
         r = Versioned.row_of e
}.

(** The clock never runs backwards over the readings [ts]. *)
Definition clock_monotone (ts : list Z) : Prop :=
  ∀ (i j : nat) ti tj,
    (i ≤ j)%nat → ts !! i = Some ti → ts !! j = Some tj → ti ≤ tj.

(** What happens between two saves: whether the caller loads the
    instance again, the fields it sets, and the context of the save that
    follows. *)
Record Edit := {
  reload : bool;
  edit_env : Env;
  edit_fields : gmap string pyval
}.

Section sequences.
Context `{Collaborators}.

(** What [save] does to the instance before it writes the row. *)
Definition stamped (env : Env) (e : Versioned) : Versioned :=
  Versioned.set_source_kind_from_creator (Versioned.update_meta env e).

(** Further saves of the same instance.  Before each, the caller may
    load the instance again from its table, then sets the fields of the
    model and increments the version once. *)
Fixpoint save_again (steps : list Edit) (e : Versioned) : M Versioned :=
  match steps with
  | [] => ret e
  | step :: steps' =>
      e <- (if reload step then
              match pk e with
              | Some p => Versioned.get (__class__ e) p
              | None => raise DoesNotExist
              end
            else ret e) ;;
      e' <- Versioned.save (edit_env step)
              (set_fields (edit_fields step)
                          (Versioned.increment_version e)) ;;
      save_again steps' e'
  end.

(** The life of an instance: constructed, saved, then saved again. *)
Definition save_sequence (attrs : Versioned) (env : Env)
    (steps : list Edit) : M Versioned :=
  e <- Versioned.save env (Versioned.__init__ attrs) ;;
  save_again steps e.

End sequences.

(** The session of the context passes [contributor_type_required], and
    its client is [c]. *)
Definition may_flag `{Collaborators} (env : Env) (s : Session) (c : Client)
    : Prop :=
  session env = Some s ∧ client s = Some c
  ∧ str_truthy (contributor_type s) = true
  ∧ contributor_type s ≠ Some TYPE_VIEWER.

(** No snapshot carries two flags of one client. *)
Definition flags_unique (db : Database) : Prop :=
  ∀ v c, (length (Flag.where_ v (Some c) db) ≤ 1)%nat.


(** * A small registry of municipalities, for the examples *)

Module Example.

Definition Municipality : ModelClass :=
  {| __name__ := "Municipality"; resource := "municipality";
     identifiers := ["siren"; "insee"];
     columns := ["name"; "insee"; "siren"] |}.

(** A snapshot holds the id, the version and the columns of the model;
    the table wants an author on every row. *)
Definition world : Collaborators :=
  {| as_version e :=
       <["id" := ban_id e]> (<["version" := VInt (version e)]> (fields e));
     municipality_insee e := str (getattr e "insee");
     TYPE_VIEWER := "viewer";
     store_accepts _ row :=
       bool_decide (is_Some (created_by row) ∧ is_Some (modified_by row)) |}.

Definition empty : Database :=
  {| entities := []; versions := []; diffs := []; redirects := [];
     flags := []; seq_entity := 1; seq_version := 1; seq_diff := 1;
     seq_flag := 1 |}.

Definition alice : Session :=
  {| session_pk := 7; client := Some {| client_pk := 3 |};
     contributor_type := Some "admin" |}.

Definition bob : Session :=
  {| session_pk := 8; client := Some {| client_pk := 4 |};
     contributor_type := Some "develop" |}.

Definition env_of (who : option Session) (now : Z) : Env :=
  {| session := who; utcnow := now; Diff_ACTIVE := true;
     registry := register Municipality ∅ |}.

Definition env_at (now : Z) : Env := env_of (Some alice) now.

(** The arguments of the constructor for a municipality that is not in
    the table yet. *)
Definition municipality (id insee name : string) : Versioned :=
  {| __class__ := Municipality; pk := None; ban_id := VStr id;
     version := 1; created_at := None; created_by := None;
     modified_at := None; modified_by := None; source_kind := None;
     fields := {[ "insee" := VStr insee; "name" := VStr name ]};
     _locked_version := None |}.

Definition insee_name (insee name : string) : gmap string pyval :=
  {[ "insee" := VStr insee; "name" := VStr name ]}.

Definition edit (env : Env) (new_fields : gmap string pyval) : Edit :=
  {| reload := false; edit_env := env; edit_fields := new_fields |}.

(** The same edit, on the instance loaded again. *)
Definition reloaded (env : Env) (new_fields : gmap string pyval) : Edit :=
  {| reload := true; edit_env := env; edit_fields := new_fields |}.

(** The database of a computation, whatever its outcome. *)
Definition after {A} (c : M A) (db : Database) : Database := (c db).2.

(** Municipality E is created with INSEE code "old" and then given the
    code "new". *)
Definition renamed_E : Database :=
  after (save_sequence (H := world) (municipality "E" "old" "A")
           (env_at 100) [edit (env_at 200) (insee_name "new" "A")]) empty.

End Example.

(** * Lemmas *)

(** ** General facts about computations *)

Lemma bind_inr {A B} (c : M A) (k : A → M B) db b db' :
  bind c k db = (inr b, db') ↔
  ∃ a db1, c db = (inr a, db1) ∧ k a db1 = (inr b, db').
Proof.
  unfold bind. split.
  - destruct (c db) as [[e|a] db1] eqn:E; [discriminate|]. eauto.
  - intros (a & db1 & -> & Hk). done.
Qed.

Lemma bind_inl {A B} (c : M A) (k : A → M B) db e db' :
  bind c k db = (inl e, db') ↔
  c db = (inl e, db') ∨ ∃ a db1, c db = (inr a, db1) ∧ k a db1 = (inl e, db').
Proof.
  unfold bind. split.
  - destruct (c db) as [[e0|a] db1] eqn:E; [left; congruence|]. eauto.
  - intros [-> | (a & db1 & -> & Hk)]; done.
Qed.

Lemma atomic_inr {A} (c : M A) db a db' :
  atomic c db = (inr a, db') ↔ c db = (inr a, db').
Proof.
  unfold atomic. destruct (c db) as [[e|a0] db1]; split; congruence.
Qed.

Lemma atomic_inl {A} (c : M A) db e db' :
  atomic c db = (inl e, db') ↔ db' = db ∧ ∃ db1, c db = (inl e, db1).
Proof.
  unfold atomic. destruct (c db) as [[e0|a0] db1]; split.
  - intros [= -> ->]. eauto.
  - intros [-> [? [= -> _]]]. done.
  - discriminate.
  - intros [_ [? ?]]. discriminate.
Qed.

Lemma set_redirects_id db : set_redirects (redirects db) db = db.
Proof. by destruct db. Qed.

Lemma only_redirects_refl db : only_redirects db db.
Proof. unfold only_redirects. by rewrite set_redirects_id. Qed.

Lemma only_redirects_set l db : only_redirects db (set_redirects l db).
Proof. done. Qed.

Lemma only_redirects_trans db1 db2 db3 :
  only_redirects db1 db2 → only_redirects db2 db3 → only_redirects db1 db3.
Proof. unfold only_redirects. intros -> ->. done. Qed.

Create HintDb frame.
#[local] Hint Resolve only_redirects_refl only_redirects_set : frame.

(** ** The redirect registry *)

Lemma retarget_same_target model_name old_id model_id r :
  r_model_id r = model_id →
  Redirect.retarget model_name old_id model_id r = r.
Proof.
  intros <-. unfold Redirect.retarget, Redirect.mk.
  case_decide; [by destruct r|done].
Qed.

Lemma retarget_cases model_name old_id model_id r :
  Redirect.retarget model_name old_id model_id r = r
  ∨ Redirect.retarget model_name old_id model_id r
    = Redirect.mk (r_model_name r) (r_identifier r) (r_value r) model_id.
Proof. unfold Redirect.retarget. case_decide; auto. Qed.

Lemma propagation_same_target env model_name identifier value model_id db r :
  r_model_id r = str model_id →
  propagation env model_name identifier value model_id db r = r.
Proof.
  intros Hr. unfold propagation.
  destruct (registry env !! model_name); [|done].
  destruct (Redirect.first _ _ _ _); [|done].
  by apply retarget_same_target.
Qed.

Lemma propagation_cases env model_name identifier value model_id db r :
  propagation env model_name identifier value model_id db r = r
  ∨ propagation env model_name identifier value model_id db r
    = Redirect.mk (r_model_name r) (r_identifier r) (r_value r)
                  (str model_id).
Proof.
  unfold propagation.
  destruct (registry env !! model_name); [|auto].
  destruct (Redirect.first _ _ _ _); [|auto].
  apply retarget_cases.
Qed.

Lemma get_or_create_spec row db :
  Redirect.get_or_create row db
  = (inr tt, set_redirects (inserted row (redirects db)) db).
Proof.
  unfold Redirect.get_or_create, inserted, bind, get_db, ret, put_db.
  case_bool_decide; [|done]. by rewrite set_redirects_id.
Qed.

Lemma elem_of_inserted row l : row ∈ inserted row l.
Proof.
  unfold inserted. case_bool_decide; [done|].
  apply elem_of_app. right. by apply list_elem_of_singleton.
Qed.

Lemma inserted_incl row l r : r ∈ l → r ∈ inserted row l.
Proof.
  unfold inserted. case_bool_decide; [done|].
  intros ?. apply elem_of_app. by left.
Qed.

Lemma elem_of_inserted_inv row l r : r ∈ inserted row l → r = row ∨ r ∈ l.
Proof.
  unfold inserted. case_bool_decide; [auto|].
  rewrite elem_of_app, list_elem_of_singleton. tauto.
Qed.

(** Whatever its outcome, [propagate] writes to the redirect table only;
    when it returns, every row went through [propagation]. *)
Lemma propagate_frame env model_name identifier value model_id db :
  only_redirects db
    (Redirect.propagate env model_name identifier value model_id db).2.
Proof.
  unfold Redirect.propagate.
  destruct (registry env !! model_name) as [model|]; [|simpl; auto with frame].
  destruct (hasattr model identifier); simpl; [|auto with frame].
  unfold bind, get_db. simpl.
  destruct (Redirect.first _ _ _ _); [|simpl; auto with frame].
  unfold Redirect.update_model_id, bind, get_db, put_db, raise.
  case_bool_decide; simpl; auto with frame.
Qed.

Lemma propagate_ok env model_name identifier value model_id db db' :
  Redirect.propagate env model_name identifier value model_id db
    = (inr tt, db') →
  db' = set_redirects
          (propagation env model_name identifier value model_id db
             <$> redirects db) db.
Proof.
  unfold Redirect.propagate, propagation.
  destruct (registry env !! model_name) as [model|].
  2:{ intros [= <-]. by rewrite list_fmap_id, set_redirects_id. }
  destruct (hasattr model identifier); simpl; [|discriminate].
  unfold bind, get_db. simpl.
  destruct (Redirect.first _ _ _ _).
  2:{ intros [= <-]. by rewrite list_fmap_id, set_redirects_id. }
  unfold Redirect.update_model_id, bind, get_db, put_db, raise.
  case_bool_decide; [|discriminate]. by intros [= <-].
Qed.

Lemma propagate_raises env model_name identifier value model_id db error db' :
  Redirect.propagate env model_name identifier value model_id db
    = (inl error, db') →
  db' = db.
Proof.
  unfold Redirect.propagate.
  destruct (registry env !! model_name) as [model|]; [|discriminate].
  destruct (hasattr model identifier); simpl; [|by intros [= _ <-]].
  unfold bind, get_db. simpl.
  destruct (Redirect.first _ _ _ _); [|discriminate].
  unfold Redirect.update_model_id, bind, get_db, put_db, raise.
  case_bool_decide; [discriminate|]. by intros [= _ <-].
Qed.

Lemma propagation_set_redirects env model_name identifier value model_id l db :
  propagation env model_name identifier value model_id (set_redirects l db)
  = propagation env model_name identifier value model_id db.
Proof. done. Qed.

Lemma add_frame env instance identifier value db :
  only_redirects db (Redirect.add env instance identifier value db).2.
Proof.
  unfold Redirect.add.
  assert (Hrest : ∀ target : string * pyval,
    only_redirects db
      ((Redirect.get_or_create
          (Redirect.mk target.1 identifier (str value) (str target.2)) ;;;
        Redirect.propagate env target.1 identifier value target.2) db).2).
  { intros target. unfold bind at 1. rewrite get_or_create_spec.
    eapply only_redirects_trans; [|apply propagate_frame].
    auto with frame. }
  destruct instance as [e|[model_name model_id]].
  - unfold bind at 1. repeat case_bool_decide; simpl; auto with frame.
    apply (Hrest (_, _)).
  - apply (Hrest (_, _)).
Qed.

Lemma add_ok env instance identifier value db db' :
  Redirect.add env instance identifier value db = (inr tt, db') →
  db' = set_redirects
          (propagation env (add_target instance).1 identifier value
                       (add_target instance).2 db
             <$> inserted (Redirect.mk (add_target instance).1 identifier
                             (str value) (str (add_target instance).2))
                          (redirects db)) db.
Proof.
  unfold Redirect.add. intros Hadd.
  apply bind_inr in Hadd as (target & db1 & Htarget & Hadd).
  assert (target = add_target instance ∧ db1 = db) as [-> ->].
  { destruct instance as [e|[model_name model_id]]; simpl in *.
    - repeat case_bool_decide; try discriminate.
      by injection Htarget as <- <-.
    - by injection Htarget as <- <-. }
  apply bind_inr in Hadd as ([] & db2 & Hcreate & Hprop).
  rewrite get_or_create_spec in Hcreate. injection Hcreate as <-.
  apply propagate_ok in Hprop. rewrite Hprop. done.
Qed.

(** A model instance is validated before anything is written. *)
Lemma add_instance_ok env e identifier value db db' :
  Redirect.add env (inl e) identifier value db = (inr tt, db') →
  identifier ∈ identifiers (__class__ e) ++ ["id"; "pk"]
  ∧ getattr e identifier ≠ value.
Proof.
  unfold Redirect.add. intros Hadd.
  apply bind_inr in Hadd as (target & db1 & Htarget & _).
  repeat case_bool_decide; try discriminate. done.
Qed.

(** ** [Redirect.from_diff] *)

Lemma for_each_frame {A} (body : A → M unit) (l : list A) db :
  (∀ x db, only_redirects db (body x db).2) →
  only_redirects db (for_each l body db).2.
Proof.
  intros Hbody. revert db. induction l as [|x l IH]; intros db; simpl.
  - auto with frame.
  - unfold bind. specialize (Hbody x db).
    destruct (body x db) as [[e|[]] db1]; simpl in *; [done|].
    eapply only_redirects_trans; [exact Hbody|apply IH].
Qed.

Lemma from_diff_step_frame env model new changes identifier db :
  only_redirects db
    (Redirect.from_diff_step env model new changes identifier db).2.
Proof.
  unfold Redirect.from_diff_step.
  destruct (changes !! identifier) as [[o n]|]; [|simpl; auto with frame].
  destruct (negb (Redirect.opt_truthy o) || negb (Redirect.opt_truthy n));
    [simpl; auto with frame|].
  destruct (v_data new !! "id"); [|simpl; auto with frame].
  apply add_frame.
Qed.

Lemma from_diff_frame env diff db :
  only_redirects db (Redirect.from_diff env diff db).2.
Proof.
  unfold Redirect.from_diff.
  destruct (d_new diff) as [new|]; [|simpl; auto with frame].
  destruct (d_old diff) as [old|]; [|simpl; auto with frame].
  destruct (registry env !! v_model_name new) as [model|];
    [|simpl; auto with frame].
  destruct (d_diff diff) as [changes|]; [|simpl; auto with frame].
  apply for_each_frame. intros. apply from_diff_step_frame.
Qed.

Lemma retargeted_trans target r1 r2 r3 :
  retargeted target r1 r2 → retargeted target r2 r3 →
  retargeted target r1 r3.
Proof. unfold retargeted. intros [->| ->] [->| ->]; auto. Qed.

Lemma retargeted_same_target target r r' :
  r_model_id r = target → retargeted target r r' → r' = r.
Proof. intros <- [->| ->]; [done|by destruct r]. Qed.

(** One turn of the loop either skips the identifier, or registers the
    redirect of its old value. *)
Lemma from_diff_step_ok env model new changes identifier db db' :
  Redirect.from_diff_step env model new changes identifier db
    = (inr tt, db') →
  ((∀ o, ¬ renamed changes identifier o) ∧ db' = db)
  ∨ ∃ o model_id,
      renamed changes identifier o ∧ v_data new !! "id" = Some model_id
      ∧ Redirect.add env (inr (lower (__name__ model), model_id))
                     identifier o db = (inr tt, db').
Proof.
  unfold Redirect.from_diff_step, renamed.
  destruct (changes !! identifier) as [[o n]|] eqn:Hc; [|discriminate].
  destruct (negb (Redirect.opt_truthy o) || negb (Redirect.opt_truthy n))
    eqn:Hskip.
  - intros [= <-]. left. split; [|done].
    intros o' (n' & [= -> ->] & Ho & Hn). simpl in Hskip.
    rewrite Ho, Hn in Hskip. discriminate.
  - apply orb_false_elim in Hskip as [Ho Hn].
    apply negb_false_iff in Ho, Hn.
    destruct o as [o|], n as [n|]; try discriminate. simpl in *.
    destruct (v_data new !! "id") as [model_id|]; [|discriminate].
    intros Hadd. right. exists o, model_id. eauto 10.
Qed.

(** After [add] with a pair, the row is there, the rows that already
    pointed at the same id are kept, and every row is an earlier row,
    possibly pointed at that id, or the new one. *)
Lemma add_pair_ok env model_name model_id identifier value db db' :
  Redirect.add env (inr (model_name, model_id)) identifier value db
    = (inr tt, db') →
  let row := Redirect.mk model_name identifier (str value) (str model_id) in
  row ∈ redirects db'
  ∧ (∀ r, r ∈ redirects db → r_model_id r = str model_id → r ∈ redirects db')
  ∧ (∀ r', r' ∈ redirects db' →
       r' = row ∨ ∃ r, r ∈ redirects db ∧ retargeted (str model_id) r r').
Proof.
  intros Hadd row. apply add_ok in Hadd. simpl in Hadd. subst db'. simpl.
  fold row. split_and!.
  - apply list_elem_of_fmap. exists row. split; [|apply elem_of_inserted].
    by rewrite propagation_same_target.
  - intros r Hr Hid. apply list_elem_of_fmap. exists r.
    split; [|by apply inserted_incl]. by rewrite propagation_same_target.
  - intros r' (r & -> & Hr)%list_elem_of_fmap.
    apply elem_of_inserted_inv in Hr as [->|Hr].
    + left. by rewrite propagation_same_target.
    + right. exists r. split; [done|]. apply propagation_cases.
Qed.

Section from_diff_loop.
Context (env : Env) (model : ModelClass) (new : VersionRow)
        (changes : gmap string Change).

(** Without an ["id"] in the snapshot, the loop can only return when it
    had nothing to register. *)
Lemma from_diff_loop_no_id l db db' :
  v_data new !! "id" = None →
  for_each l (Redirect.from_diff_step env model new changes) db = (inr tt, db') →
  db' = db ∧ ∀ i o, i ∈ l → ¬ renamed changes i o.
Proof.
  intros Hid. revert db. induction l as [|x l IH]; intros db; simpl.
  - intros [= <-]. split; [done|]. intros i o Hi. by apply elem_of_nil in Hi.
  - intros (u & db1 & Hstep & Hrest)%bind_inr. destruct u.
    apply from_diff_step_ok in Hstep
      as [[Hno ->]|(o & model_id & _ & Hsome & _)]; [|congruence].
    apply IH in Hrest as [-> Hl]. split; [done|].
    intros i o [->|Hi]%elem_of_cons; auto.
Qed.

Lemma from_diff_loop_ok model_id l db db' :
  v_data new !! "id" = Some model_id →
  for_each l (Redirect.from_diff_step env model new changes) db = (inr tt, db') →
  (∀ i o, i ∈ l → renamed changes i o →
     Redirect.mk (lower (__name__ model)) i (str o) (str model_id) ∈ redirects db')
  ∧ (∀ r, r ∈ redirects db → r_model_id r = str model_id →
       r ∈ redirects db')
  ∧ (∀ r', r' ∈ redirects db' →
       (∃ r, r ∈ redirects db ∧ retargeted (str model_id) r r')
       ∨ ∃ i o, i ∈ l ∧ renamed changes i o
                ∧ r' = Redirect.mk (lower (__name__ model)) i (str o) (str model_id)).
Proof.
  intros Hid. revert db. induction l as [|x l IH]; intros db; simpl.
  - intros [= <-]. split_and!.
    + intros i o Hi. by apply elem_of_nil in Hi.
    + done.
    + intros r' Hr'. left. exists r'. split; [done|by left].
  - intros (u & db1 & Hstep & Hrest)%bind_inr. destruct u.
    destruct (IH _ Hrest) as (Hnew & Hkeep & Hall).
    apply from_diff_step_ok in Hstep
      as [[Hno ->]|(o & model_id' & Hx & Hsome & Hadd)].
    { split_and!.
      - intros i o' [->|Hi]%elem_of_cons Hr; [by destruct (Hno o')|auto].
      - done.
      - intros r' [?|(i & o' & Hi & ?)]%Hall; [by left|right].
        exists i, o'. split; [by apply elem_of_cons; right|done]. }
    assert (model_id' = model_id) as -> by congruence.
    apply add_pair_ok in Hadd as (Hrow & Hkeep1 & Hall1). split_and!.
    + intros i o' [->|Hi]%elem_of_cons Hr; [|auto].
      assert (o' = o) as ->.
      { destruct Hx as (? & Hx & _), Hr as (? & Hr & _). congruence. }
      by apply Hkeep.
    + auto.
    + intros r' [(r1 & Hr1 & Hr')|(i & o' & Hi & ?)]%Hall.
      * apply Hall1 in Hr1 as [->|(r & Hr & Hr1)].
        -- right. exists x, o. split; [by apply elem_of_cons; left|].
           split; [done|]. by apply retargeted_same_target in Hr'.
        -- left. exists r. split; [done|]. by eapply retargeted_trans.
      * right. exists i, o'. split; [by apply elem_of_cons; right|done].
Qed.
End from_diff_loop.

(** ** [Diff.save] *)

Lemma same_history_refl db : same_history db db.
Proof. by repeat split. Qed.

Lemma same_history_trans db1 db2 db3 :
  same_history db1 db2 → same_history db2 db3 → same_history db1 db3.
Proof.
  unfold same_history. intros (-> & -> & -> & -> & ->) (-> & -> & -> & -> & ->).
  done.
Qed.

Lemma only_redirects_same_history db db' :
  only_redirects db db' → same_history db db'.
Proof. unfold only_redirects. intros ->. by repeat split. Qed.

Lemma Diff_super_save_spec self db :
  ∃ self' db1,
    Diff.super_save self db = (inr self', db1)
    ∧ same_history db db1 ∧ redirects db1 = redirects db
    ∧ d_diff self' = d_diff self ∧ d_old self' = d_old self
    ∧ d_new self' = d_new self
    ∧ (d_pk self = None → diffs db1 = diffs db ++ [self']).
Proof.
  unfold Diff.super_save, bind, get_db, put_db, ret.
  destruct (d_pk self) as [p|] eqn:Hpk; simpl.
  - eexists _, _. split; [reflexivity|]. by repeat split.
  - eexists _, _. split; [reflexivity|]. by repeat split.
Qed.

Lemma Diff_save_frame env self db :
  same_history db (Diff.save env self db).2.
Proof.
  unfold Diff.save.
  destruct (Diff_super_save_spec (Diff.with_computed_diff self) db)
    as (self' & db1 & Hsave & Hsame & _).
  unfold bind at 1. rewrite Hsave.
  eapply same_history_trans; [exact Hsame|].
  pose proof (from_diff_frame env self' db1) as Hframe.
  apply only_redirects_same_history in Hframe.
  unfold bind. destruct (Redirect.from_diff env self' db1) as [[e|[]] db2];
    done.
Qed.

Lemma Diff_save_ok env self db self' db' :
  Diff.save env self db = (inr self', db') →
  d_diff self' = d_diff (Diff.with_computed_diff self)
  ∧ d_old self' = d_old self ∧ d_new self' = d_new self
  ∧ (d_pk self = None → diffs db' = diffs db ++ [self'])
  ∧ ∃ db1, redirects db1 = redirects db
           ∧ Redirect.from_diff env self' db1 = (inr tt, db').
Proof.
  unfold Diff.save. intros (self1 & db1 & Hsave & Hrest)%bind_inr.
  apply bind_inr in Hrest as ([] & db2 & Hfrom & [= <- <-]).
  destruct (Diff_super_save_spec (Diff.with_computed_diff self) db)
    as (self2 & db1' & Hsave' & Hsame & Hred & Hdiff & Hold & Hnew & Hins).
  rewrite Hsave in Hsave'. injection Hsave' as <- <-.
  assert (Hwc : ∀ d, d_old (Diff.with_computed_diff d) = d_old d
                     ∧ d_new (Diff.with_computed_diff d) = d_new d
                     ∧ d_pk (Diff.with_computed_diff d) = d_pk d).
  { intros d. unfold Diff.with_computed_diff. by destruct (negb _). }
  destruct (Hwc self) as (Hwo & Hwn & Hwp).
  split_and!; [done|congruence|congruence| |by eauto].
  intros Hpk. rewrite <- Hwp in Hpk. apply Hins in Hpk.
  pose proof (from_diff_frame env self1 db1) as Hframe. rewrite Hfrom in Hframe.
  unfold only_redirects in Hframe. simpl in Hframe. rewrite Hframe. done.
Qed.

(** ** [Version.create] and [Version.close_period] *)

Lemma Version_create_ok model_name model_pk sequential data period db new db' :
  Version.create model_name model_pk sequential data period db
    = (inr new, db') →
  ∃ p, model_pk = Some p
       ∧ new = {| v_pk := seq_version db; v_model_name := model_name;
                  v_model_pk := p; v_sequential := sequential;
                  v_data := data; v_period := period |}
       ∧ (Version.key new ∉ Version.key <$> versions db)
       ∧ db' = set_versions (versions db ++ [new]) (seq_version db + 1) db.
Proof.
  unfold Version.create, bind, get_db, put_db, ret, raise. simpl.
  destruct model_pk as [p|]; [|discriminate].
  case_bool_decide; [discriminate|]. intros [= <- <-]. eauto.
Qed.

Lemma Version_close_period_ok self bound db self' db' :
  Version.close_period self bound db = (inr self', db') →
  self' = Version.with_period ((v_period self).1, bound) self
  ∧ db' = set_versions (replaced self' (versions db)) (seq_version db) db.
Proof.
  unfold Version.close_period, Version.save, bind, get_db, put_db, ret, raise.
  simpl. case_bool_decide; [|discriminate]. by intros [= <- <-].
Qed.

(** ** [Versioned.save], step by step *)

Section save_steps.
Context `{Collaborators}.

Lemma check_version_ok e db u db' :
  Versioned.check_version e db = (inr u, db') →
  db' = db ∧ ∃ locked, _locked_version e = Some locked
                       ∧ version e = locked + 1.
Proof.
  unfold Versioned.check_version, Versioned.locked_version, raise, ret.
  destruct (_locked_version e) as [locked|]; [|discriminate].
  case_bool_decide; simpl; [|discriminate]. intros [= <-]. eauto.
Qed.

Lemma super_save_ok e db e' db' :
  Versioned.super_save e db = (inr e', db') →
  (pk e = None ∧ e' = set_pk (Some (seq_entity db)) e
   ∧ db' = set_entities (entities db ++ [Versioned.row_of e'])
                        (seq_entity db + 1) db)
  ∨ (∃ p, pk e = Some p ∧ e' = e
          ∧ db' = set_entities
                    ((λ r, if decide (Versioned.same_row e p r)
                           then Versioned.row_of e else r) <$> entities db)
                    (seq_entity db) db).
Proof.
  unfold Versioned.super_save, bind, get_db, put_db, ret, raise. simpl.
  destruct (pk e) as [p|] eqn:Hpk.
  - destruct (store_accepts _ _); [|discriminate].
    intros [= <- <-]. right. eauto.
  - destruct (store_accepts _ _); [|discriminate].
    intros [= <- <-]. left. eauto.
Qed.

Lemma store_version_ok env e db db' :
  Versioned.store_version env e db = (inr tt, db') →
  ∃ new db1 db2,
    Version.create (resource (__class__ e)) (pk e) (version e)
                   (as_version e) (modified_at e, None) db
      = (inr new, db1)
    ∧ (if 1 <? version e then
         ∃ old old',
           Versioned.load_version e (RefSequential (version e - 1)) db1
             = Some old
           ∧ Version.close_period old (v_period new).1 db1
             = (inr old', db2)
       else db2 = db1)
    ∧ same_history db2 db'.
Proof.
  unfold Versioned.store_version.
  intros (new & db1 & Hcreate & Hrest)%bind_inr.
  apply bind_inr in Hrest as (old & db2 & Hold & Hdiff).
  exists new, db1, db2. split; [done|]. split.
  - destruct (1 <? version e); [|by injection Hold as <- <-].
    unfold bind at 1, get_db in Hold.
    destruct (Versioned.load_version _ _ _) as [old0|]; [|discriminate].
    apply bind_inr in Hold as (old' & db2' & Hclose & [= <- <-]). eauto.
  - destruct (Diff_ACTIVE env); [|injection Hdiff as <-; apply same_history_refl].
    apply bind_inr in Hdiff as (d & db3 & Hdiff & [= <-]).
    pose proof (Diff_save_frame env
      {| d_pk := None; d_old := old; d_new := Some new;
         d_insee := municipality_insee e; d_diff := None;
         d_created_at := modified_at e |} db2) as Hframe.
    unfold Diff.create in Hdiff. by rewrite Hdiff in Hframe.
Qed.

Lemma save_ok env e db e' db' :
  Versioned.save env e db = (inr e', db') →
  ∃ locked e2 db1,
    _locked_version e = Some locked ∧ version e = locked + 1
    ∧ Versioned.super_save
        (Versioned.set_source_kind_from_creator
           (Versioned.update_meta env e)) db = (inr e2, db1)
    ∧ Versioned.store_version env e2 db1 = (inr tt, db')
    ∧ e' = Versioned.lock_version e2.
Proof.
  unfold Versioned.save. intros Hsave.
  apply (proj1 (atomic_inr _ _ _ _)) in Hsave.
  unfold Versioned.save_block in Hsave.
  apply bind_inr in Hsave as (u & db0 & Hcheck & Hsave).
  apply check_version_ok in Hcheck as (-> & locked & Hlocked & Hversion).
  apply bind_inr in Hsave as (e2 & db1 & Hsuper & Hsave).
  apply bind_inr in Hsave as ([] & db2 & Hstore & [= <- <-]).
  eauto 10.
Qed.
End save_steps.

(** ** The history of one entity, as lists *)

Lemma order_by_sequential_seqZ l m n :
  v_sequential <$> l = seqZ m n → Versioned.order_by_sequential l = l.
Proof.
  revert m n. induction l as [|v l IH]; intros m n Hl; [done|].
  destruct (decide (0 < n)) as [Hn|Hn]; [|by rewrite seqZ_nil in Hl by lia].
  rewrite seqZ_cons in Hl by done. injection Hl as Hv Hl.
  unfold Versioned.order_by_sequential in *. simpl. rewrite (IH _ _ Hl).
  destruct l as [|w l]; [done|]. simpl.
  destruct (decide (0 < Z.pred n)) as [Hn'|Hn'];
    [|by rewrite seqZ_nil in Hl by lia].
  rewrite seqZ_cons in Hl by done. injection Hl as Hw _.
  case_decide; [done|lia].
Qed.

Lemma head_filter_sequential h old rest k :
  (∀ v, v ∈ h → v_sequential v ≠ k) → v_sequential old = k →
  head (filter (λ v, v_sequential v = k) (h ++ old :: rest)) = Some old.
Proof.
  intros Hh Hold. induction h as [|v h IH]; simpl.
  - by rewrite filter_cons_True.
  - rewrite filter_cons_False by (apply Hh; left).
    apply IH. intros w Hw. apply Hh. by right.
Qed.

Lemma sequential_snoc hist (k : nat) :
  v_sequential <$> hist = seqZ 1 (Z.of_nat (S k)) →
  ∃ h cur, hist = h ++ [cur]
           ∧ v_sequential <$> h = seqZ 1 (Z.of_nat k)
           ∧ v_sequential cur = 1 + Z.of_nat k.
Proof.
  rewrite seqZ_S. intros (h & l & Hh & Hl & ->)%fmap_app_inv.
  destruct l as [|cur [|? ?]]; try discriminate.
  injection Hl as Hcur. eauto.
Qed.

Lemma fmap_pk_replaced x l : v_pk <$> replaced x l = v_pk <$> l.
Proof.
  unfold replaced. rewrite <- list_fmap_compose. apply list_fmap_ext.
  intros i r _. simpl. by case_decide.
Qed.

Lemma replaced_other x l :
  (∀ v, v ∈ l → v_pk v ≠ v_pk x) → replaced x l = l.
Proof.
  intros Hl. unfold replaced. rewrite <- (list_fmap_id l) at 2.
  apply list_fmap_ext. intros i r Hr. simpl.
  case_decide as Hpk; [|done]. apply list_elem_of_lookup_2 in Hr.
  by apply Hl in Hr.
Qed.

Lemma replaced_app x l1 l2 :
  replaced x (l1 ++ l2) = replaced x l1 ++ replaced x l2.
Proof. apply fmap_app. Qed.

Lemma replaced_same x old :
  v_pk x = v_pk old → replaced x [old] = [x].
Proof. intros Hpk. unfold replaced. simpl. by rewrite decide_True. Qed.

Lemma filter_replaced (P : VersionRow → Prop) `{∀ v, Decision (P v)} x l :
  (∀ r, r ∈ l → v_pk r = v_pk x → (P r ↔ P x)) →
  filter P (replaced x l) = replaced x (filter P l).
Proof.
  induction l as [|r l IH]; intros Hl; [done|].
  assert (IH' : filter P (replaced x l) = replaced x (filter P l)).
  { apply IH. intros r' Hr'. apply Hl. by right. }
  unfold replaced in *. rewrite fmap_cons.
  destruct (decide (v_pk r = v_pk x)) as [Hpk|Hpk].
  - assert (Hiff : P r ↔ P x) by (apply Hl; [left|done]).
    destruct (decide (P r)) as [Hr|Hr].
    + rewrite (filter_cons_True P x) by tauto.
      rewrite (filter_cons_True P r) by done.
      rewrite fmap_cons, decide_True by done. by rewrite IH'.
    + rewrite (filter_cons_False P x) by tauto.
      by rewrite (filter_cons_False P r) by done.
  - destruct (decide (P r)) as [Hr|Hr].
    + rewrite !(filter_cons_True P r) by done.
      rewrite fmap_cons, decide_False by done. by rewrite IH'.
    + by rewrite !(filter_cons_False P r) by done.
Qed.

Lemma NoDup_pk_eq (l : list VersionRow) a b :
  NoDup (v_pk <$> l) → a ∈ l → b ∈ l → v_pk a = v_pk b → a = b.
Proof.
  intros Hnd (i & Hi)%list_elem_of_lookup (j & Hj)%list_elem_of_lookup Hpk.
  assert (i = j) as ->; [|congruence].
  eapply NoDup_lookup; [exact Hnd|..].
  - by rewrite list_lookup_fmap, Hi.
  - by rewrite list_lookup_fmap, Hj, Hpk.
Qed.

Lemma periods_snoc ts last t :
  ∃ closed,
    periods (ts ++ [last]) = closed ++ [(Some last, None)]
    ∧ periods (ts ++ [last; t])
      = closed ++ [(Some last, Some t); (Some t, None)].
Proof.
  induction ts as [|a ts (closed & IH1 & IH2)]; simpl.
  - by exists [].
  - exists ((Some a, head (ts ++ [last])) :: closed). simpl.
    rewrite IH1, IH2. split; [done|]. by destruct ts.
Qed.

Lemma periods_lookup ts i t :
  ts !! i = Some t → periods ts !! i = Some (Some t, ts !! S i).
Proof.
  revert i. induction ts as [|a ts IH]; intros i; [done|].
  destruct i as [|i]; simpl.
  - intros [= ->]. by destruct ts.
  - apply IH.
Qed.

Lemma length_periods ts : length (periods ts) = length ts.
Proof. induction ts; simpl; congruence. Qed.

(** ** The invariant of a saved entity *)

Lemma filter_none {A} (P : A → Prop) `{∀ x, Decision (P x)} (l : list A) :
  (∀ x, x ∈ l → ¬ P x) → filter P l = [].
Proof.
  induction l as [|x l IH]; intros Hl; [done|].
  rewrite filter_cons_False by (apply Hl; left).
  apply IH. intros y Hy. apply Hl. by right.
Qed.

Lemma snapshots_ext e1 e2 db :
  __class__ e1 = __class__ e2 → pk e1 = pk e2 →
  snapshots e1 db = snapshots e2 db.
Proof.
  intros Hc Hp. apply list_filter_iff. intros v.
  unfold Versioned.belongs. by rewrite Hc, Hp.
Qed.

Lemma versions_of_saved ts e db :
  saved ts e db → Versioned.versions_of e db = snapshots e db.
Proof.
  intros Hs. unfold Versioned.versions_of. fold (snapshots e db).
  eapply order_by_sequential_seqZ, saved_sequential, Hs.
Qed.

Lemma lock_version_saved e p :
  pk e = Some p → 0 < p →
  Versioned.lock_version e = set_locked (Some (version e)) e.
Proof.
  intros Hpk Hp. unfold Versioned.lock_version, Versioned.pk_truthy.
  rewrite Hpk. destruct (Z.eqb_spec p 0); [lia|]. simpl.
  rewrite Hpk. destruct (Z.eqb_spec p 0); [lia|done].
Qed.

Section meta.
Context `{Collaborators}.

Lemma stamped_same env e :
  __class__ (stamped env e) = __class__ e ∧ pk (stamped env e) = pk e
  ∧ version (stamped env e) = version e
  ∧ fields (stamped env e) = fields e
  ∧ ban_id (stamped env e) = ban_id e
  ∧ _locked_version (stamped env e) = _locked_version e.
Proof.
  unfold stamped, Versioned.set_source_kind_from_creator,
    Versioned.update_meta.
  destruct (session env); repeat case_bool_decide; simpl;
    repeat (match goal with |- context [match ?x with _ => _ end] =>
              destruct x end; simpl); done.
Qed.

Lemma stamped_modified_at env e :
  modified_at (stamped env e) = Some (utcnow env).
Proof.
  unfold stamped, Versioned.set_source_kind_from_creator,
    Versioned.update_meta.
  destruct (session env); repeat case_bool_decide; simpl;
    repeat (match goal with |- context [match ?x with _ => _ end] =>
              destruct x end; simpl); done.
Qed.
End meta.

Section history.
Context `{Collaborators}.

(** [store_version] on an entity whose snapshots so far were taken at
    the times [ts] adds the next one and closes the one before. *)
Lemma store_version_history env e db db' ts p now :
  pk e = Some p → modified_at e = Some now →
  version e = Z.of_nat (length ts) + 1 →
  (∀ v, v ∈ versions db → v_pk v < seq_version db) →
  NoDup (v_pk <$> versions db) →
  v_sequential <$> snapshots e db = seqZ 1 (Z.of_nat (length ts)) →
  v_period <$> snapshots e db = periods ts →
  Versioned.store_version env e db = (inr tt, db') →
  (∀ v, v ∈ versions db' → v_pk v < seq_version db')
  ∧ NoDup (v_pk <$> versions db')
  ∧ v_sequential <$> snapshots e db'
    = seqZ 1 (Z.of_nat (length (ts ++ [now])))
  ∧ v_period <$> snapshots e db' = periods (ts ++ [now])
  ∧ entities db' = entities db ∧ seq_entity db' = seq_entity db.
Proof.
  intros Hpk Hmod Hversion Hpks Hnd Hseq Hper Hstore.
  apply store_version_ok in Hstore as (new & db1 & db2 & Hcreate & Hold & Hsame).
  apply Version_create_ok in Hcreate as (p' & Hp' & Hnew & Hkey & ->).
  rewrite Hpk in Hp'. injection Hp' as <-.
  destruct Hsame as (Hent & Hvers & _ & Hseqe & Hseqv).
  unfold snapshots. rewrite Hvers, Hent, Hseqe, Hseqv. clear Hvers Hent Hseqe Hseqv.
  assert (Hbnew : Versioned.belongs e new).
  { rewrite Hnew. unfold Versioned.belongs. simpl. by rewrite Hpk. }
  assert (Hpknew : v_pk new = seq_version db) by by rewrite Hnew.
  assert (Hsnew : v_sequential new = Z.of_nat (length ts) + 1)
    by by rewrite Hnew.
  assert (Hpnew : v_period new = (Some now, None))
    by (by rewrite Hnew; simpl; rewrite Hmod).
  assert (Hnd1 : NoDup (v_pk <$> (versions db ++ [new]))).
  { rewrite fmap_app. apply NoDup_app. split; [done|]. split; [|apply NoDup_singleton].
    intros x (v & -> & Hv)%list_elem_of_fmap [Heq|[]%elem_of_nil]%elem_of_cons.
    apply Hpks in Hv. lia. }
  assert (Hpks1 : ∀ v, v ∈ versions db ++ [new] → v_pk v < seq_version db + 1).
  { intros v [Hv|[->|[]%elem_of_nil]%elem_of_cons]%elem_of_app; [|lia].
    apply Hpks in Hv. lia. }
  assert (Hlen : length (ts ++ [now]) = S (length ts))
    by (rewrite length_app; simpl; lia).
  rewrite Hlen.
  destruct ts as [|t0 ts0] using rev_ind.
  - (* the first snapshot *)
    simpl in Hversion. rewrite Hversion in Hold. simpl in Hold. subst db2.
    simpl. split_and!; try done.
    + rewrite filter_app. fold (snapshots e db).
      destruct (snapshots e db); [|done]. simpl.
      rewrite filter_cons_True by done. simpl. by rewrite Hsnew.
    + rewrite filter_app. fold (snapshots e db).
      destruct (snapshots e db); [|done]. simpl.
      rewrite filter_cons_True by done. simpl. by rewrite Hpnew.
  - (* a later snapshot: the one before is closed *)
    clear IHts0. rewrite length_app in *. simpl in *.
    replace (length ts0 + 1)%nat with (S (length ts0)) in * by lia.
    replace (1 <? version e) with true in Hold by lia.
    destruct Hold as (old & old' & Hload & Hclose).
    apply sequential_snoc in Hseq as Hsnoc.
    destruct Hsnoc as (h & cur & Hhist & Hh & Hcur).
    assert (Hfilter : filter (Versioned.belongs e) (versions db ++ [new])
                      = h ++ [cur; new]).
    { rewrite filter_app. fold (snapshots e db). rewrite Hhist.
      rewrite filter_cons_True by done. by rewrite <- app_assoc. }
    assert (Hseq1 : v_sequential <$> h ++ [cur; new]
                    = seqZ 1 (Z.of_nat (S (S (length ts0))))).
    { rewrite (seqZ_S _ (S _)), (seqZ_S _ (length ts0)).
      rewrite fmap_app, Hh. simpl. rewrite <- app_assoc. simpl.
      repeat f_equal; lia. }
    assert (old = cur) as ->.
    { unfold Versioned.load_version, Versioned.versions_of in Hload.
      simpl in Hload. rewrite Hfilter in Hload.
      rewrite (order_by_sequential_seqZ _ _ _ Hseq1) in Hload.
      rewrite head_filter_sequential in Hload; [congruence| |lia].
      intros v Hv Hv'.
      assert (v_sequential v ∈ seqZ 1 (Z.of_nat (length ts0))) as Hin.
      { rewrite <- Hh. apply list_elem_of_fmap. eauto. }
      apply elem_of_seqZ in Hin. lia. }
    apply Version_close_period_ok in Hclose as (Hold' & ->).
    simpl. rewrite Hpnew in Hold'. simpl in Hold'.
    assert (Hpk' : v_pk old' = v_pk cur) by by rewrite Hold'.
    assert (Hcur_in : cur ∈ versions db).
    { assert (cur ∈ snapshots e db) as Hin.
      { rewrite Hhist. apply elem_of_app. right. by left. }
      by apply list_elem_of_filter in Hin as [_ ?]. }
    assert (Hbcur : Versioned.belongs e cur).
    { assert (cur ∈ snapshots e db) as Hin.
      { rewrite Hhist. apply elem_of_app. right. by left. }
      by apply list_elem_of_filter in Hin as [? _]. }
    assert (Hbold' : Versioned.belongs e old') by by rewrite Hold'.
    assert (Hh_pk : ∀ v, v ∈ h → v_pk v ≠ v_pk old').
    { intros v Hv Hvpk.
      assert (Hndh : NoDup (v_pk <$> snapshots e db)).
      { assert (Hsub : v_pk <$> snapshots e db `sublist_of` v_pk <$> versions db)
          by (apply fmap_sublist; unfold snapshots; apply sublist_filter).
        exact (sublist_NoDup _ _ Hnd Hsub). }
      rewrite Hhist, fmap_app in Hndh. apply NoDup_app in Hndh as (_ & Hdis & _).
      apply (Hdis (v_pk v)); [apply list_elem_of_fmap; eauto|].
      rewrite Hvpk, Hpk'. by left. }
    assert (Hsnap : filter (Versioned.belongs e)
                      (replaced old' (versions db ++ [new]))
                    = h ++ [old'; new]).
    { rewrite filter_replaced.
      2:{ intros r [Hr|[->|[]%elem_of_nil]%elem_of_cons]%elem_of_app Hrpk.
          - assert (r = cur) as ->
              by (apply (NoDup_pk_eq (versions db)); [done|done|done|congruence]).
            tauto.
          - apply Hpks in Hcur_in. lia. }
      rewrite Hfilter. rewrite (replaced_app _ h [cur; new]).
      rewrite (replaced_other _ h) by done.
      change [cur; new] with ([cur] ++ [new]). rewrite replaced_app.
      rewrite (replaced_same _ cur) by done.
      rewrite (replaced_other _ [new]); [done|].
      intros v [->|[]%elem_of_nil]%elem_of_cons. apply Hpks in Hcur_in. lia. }
    split_and!; try done.
    + intros v Hv.
      assert (v_pk v ∈ v_pk <$> replaced old' (versions db ++ [new])) as Hin
        by (apply list_elem_of_fmap; eauto).
      rewrite fmap_pk_replaced in Hin.
      apply list_elem_of_fmap in Hin as (w & Heq & Hw). rewrite Heq. auto.
    + by rewrite fmap_pk_replaced.
    + rewrite Hsnap, <- Hseq1, !fmap_app. simpl. by rewrite Hold'.
    + rewrite Hsnap.
      destruct (periods_snoc ts0 t0 now) as (closed & Hp1 & Hp2).
      rewrite <- app_assoc. simpl. rewrite Hp2.
      unfold snapshots in Hper. fold (snapshots e db) in Hper.
      rewrite Hhist, Hp1, fmap_app in Hper. simpl in Hper.
      apply app_inj_tail in Hper as [Hclosed Hlast].
      rewrite fmap_app, Hclosed. simpl. rewrite Hpnew, Hold'. simpl.
      by rewrite Hlast.
Qed.
End history.

Section saves.
Context `{Collaborators}.

Lemma snapshots_set_entities e l n db :
  snapshots e (set_entities l n db) = snapshots e db.
Proof. done. Qed.

(** The first save of a new instance. *)
Lemma save_first env attrs db e db' :
  well_formed db → pk attrs = None →
  Versioned.save env (Versioned.__init__ attrs) db = (inr e, db') →
  saved [utcnow env] e db'.
Proof.
  intros Hwf Hattrs Hsave.
  set (e0 := Versioned.__init__ attrs) in *.
  assert (He0 : pk e0 = None ∧ version e0 = 1).
  { unfold e0, Versioned.__init__, Versioned.prepared,
      Versioned.lock_version, Versioned.pk_truthy. simpl.
    by rewrite Hattrs. }
  destruct He0 as [Hpk0 Hv0].
  apply save_ok in Hsave as (locked & e2 & db1 & _ & _ & Hsuper & Hstore & ->).
  destruct (stamped_same env e0) as (Hc & Hp & Hv & _ & _ & _).
  fold (stamped env e0) in Hsuper.
  apply super_save_ok in Hsuper as [(_ & -> & ->)|(p & Hp' & _)];
    [|congruence].
  set (p := seq_entity db) in *.
  set (e2 := set_pk (Some p) (stamped env e0)) in *.
  assert (Hp0 : 0 < p) by apply Hwf.
  assert (Hsnap : snapshots e2 db = []).
  { unfold snapshots. apply filter_none.
    intros v Hv' [_ Hb]. simpl in Hb. injection Hb as Hb.
    apply (wf_model_pks _ Hwf) in Hv'. fold p in Hv'. lia. }
  eapply (store_version_history env e2 _ _ [] p (utcnow env)) in Hstore
    as (Hpks & Hnd & Hseq & Hper & Hent & Hseqe).
  2: done. 2: apply stamped_modified_at.
  2: (unfold e2; simpl; rewrite Hv; exact Hv0).
  2: apply Hwf. 2: apply Hwf.
  2: by rewrite snapshots_set_entities, Hsnap.
  2: by rewrite snapshots_set_entities, Hsnap.
  rewrite (lock_version_saved e2 p) by done.
  split; try done.
  - simpl. eauto.
  - simpl. by rewrite Hv, Hv0.
  - rewrite Hent. simpl. exists (Versioned.row_of e2).
    split; [|done]. apply elem_of_app. right. by left.
  - rewrite Hent. simpl.
    intros r [Hr|[->|[]%elem_of_nil]%elem_of_cons]%elem_of_app _ Hr'; [|done].
    apply (wf_entities _ Hwf) in Hr as (q & Hq & Hlt). fold p in Hlt.
    rewrite Hq in Hr'. injection Hr' as ->. lia.
Qed.

(** A later save, after one increment of the version. *)
Lemma save_next env ts e e1 db e' db' :
  saved ts e db →
  __class__ e1 = __class__ e → pk e1 = pk e →
  version e1 = version e + 1 → _locked_version e1 = _locked_version e →
  Versioned.save env e1 db = (inr e', db') →
  saved (ts ++ [utcnow env]) e' db'.
Proof.
  intros Hs Hc1 Hp1 Hv1 Hl1 Hsave.
  destruct (saved_pk _ _ _ Hs) as (p & Hpk & Hp0).
  apply save_ok in Hsave as (locked & e2 & db1 & _ & _ & Hsuper & Hstore & ->).
  destruct (stamped_same env e1) as (Hc & Hp & Hv & _ & _ & _).
  fold (stamped env e1) in Hsuper.
  apply super_save_ok in Hsuper as [(Hnone & _)|(p' & Hp' & -> & ->)];
    [congruence|].
  set (e2 := stamped env e1) in *.
  assert (p' = p) as -> by congruence.
  assert (Hpk2 : pk e2 = Some p) by congruence.
  assert (Hsnap : snapshots e2 db = snapshots e db)
    by (apply snapshots_ext; congruence).
  eapply (store_version_history env e2 _ _ ts p (utcnow env)) in Hstore
    as (Hpks & Hnd & Hseq & Hper & Hent & Hseqe).
  2: done. 2: apply stamped_modified_at.
  2: rewrite Hv, Hv1; apply Z.add_cancel_r, Hs.
  2: apply Hs. 2: apply Hs.
  2: rewrite snapshots_set_entities, Hsnap; apply Hs.
  2: rewrite snapshots_set_entities, Hsnap; apply Hs.
  rewrite (lock_version_saved e2 p) by done.
  split; try done.
  - by destruct ts.
  - simpl. eauto.
  - simpl. rewrite length_app. simpl. rewrite Hv, Hv1, (saved_version _ _ _ Hs).
    lia.
  - rewrite Hent. simpl.
    destruct (saved_row _ _ _ Hs) as (r & Hr & Hrc & Hrp).
    exists (Versioned.row_of e2). split; [|done].
    apply list_elem_of_fmap. exists r. split; [|done].
    rewrite decide_True; [done|]. split; congruence.
  - rewrite Hent. simpl.
    intros r' (r & -> & Hr)%list_elem_of_fmap.
    case_decide as Hsame; [done|].
    intros Hrc Hrp. destruct Hsame. split; congruence.
Qed.

(** Loading a saved instance again gives the instance back. *)
Lemma get_saved ts e db p :
  saved ts e db → pk e = Some p →
  Versioned.get (__class__ e) p db = (inr e, db).
Proof.
  intros Hs Hpk. unfold Versioned.get, bind, get_db. simpl.
  destruct (saved_row _ _ _ Hs) as (r & Hr & Hrc & Hrp).
  match goal with |- context [head ?l] => set (rows := l) end.
  assert (Hrows : ∀ x, x ∈ rows → x = Versioned.row_of e).
  { intros x [[Hc Hp] Hin]%list_elem_of_filter.
    apply (saved_rows _ _ _ Hs x Hin Hc). congruence. }
  assert (Hin : r ∈ rows).
  { apply list_elem_of_filter. split; [split; congruence|done]. }
  destruct rows as [|row rows']; [by apply elem_of_nil in Hin|].
  rewrite (Hrows row) by by left. simpl.
  unfold ret. f_equal. f_equal.
  destruct (saved_pk _ _ _ Hs) as (q & Hq & Hq0).
  unfold Versioned.fetched, Versioned.prepared.
  rewrite (lock_version_saved _ q) by done.
  pose proof (saved_locked _ _ _ Hs) as Hlocked.
  destruct e. simpl in *. by rewrite Hlocked.
Qed.

Lemma save_again_saved steps ts e db e' db' :
  saved ts e db → save_again steps e db = (inr e', db') →
  saved (ts ++ ((λ s, utcnow (edit_env s)) <$> steps)) e' db'.
Proof.
  revert ts e db. induction steps as [|step steps IH]; intros ts e db Hs.
  - simpl. intros [= <- <-]. by rewrite app_nil_r.
  - simpl. intros (e0 & db0 & Hload & Hrest)%bind_inr.
    assert (e0 = e ∧ db0 = db) as [-> ->].
    { destruct (reload step); [|by injection Hload as <- <-].
      destruct (saved_pk _ _ _ Hs) as (p & Hp & _). rewrite Hp in Hload.
      rewrite (get_saved _ _ _ _ Hs Hp) in Hload. by injection Hload as <- <-. }
    apply bind_inr in Hrest as (e1 & db1 & Hsave & Hrest).
    apply (save_next _ ts e _ db e1 db1 Hs) in Hsave; [|done..].
    apply (IH _ _ _ Hsave) in Hrest. by rewrite <- app_assoc in Hrest.
Qed.
End saves.

Lemma saved_period ts e db i a :
  saved ts e db → Versioned.versions_of e db !! i = Some a →
  ∃ t, ts !! i = Some t ∧ v_period a = (Some t, ts !! S i).
Proof.
  intros Hs Ha. rewrite (versions_of_saved _ _ _ Hs) in Ha.
  assert (Hp : periods ts !! i = Some (v_period a)).
  { rewrite <- (saved_periods _ _ _ Hs), list_lookup_fmap, Ha. done. }
  destruct (ts !! i) as [t|] eqn:Ht.
  - exists t. split; [done|]. rewrite (periods_lookup _ _ _ Ht) in Hp. congruence.
  - apply lookup_ge_None in Ht. apply lookup_lt_Some in Hp.
    rewrite length_periods in Hp. lia.
Qed.


(** * The properties of the specification *)

(** ** Optimistic concurrency *)

(** C1. A save of an instance whose version is not its locked baseline
    plus one fails with [ForcedVersionError] before anything is written:
    the block under [atomic()] itself hands back the database it was
    given, so the row of the entity, the snapshots and every other table
    are the ones from before the call. *)
Theorem save_wrong_version_fails `{Collaborators} env e db locked :
  Versioned.locked_version e = Some locked →
  version e ≠ locked + 1 →
  let error :=
    ForcedVersionError ("wrong version number: " +:+ pretty (version e)) in
  Versioned.save_block env e db = (inl error, db)
  ∧ Versioned.save env e db = (inl error, db)
  ∧ length (versions (Versioned.save env e db).2) = length (versions db).
Proof.
  intros Hlocked Hversion error.
  assert (Hblock : Versioned.save_block env e db = (inl error, db)).
  { unfold Versioned.save_block, Versioned.check_version, bind.
    rewrite Hlocked. by rewrite bool_decide_eq_false_2. }
  assert (Hsave : Versioned.save env e db = (inl error, db)).
  { unfold Versioned.save, atomic. by rewrite Hblock. }
  by rewrite Hsave.
Qed.

(** C1, on an instance loaded at version 1 whose version was incremented
    twice. *)
Lemma save_wrong_version_fails_witness :
  let e := Versioned.increment_version
             (Versioned.increment_version
                (Versioned.fetched
                   (set_pk (Some 1) (Example.municipality "E" "old" "A")))) in
  Versioned.save (H := Example.world) (Example.env_at 100) e Example.empty
  = (inl (ForcedVersionError "wrong version number: 3"), Example.empty).
Proof.
  intros e.
  pose proof (save_wrong_version_fails (H := Example.world)
                (Example.env_at 100) e Example.empty 1) as Hthm.
  assert (Hlocked : Versioned.locked_version e = Some 1)
    by (vm_compute; reflexivity).
  assert (Hversion : version e ≠ 1 + 1) by (vm_compute; discriminate).
  destruct (Hthm Hlocked Hversion) as (_ & Hsave & _).
  vm_compute in Hsave. vm_compute. exact Hsave.
Defined.

(** Whatever makes a save fail, the database is the one from before. *)
Lemma save_failure_writes_nothing `{Collaborators} env e db error db' :
  Versioned.save env e db = (inl error, db') → db' = db.
Proof.
  unfold Versioned.save. intros Hsave.
  by apply (proj1 (atomic_inl _ _ _ _)) in Hsave as [-> _].
Qed.

(** The scenario of [test_save_should_be_rollbacked_if_version_save_fails]:
    a municipality is created, its version incremented and a snapshot
    stored by hand; the save that follows passes the version check and
    writes the row, then fails on the unique index of the snapshots, and
    the two snapshots are all there is afterwards. *)
Example save_rolled_back_when_snapshot_exists :
  match Versioned.save (H := Example.world) (Example.env_at 100)
          (Versioned.__init__ (Example.municipality "E" "old" "A"))
          Example.empty with
  | (inr e, db) =>
      let e := Versioned.increment_version e in
      let db := Example.after
                  (Versioned.store_version (H := Example.world)
                     (Example.env_at 150) e) db in
      length (versions db) = 2%nat
      ∧ Versioned.save (H := Example.world) (Example.env_at 200) e db
        = (inl IntegrityError, db)
  | (inl _, _) => False
  end.
Proof. vm_compute. done. Qed.

(** The scenario of [test_get_model_locks_version]: a municipality
    loaded from its table has baseline 1. *)
Example get_model_locks_version :
  match Versioned.save (H := Example.world) (Example.env_at 100)
          (Versioned.__init__ (Example.municipality "E" "old" "A"))
          Example.empty with
  | (inr e, db) =>
      match pk e with
      | Some p =>
          match Versioned.get Example.Municipality p db with
          | (inr loaded, _) => _locked_version loaded = Some 1
          | (inl _, _) => False
          end
      | None => False
      end
  | (inl _, _) => False
  end.
Proof. vm_compute. done. Qed.

(** ** History *)

(** C2. A new instance is constructed at version 1 with baseline 0 and
    saved; before every further save the caller increments the version
    once (and may load the instance again and set the fields of the
    model).  If all N saves succeed, on a store whose sequences and
    primary keys are in order, then the instance and its row are at
    version N, and the history query returns N snapshots with sequence
    numbers 1 to N in this order; each snapshot's period ends where the
    next one begins, the last snapshot is the only one whose period is
    open, and when the clock never ran backwards an earlier period ends
    no later than a later one begins. *)
Theorem saves_build_the_history `{Collaborators} attrs env steps db0 e db :
  well_formed db0 → pk attrs = None →
  save_sequence attrs env steps db0 = (inr e, db) →
  let ts := utcnow env :: ((λ s, utcnow (edit_env s)) <$> steps) in
  let N := S (length steps) in
  let history := Versioned.versions_of e db in
  version e = Z.of_nat N
  ∧ (∃ row, row ∈ entities db ∧ __class__ row = __class__ e ∧ pk row = pk e)
  ∧ (∀ row, row ∈ entities db → __class__ row = __class__ e →
            pk row = pk e → version row = Z.of_nat N)
  ∧ v_sequential <$> history = seqZ 1 (Z.of_nat N)
  ∧ length history = N
  ∧ v_period <$> history = periods ts
  ∧ (∀ i a b, history !! i = Some a → history !! S i = Some b →
       ∃ t, (v_period a).2 = Some t ∧ (v_period b).1 = Some t)
  ∧ (∃ a, history !! length steps = Some a ∧ (v_period a).2 = None
          ∧ ∀ j b, history !! j = Some b → (v_period b).2 = None →
                   j = length steps)
  ∧ (clock_monotone ts →
     ∀ i j a b, (i < j)%nat → history !! i = Some a → history !! j = Some b →
       ∃ hi lo, (v_period a).2 = Some hi ∧ (v_period b).1 = Some lo
                ∧ hi ≤ lo).
Proof.
  intros Hwf Hattrs Hrun ts N history.
  unfold save_sequence in Hrun.
  apply bind_inr in Hrun as (e1 & db1 & Hfirst & Hrest).
  apply (save_first _ _ _ _ _ Hwf Hattrs) in Hfirst.
  apply (save_again_saved _ _ _ _ _ _ Hfirst) in Hrest.
  change ([utcnow env] ++ ((λ s, utcnow (edit_env s)) <$> steps)) with ts in Hrest.
  assert (Hlen : length ts = N) by (unfold ts, N; simpl; by rewrite length_fmap).
  assert (Hhist : history = snapshots e db) by by eapply versions_of_saved.
  assert (Hseq : v_sequential <$> history = seqZ 1 (Z.of_nat N)).
  { rewrite Hhist, <- Hlen. apply Hrest. }
  assert (Hhlen : length history = N).
  { rewrite <- (length_fmap v_sequential), Hseq, length_seqZ. lia. }
  split_and!.
  - rewrite <- Hlen. apply Hrest.
  - apply Hrest.
  - intros row Hrow Hc Hp.
    rewrite (saved_rows _ _ _ Hrest row Hrow Hc Hp). simpl.
    rewrite <- Hlen. apply Hrest.
  - done.
  - done.
  - rewrite Hhist. apply Hrest.
  - intros i a b Ha Hb.
    destruct (saved_period _ _ _ _ _ Hrest Ha) as (ta & Hta & Hpa).
    destruct (saved_period _ _ _ _ _ Hrest Hb) as (tb & Htb & Hpb).
    exists tb. rewrite Hpa, Hpb. split; [exact Htb|done].
  - destruct (lookup_lt_is_Some_2 history (length steps)) as [a Ha];
      [rewrite Hhlen; unfold N; lia|].
    exists a. split; [done|].
    destruct (saved_period _ _ _ _ _ Hrest Ha) as (ta & Hta & Hpa).
    split.
    + rewrite Hpa. apply (lookup_ge_None_2 ts). rewrite Hlen. unfold N. lia.
    + intros j b Hb Hopen.
      destruct (saved_period _ _ _ _ _ Hrest Hb) as (tb & Htb & Hpb).
      rewrite Hpb in Hopen.
      apply (lookup_ge_None_1 ts) in Hopen. apply lookup_lt_Some in Htb.
      rewrite Hlen in *. unfold N in *. lia.
  - intros Hclock i j a b Hij Ha Hb.
    destruct (saved_period _ _ _ _ _ Hrest Ha) as (ta & Hta & Hpa).
    destruct (saved_period _ _ _ _ _ Hrest Hb) as (tb & Htb & Hpb).
    destruct (lookup_lt_is_Some_2 ts (S i)) as [hi Hhi].
    { apply lookup_lt_Some in Htb. lia. }
    exists hi, tb. rewrite Hpa, Hpb. split_and!; [exact Hhi|done|].
    apply (Hclock (S i) j); [lia|done|done].
Qed.

(** The empty database of the examples is in order. *)
Lemma empty_well_formed : well_formed Example.empty.
Proof.
  split; simpl; [lia|by intros ? ?%elem_of_nil..|apply NoDup_nil_2].
Qed.

(** C2, on a municipality saved three times, at the times 100, 200 and
    300, the last time on the instance loaded again. *)
Lemma saves_build_the_history_witness :
  match save_sequence (H := Example.world)
          (Example.municipality "E" "old" "A") (Example.env_at 100)
          [Example.edit (Example.env_at 200) (Example.insee_name "new" "A");
           Example.reloaded (Example.env_at 300)
                            (Example.insee_name "new" "B")]
          Example.empty with
  | (inr e, db) =>
      version e = 3
      ∧ v_sequential <$> Versioned.versions_of e db = [1; 2; 3]
      ∧ v_period <$> Versioned.versions_of e db
        = [(Some 100, Some 200); (Some 200, Some 300); (Some 300, None)]
  | (inl _, _) => False
  end.
Proof.
  destruct (save_sequence (H := Example.world)
              (Example.municipality "E" "old" "A") (Example.env_at 100)
              [Example.edit (Example.env_at 200)
                            (Example.insee_name "new" "A");
               Example.reloaded (Example.env_at 300)
                                (Example.insee_name "new" "B")]
              Example.empty)
    as [[error|e] db] eqn:Hrun; [vm_compute in Hrun; discriminate|].
  destruct (saves_build_the_history (H := Example.world)
              (Example.municipality "E" "old" "A") _ _ _ _ _
              empty_well_formed eq_refl Hrun)
    as (Hversion & _ & _ & Hseq & _ & Hperiods & _).
  split_and!; [exact Hversion|exact Hseq|exact Hperiods].
Defined.

(** ** Provenance *)

Section provenance.
Context `{Collaborators}.

Lemma stamped_meta env e :
created_at (stamped env e) = Some (default (utcnow env) (created_at e))
∧ (∀ s, session env = Some s →
        created_by (stamped env e) = Some (default s (created_by e))
        ∧ modified_by (stamped env e) = Some s)
∧ (session env = None →
     created_by (stamped env e) = created_by e
     ∧ modified_by (stamped env e) = modified_by e).
Proof.
unfold stamped, Versioned.set_source_kind_from_creator,
  Versioned.update_meta.
destruct e as [? ? ? ? [t|] [c|] ? ? ? ? ?], (session env) as [s|];
  simpl; split_and!; try done;
  try (by intros ? [= <-]); try (by intros ? [=]); by intros [=].
Qed.

Lemma store_version_entities env e db db' :
Versioned.store_version env e db = (inr tt, db') →
entities db' = entities db.
Proof.
intros (new & db1 & db2 & Hcreate & Hold & Hsame & _)%store_version_ok.
apply Version_create_ok in Hcreate as (p & _ & _ & _ & ->).
rewrite Hsame. destruct (1 <? version e); [|by subst db2].
destruct Hold as (old & old' & _ & Hclose).
by apply Version_close_period_ok in Hclose as (_ & ->).
Qed.

(** C7. After a save that succeeds, [modified_at] is the clock reading
  of the save; [created_at] is that reading if it was unset and is
  kept otherwise; with a session in the context, [created_by] is that
  session if it was unset and is kept otherwise, and [modified_by] is
  that session (without a session neither is touched).  The row
  written for the instance carries the same four values. *)
Theorem save_stamps_metadata env e db e' db' :
Versioned.save env e db = (inr e', db') →
modified_at e' = Some (utcnow env)
∧ created_at e' = Some (default (utcnow env) (created_at e))
∧ (∀ s, session env = Some s →
        created_by e' = Some (default s (created_by e))
        ∧ modified_by e' = Some s)
∧ (session env = None →
     created_by e' = created_by e ∧ modified_by e' = modified_by e)
∧ ((∀ p, pk e = Some p → ∃ r, r ∈ entities db ∧ Versioned.same_row e p r) →
   ∃ row, row ∈ entities db'
          ∧ __class__ row = __class__ e' ∧ pk row = pk e'
          ∧ modified_at row = modified_at e'
          ∧ created_at row = created_at e'
          ∧ created_by row = created_by e'
          ∧ modified_by row = modified_by e').
Proof.
intros Hsave.
apply save_ok in Hsave as (locked & e2 & db1 & _ & _ & Hsuper & Hstore & ->).
fold (stamped env e) in Hsuper.
destruct (stamped_meta env e) as (Hca & Hby & Hnone).
pose proof (stamped_modified_at env e) as Hma.
destruct (stamped_same env e) as (Hc & Hp & _).
apply store_version_entities in Hstore.
assert (Hlock : ∀ x, modified_at (Versioned.lock_version x) = modified_at x
                     ∧ created_at (Versioned.lock_version x) = created_at x
                     ∧ created_by (Versioned.lock_version x) = created_by x
                     ∧ modified_by (Versioned.lock_version x) = modified_by x
                     ∧ __class__ (Versioned.lock_version x) = __class__ x
                     ∧ pk (Versioned.lock_version x) = pk x).
{ intros x. unfold Versioned.lock_version. by destruct (negb _). }
destruct (Hlock e2) as (-> & -> & -> & -> & -> & ->).
apply super_save_ok in Hsuper as [(Hpk & -> & ->)|(p & Hpk & -> & ->)];
  simpl; (split_and!; [done|done|done|done|]); rewrite Hstore; simpl.
- intros _. exists (Versioned.row_of (set_pk (Some (seq_entity db)) (stamped env e))).
  split; [|done]. apply elem_of_app. right. by left.
- intros Hrow. rewrite Hp in Hpk. destruct (Hrow p Hpk) as (r & Hr & Hsame).
  exists (Versioned.row_of (stamped env e)). split; [|done].
  apply list_elem_of_fmap. exists r. split; [|done].
  rewrite decide_True; [done|]. destruct Hsame. split; congruence.
Qed.
End provenance.

(** C7, on a municipality saved for the first time by alice at time 100
    and again by bob at time 200. *)
Lemma save_stamps_metadata_witness :
  match Versioned.save (H := Example.world)
          (Example.env_of (Some Example.alice) 100)
          (Versioned.__init__ (Example.municipality "E" "old" "A"))
          Example.empty with
  | (inr e1, db1) =>
      match Versioned.save (H := Example.world)
              (Example.env_of (Some Example.bob) 200)
              (Versioned.increment_version e1) db1 with
      | (inr e2, _) =>
          modified_at e2 = Some 200 ∧ created_at e2 = Some 100
          ∧ created_by e2 = Some Example.alice
          ∧ modified_by e2 = Some Example.bob
      | (inl _, _) => False
      end
  | (inl _, _) => False
  end.
Proof.
  destruct (Versioned.save (H := Example.world)
              (Example.env_of (Some Example.alice) 100)
              (Versioned.__init__ (Example.municipality "E" "old" "A"))
              Example.empty)
    as [[error|e1] db1] eqn:Hfirst; [vm_compute in Hfirst; discriminate|].
  destruct (Versioned.save (H := Example.world)
              (Example.env_of (Some Example.bob) 200)
              (Versioned.increment_version e1) db1)
    as [[error|e2] db2] eqn:Hsecond.
  { exfalso. revert Hsecond. vm_compute in Hfirst.
    injection Hfirst as <- <-. vm_compute. discriminate. }
  destruct (save_stamps_metadata (H := Example.world) _ _ _ _ _ Hfirst)
    as (_ & Hca1 & Hby1 & _).
  destruct (Hby1 Example.alice eq_refl) as (Hcb1 & _).
  destruct (save_stamps_metadata (H := Example.world) _ _ _ _ _ Hsecond)
    as (Hma & Hca & Hby & _).
  destruct (Hby Example.bob eq_refl) as (Hcb & Hmb).
  split_and!.
  - exact Hma.
  - rewrite Hca. change (created_at (Versioned.increment_version e1))
      with (created_at e1). rewrite Hca1. reflexivity.
  - rewrite Hcb. change (created_by (Versioned.increment_version e1))
      with (created_by e1). rewrite Hcb1. reflexivity.
  - exact Hmb.
Defined.

(** ** The locked baseline *)

(** C8, as the code has it.  A new instance without primary key has
    baseline 0 and version 1; an instance built from a row, as [get]
    returns it, has the version of the row as its baseline; on either,
    and on an instance that was just saved, setting [locked_version]
    raises [AssertionError]; and a save that succeeds moves the baseline
    to the version just saved. *)
Theorem baseline_is_kept_by_the_instance `{Collaborators} :
  (∀ attrs, pk attrs = None →
     Versioned.locked_version (Versioned.__init__ attrs) = Some 0
     ∧ version (Versioned.__init__ attrs) = 1)
  ∧ (∀ row p, pk row = Some p → p ≠ 0 →
       Versioned.locked_version (Versioned.fetched row) = Some (version row)
       ∧ version (Versioned.fetched row) = version row)
  ∧ (∀ model p db e db',
       p ≠ 0 → Versioned.get model p db = (inr e, db') →
       db' = db
       ∧ ∃ row, row ∈ entities db ∧ __class__ row = model
                ∧ pk row = Some p ∧ e = Versioned.fetched row
                ∧ Versioned.locked_version e = Some (version row))
  ∧ (∀ attrs value,
       Versioned.set_locked_version value (Versioned.__init__ attrs)
       = inl (AssertionError "locked_version is read only"))
  ∧ (∀ row value,
       Versioned.set_locked_version value (Versioned.fetched row)
       = inl (AssertionError "locked_version is read only"))
  ∧ (∀ env e db e' db' value,
       0 < seq_entity db → (∀ p, pk e = Some p → p ≠ 0) →
       Versioned.save env e db = (inr e', db') →
       Versioned.locked_version e' = Some (version e)
       ∧ version e' = version e
       ∧ Versioned.set_locked_version value e'
         = inl (AssertionError "locked_version is read only")).
Proof.
  split_and!.
  - intros attrs Hpk.
    unfold Versioned.__init__, Versioned.prepared, Versioned.lock_version,
      Versioned.pk_truthy. simpl. rewrite Hpk. simpl. by rewrite Hpk.
  - intros row p Hpk Hp.
    unfold Versioned.fetched, Versioned.prepared, Versioned.lock_version,
      Versioned.pk_truthy. simpl. rewrite Hpk.
    destruct (Z.eqb_spec p 0); [done|]. simpl. rewrite Hpk.
    by destruct (Z.eqb_spec p 0).
  - intros model p db e db' Hp. unfold Versioned.get, bind, get_db. simpl.
    match goal with |- context [head ?l] => set (rows := l) end.
    assert (Hrows : ∀ x, x ∈ rows → x ∈ entities db ∧ __class__ x = model
                                      ∧ pk x = Some p).
    { intros x [[Hc Hpk] Hin]%list_elem_of_filter. done. }
    destruct rows as [|row rows']; [discriminate|].
    intros [= <- <-]. split; [done|].
    destruct (Hrows row) as (Hin & Hc & Hpk); [by left|].
    exists row. split_and!; try done.
    unfold Versioned.fetched, Versioned.prepared, Versioned.lock_version,
      Versioned.pk_truthy, Versioned.locked_version. simpl. rewrite Hpk.
    destruct (Z.eqb_spec p 0); [done|]. simpl. rewrite Hpk.
    by destruct (Z.eqb_spec p 0).
  - done.
  - done.
  - intros env e db e' db' value Hseq Hpk Hsave.
    apply save_ok in Hsave as (locked & e2 & db1 & _ & _ & Hsuper & _ & ->).
    fold (stamped env e) in Hsuper.
    destruct (stamped_same env e) as (_ & Hp & Hv & _).
    assert (∃ p, pk e2 = Some p ∧ p ≠ 0 ∧ version e2 = version e)
      as (p & Hp2 & Hp0 & Hv2).
    { apply super_save_ok in Hsuper as [(_ & -> & _)|(p & Hpk' & -> & _)].
      - exists (seq_entity db). simpl. split_and!; [done|lia|done].
      - exists p. split_and!; [done| |done]. apply Hpk. congruence. }
    unfold Versioned.lock_version, Versioned.pk_truthy,
      Versioned.locked_version, Versioned.set_locked_version.
    rewrite Hp2. destruct (Z.eqb_spec p 0); [done|]. simpl. rewrite Hp2.
    destruct (Z.eqb_spec p 0); [done|]. by rewrite Hv2.
Qed.

(** C8 as stated fails: the baseline of one instance is set more than
    once, and without any failure.  A new municipality has baseline 0;
    saving it sets the baseline of that instance to 1, and incrementing
    and saving it again sets it to 2. *)
Lemma save_sets_the_baseline_again :
  let e0 := Versioned.__init__ (Example.municipality "E" "old" "A") in
  Versioned.locked_version e0 = Some 0
  ∧ match Versioned.save (H := Example.world) (Example.env_at 100) e0
            Example.empty with
    | (inr e1, db1) =>
        Versioned.locked_version e1 = Some 1
        ∧ match Versioned.save (H := Example.world) (Example.env_at 200)
                  (Versioned.increment_version e1) db1 with
          | (inr e2, _) => Versioned.locked_version e2 = Some 2
          | (inl _, _) => False
          end
    | (inl _, _) => False
    end.
Proof. vm_compute. done. Qed.

(** ** Lookup by identifier *)

(** C3. [coerce] on a value first looks the identifier up directly and
    returns the first row found without reading the redirects.  On a
    miss it reads the redirects recorded for the lowercased class name,
    the identifier and the text of the value: none re-raises
    [DoesNotExist], exactly one raises [RedirectError] with the id it
    points to, several raise [MultipleRedirectsError] with all their
    ids.  The database is left as it was in every case. *)
Theorem coerce_direct_then_redirects {R} `{PeeweeModel R}
    id identifier db field :
  let key := Version.resolve_identifier id identifier in
  cls_field key.1 = Some field →
  let direct := List.filter (field key.2) (raw_select db) in
  let targets :=
    r_model_id <$>
      filter (λ r, r_model_name r = lower cls_name
                   ∧ r_identifier r = key.1 ∧ r_value r = str key.2)
             (redirects db) in
  Version.coerce (inr id) identifier db
  = match direct with
    | instance :: _ => (inr instance, db)
    | [] =>
        match targets with
        | [] => (inl DoesNotExist, db)
        | [target] => (inl (RedirectError key.1 key.2 target), db)
        | _ => (inl (MultipleRedirectsError key.1 key.2 targets), db)
        end
    end.
Proof.
  intros key Hfield direct targets. unfold Version.coerce.
  fold key. destruct key as [identifier' id'] eqn:Hkey. simpl in *.
  rewrite Hfield. unfold bind, get_db. simpl. fold direct.
  destruct direct as [|instance ?]; [|done].
  unfold Redirect.follow, bind, get_db, ret. simpl. fold targets.
  by destruct targets as [|target [|? ?]].
Qed.

(** C3, on a table of snapshots: sequence 1 of the renamed municipality
    is found directly; with no such row, one redirect row, then two, the
    three failures follow. *)
Lemma coerce_direct_then_redirects_witness :
  let one := Redirect.mk "version" "sequential" "5" "42" in
  let two := Redirect.mk "version" "sequential" "5" "43" in
  match Version.coerce (R := VersionRow) (inr (VStr "sequential:1")) None
                       Example.renamed_E with
  | (inr v, _) => v_sequential v = 1
  | _ => False
  end
  ∧ (Version.coerce (R := VersionRow) (inr (VInt 5)) (Some "sequential")
                    Example.empty).1 = inl DoesNotExist
  ∧ (Version.coerce (R := VersionRow) (inr (VInt 5)) (Some "sequential")
                    (set_redirects [one] Example.empty)).1
    = inl (RedirectError "sequential" (VInt 5) "42")
  ∧ (Version.coerce (R := VersionRow) (inr (VInt 5)) (Some "sequential")
                    (set_redirects [one; two] Example.empty)).1
    = inl (MultipleRedirectsError "sequential" (VInt 5) ["42"; "43"]).
Proof.
  intros one two.
  erewrite !coerce_direct_then_redirects by (vm_compute; reflexivity).
  vm_compute. done.
Defined.

(** ** Diffs *)

(** C4. When [Diff.save] is given a record whose [diff] is not set, the
    record it returns carries the changes computed from the data of the
    two snapshots, an empty dict standing for a missing snapshot: a field
    has an entry if and only if its two sides differ (an absent side
    counting as a value of its own), the entry holds the two sides, and a
    new record is the last row of the table. *)
Theorem diff_holds_exactly_the_changed_fields env d db d' db' :
  Diff.diff_truthy d = false →
  Diff.save env d db = (inr d', db') →
  let old := Diff.data_of (d_old d) in
  let new := Diff.data_of (d_new d) in
  ∃ changes,
    d_diff d' = Some changes
    ∧ (d_pk d = None → diffs db' = diffs db ++ [d'])
    ∧ (∀ field, is_Some (changes !! field) ↔ old !! field ≠ new !! field)
    ∧ (∀ field change, changes !! field = Some change →
         change = (old !! field, new !! field)).
Proof.
  intros Hunset Hsave old new.
  apply Diff_save_ok in Hsave as (Hdiff & _ & _ & Hrow & _).
  unfold Diff.with_computed_diff in Hdiff. rewrite Hunset in Hdiff.
  simpl in Hdiff. fold old new in Hdiff.
  exists (make_diff old new). split_and!; [done|done|..].
  - intros field. unfold make_diff. rewrite lookup_merge.
    destruct (old !! field) as [o|] eqn:Ho, (new !! field) as [n|] eqn:Hn;
      simpl; try case_decide; split; intros Hx;
      try done; try (by eexists); try (by destruct Hx).
  - intros field change. unfold make_diff. rewrite lookup_merge.
    destruct (old !! field) as [o|] eqn:Ho, (new !! field) as [n|] eqn:Hn;
      simpl; try case_decide; congruence.
Qed.

(** C4, on the snapshots [{name: "A", code: "77"}] and
    [{name: "B", code: "77"}]: the diff has the entry of [name] and none
    for [code]. *)
Lemma diff_holds_exactly_the_changed_fields_witness :
  let snapshot n name :=
    {| v_pk := n; v_model_name := "municipality"; v_model_pk := 1;
       v_sequential := n;
       v_data := {[ "name" := VStr name; "code" := VStr "77" ]};
       v_period := (Some n, None) |} in
  let d := {| d_pk := None; d_old := Some (snapshot 1 "A");
              d_new := Some (snapshot 2 "B"); d_insee := "77316";
              d_diff := None; d_created_at := Some 2 |} in
  match Diff.save (Example.env_at 2) d Example.empty with
  | (inr d', _) =>
      ∃ changes,
        d_diff d' = Some changes
        ∧ changes !! "name" = Some (Some (VStr "A"), Some (VStr "B"))
        ∧ changes !! "code" = None
  | (inl _, _) => False
  end.
Proof.
  intros snapshot d.
  destruct (Diff.save (Example.env_at 2) d Example.empty)
    as [[error|d'] db'] eqn:Hsave; [vm_compute in Hsave; discriminate|].
  destruct (diff_holds_exactly_the_changed_fields (Example.env_at 2) d
              Example.empty d' db' eq_refl Hsave)
    as (changes & Hdiff & _ & Hiff & Hvalue).
  exists changes. split_and!; [exact Hdiff|..].
  - destruct (proj2 (Hiff "name")) as [change Hchange];
      [vm_compute; discriminate|].
    etrans; [exact Hchange|]. f_equal.
    etrans; [exact (Hvalue "name" change Hchange)|].
    vm_compute. reflexivity.
  - destruct (changes !! "code") as [change|] eqn:Hchange; [|reflexivity].
    exfalso. apply (proj1 (Hiff "code")); [by eexists|].
    vm_compute. reflexivity.
Defined.

(** ** Redirects *)

(** C5. A diff without an old or without a new snapshot (a creation or
    a deletion) leaves the redirect table alone, also when it is saved.
    For an update that [from_diff] works through, the model of the new
    snapshot is registered, and the redirect table afterwards holds, for
    every declared identifier that the changes show going from one
    non-empty value to another, the row from the old value to the id of
    the snapshot; every row of the table is one it had before, possibly
    pointed at that id, or one of these new rows; no other table is
    written. *)
Theorem from_diff_registers_renamed_identifiers env diff db :
  (d_old diff = None ∨ d_new diff = None →
     Redirect.from_diff env diff db = (inr tt, db)
     ∧ redirects (Diff.save env diff db).2 = redirects db)
  ∧ ∀ old new db',
      d_old diff = Some old → d_new diff = Some new →
      Redirect.from_diff env diff db = (inr tt, db') →
      ∃ model changes,
        registry env !! v_model_name new = Some model
        ∧ d_diff diff = Some changes
        ∧ only_redirects db db'
        ∧ (∀ i o, i ∈ identifiers model → renamed changes i o →
             ∃ model_id,
               v_data new !! "id" = Some model_id
               ∧ Redirect.mk (lower (__name__ model)) i (str o)
                             (str model_id) ∈ redirects db')
        ∧ (∀ r', r' ∈ redirects db' →
             (∃ r, r ∈ redirects db
                   ∧ (r' = r
                      ∨ ∃ model_id, v_data new !! "id" = Some model_id
                                    ∧ retargeted (str model_id) r r'))
             ∨ (∃ i o model_id,
                  i ∈ identifiers model ∧ renamed changes i o
                  ∧ v_data new !! "id" = Some model_id
                  ∧ r' = Redirect.mk (lower (__name__ model)) i (str o)
                                     (str model_id))).
Proof.
  split.
  - intros Hnone.
    assert (Hfrom : ∀ d db0, d_old d = d_old diff → d_new d = d_new diff →
              Redirect.from_diff env d db0 = (inr tt, db0)).
    { intros d db0 Ho Hn. unfold Redirect.from_diff. rewrite Ho, Hn.
      destruct Hnone as [-> | ->]; [by destruct (d_new diff)|done]. }
    split; [by apply Hfrom|].
    unfold Diff.save.
    destruct (Diff_super_save_spec (Diff.with_computed_diff diff) db)
      as (d1 & db1 & Hsave & _ & Hred & _ & Ho & Hn & _).
    unfold bind at 1. rewrite Hsave. unfold bind.
    rewrite Hfrom; [done|..].
    + rewrite Ho. unfold Diff.with_computed_diff. by destruct (negb _).
    + rewrite Hn. unfold Diff.with_computed_diff. by destruct (negb _).
  - intros old new db' Hold Hnew. unfold Redirect.from_diff.
    rewrite Hold, Hnew.
    destruct (registry env !! v_model_name new) as [model|]; [|discriminate].
    destruct (d_diff diff) as [changes|]; [|discriminate].
    set (l := filter (λ i, is_Some (changes !! i)) (identifiers model)).
    intros Hloop. exists model, changes.
    assert (Hl : ∀ i o, i ∈ identifiers model → renamed changes i o → i ∈ l).
    { intros i o Hi (n & Hc & _). apply list_elem_of_filter.
      split; [by eexists|done]. }
    assert (Hl' : ∀ i, i ∈ l → i ∈ identifiers model).
    { intros i Hi. by apply list_elem_of_filter in Hi as [_ ?]. }
    split_and!; [done|done|..].
    + pose proof (for_each_frame
                    (Redirect.from_diff_step env model new changes) l db
                    (from_diff_step_frame env model new changes)) as Hframe.
      by rewrite Hloop in Hframe.
    + intros i o Hi Hr.
      destruct (v_data new !! "id") as [model_id|] eqn:Hid.
      * exists model_id. split; [done|].
        eapply from_diff_loop_ok in Hloop as (Hrows & _); [|done].
        apply Hrows; eauto.
      * eapply from_diff_loop_no_id in Hloop as (_ & Hno); [|done].
        destruct (Hno i o); eauto.
    + intros r' Hr'.
      destruct (v_data new !! "id") as [model_id|] eqn:Hid.
      * eapply from_diff_loop_ok in Hloop as (_ & _ & Hall); [|done].
        destruct (Hall r' Hr') as [(r & Hr & Hrr')|(i & o & Hi & Hren & Heq)].
        -- left. exists r. split; [done|]. right. eauto.
        -- right. exists i, o, model_id. eauto.
      * eapply from_diff_loop_no_id in Hloop as (-> & _); [|done].
        left. eauto.
Qed.

(** The scenario of spec section 8 for redirects: renaming the INSEE
    code of E from "old" to "new" leaves one redirect, from "old" to
    E. *)
Example rename_registers_redirect :
  redirects Example.renamed_E
  = [Redirect.mk "municipality" "insee" "old" "E"]
  ∧ (Redirect.follow "Municipality" "insee" (VStr "old")
                     Example.renamed_E).1 = inr ["E"].
Proof. vm_compute. done. Qed.

(** C6, as the code has it.  When a redirect for [value] is registered
    and an entity [old] of that model holds [value] in that column at
    that moment, every redirect of the model that pointed at [old] points
    at the entity the new redirect is registered for, none keeps pointing
    at [old] (when the two entities differ), and the redirects of other
    entities stay as they are. *)
Theorem add_retargets_redirects_of_holder env instance identifier value
    db db' model old :
  Redirect.add env instance identifier value db = (inr tt, db') →
  registry env !! (add_target instance).1 = Some model →
  Redirect.first model identifier value db = Some old →
  let name := (add_target instance).1 in
  let current := str (add_target instance).2 in
  let previous := str (ban_id old) in
  (∀ r, r ∈ redirects db → r_model_name r = name →
        r_model_id r = previous →
        Redirect.mk name (r_identifier r) (r_value r) current
          ∈ redirects db')
  ∧ (previous ≠ current →
       ∀ r', r' ∈ redirects db' →
             ¬ (r_model_name r' = name ∧ r_model_id r' = previous))
  ∧ (∀ r, r ∈ redirects db →
          ¬ (r_model_name r = name ∧ r_model_id r = previous) →
          r ∈ redirects db').
Proof.
  intros Hadd Hreg Hfirst name current previous.
  apply add_ok in Hadd. subst db'. simpl.
  assert (Hprop : propagation env name identifier value
                    (add_target instance).2 db
                  = Redirect.retarget name previous current).
  { unfold propagation, name. by rewrite Hreg, Hfirst. }
  fold name. rewrite Hprop. split_and!.
  - intros r Hr Hname Hid. apply list_elem_of_fmap. exists r.
    split; [|by apply inserted_incl].
    unfold Redirect.retarget. case_decide as Hcase; [by rewrite Hname|].
    by destruct Hcase.
  - intros Hne r' (r & -> & _)%list_elem_of_fmap.
    unfold Redirect.retarget. case_decide as Hr; simpl; [|tauto].
    intros [_ ?]. congruence.
  - intros r Hr Hother. apply list_elem_of_fmap. exists r.
    split; [|by apply inserted_incl].
    unfold Redirect.retarget. case_decide; [tauto|done].
Qed.

(** C6, on two municipalities: "a" redirects to B; then B is merged
    into C, whose instance registers B's code "b". *)
Lemma add_retargets_redirects_of_holder_witness :
  let B := set_pk (Some 1) (Example.municipality "B" "b" "B") in
  let C := set_pk (Some 2) (Example.municipality "C" "c" "C") in
  let db := set_redirects [Redirect.mk "municipality" "insee" "a" "B"]
              (set_entities [B; C] 3 Example.empty) in
  Redirect.mk "municipality" "insee" "a" "C"
    ∈ redirects (Example.after
                   (Redirect.add (Example.env_at 100) (inl C) "insee"
                                 (VStr "b")) db).
Proof.
  intros B C db.
  destruct (Redirect.add (Example.env_at 100) (inl C) "insee" (VStr "b") db)
    as [[error|[]] db'] eqn:Hadd; [vm_compute in Hadd; discriminate|].
  destruct (add_retargets_redirects_of_holder _ _ _ _ _ _
              Example.Municipality B Hadd
              ltac:(vm_compute; reflexivity)
              ltac:(vm_compute; reflexivity)) as (Hmoved & _ & _).
  unfold Example.after. rewrite Hadd.
  apply (Hmoved (Redirect.mk "municipality" "insee" "a" "B"));
    [|reflexivity|reflexivity].
  vm_compute. left.
Defined.

(** C6 as stated fails: the redirect of a value does not follow the
    value to the entity that adopts it.  Municipality E went from code
    "old" to "new", so "old" redirects to E.  F is then created with the
    code "old", and G is created with another code and renamed to "old":
    each save succeeds, and "old" still redirects to E alone. *)
Lemma adopted_value_still_redirects_to_first_holder :
  (Redirect.follow "Municipality" "insee" (VStr "old")
                   Example.renamed_E).1 = inr ["E"]
  ∧ match Versioned.save (H := Example.world) (Example.env_at 300)
            (Versioned.__init__ (Example.municipality "F" "old" "F"))
            Example.renamed_E with
    | (inr F, db) =>
        ban_id F = VStr "F" ∧ getattr F "insee" = VStr "old"
        ∧ (Redirect.follow "Municipality" "insee" (VStr "old") db).1
          = inr ["E"]
    | (inl _, _) => False
    end
  ∧ match save_sequence (H := Example.world)
            (Example.municipality "G" "g" "G") (Example.env_at 300)
            [Example.edit (Example.env_at 400)
                          (Example.insee_name "old" "G")]
            Example.renamed_E with
    | (inr G, db) =>
        ban_id G = VStr "G" ∧ getattr G "insee" = VStr "old"
        ∧ (Redirect.follow "Municipality" "insee" (VStr "old") db).1
          = inr ["E"]
        ∧ (Redirect.follow "Municipality" "insee" (VStr "g") db).1
          = inr ["G"]
    | (inl _, _) => False
    end.
Proof. vm_compute. done. Qed.

(** C9, as the code has it.  [Redirect.add] checks a redirect only when
    it is given a model instance: an identifier that is neither declared
    by the class nor ["id"] nor ["pk"], and a value that the instance
    holds in that attribute, each raise [ValueError] and write nothing.
    Given a pair of model name and id, as [from_diff] gives it, nothing
    is checked and the row is in the table afterwards. *)
Theorem add_validates_instances_only env identifier value db :
  (∀ e, identifier ∉ identifiers (__class__ e) ++ ["id"; "pk"] →
        Redirect.add env (inl e) identifier value db
        = (inl (ValueError ("Invalid identifier: " +:+ identifier)), db))
  ∧ (∀ e, identifier ∈ identifiers (__class__ e) ++ ["id"; "pk"] →
          getattr e identifier = value →
          Redirect.add env (inl e) identifier value db
          = (inl (ValueError "Redirect cannot point to itself"), db))
  ∧ (∀ model_name model_id,
       Redirect.mk model_name identifier (str value) (str model_id)
         ∈ redirects
             (Redirect.add env (inr (model_name, model_id)) identifier
                           value db).2).
Proof.
  split_and!.
  - intros e Hid. unfold Redirect.add, bind.
    by rewrite bool_decide_eq_true_2.
  - intros e Hid Hvalue. unfold Redirect.add, bind.
    rewrite bool_decide_eq_false_2 by (by intros ?).
    by rewrite bool_decide_eq_true_2.
  - intros model_name model_id. unfold Redirect.add.
    unfold bind at 1. simpl. unfold bind at 1.
    rewrite get_or_create_spec.
    set (row := Redirect.mk model_name identifier (str value) (str model_id)).
    set (db1 := set_redirects (inserted row (redirects db)) db).
    destruct (Redirect.propagate env model_name identifier value model_id db1)
      as [[error|[]] db2] eqn:Hprop.
    + apply propagate_raises in Hprop as ->. simpl. apply elem_of_inserted.
    + apply propagate_ok in Hprop as ->. simpl.
      apply list_elem_of_fmap. exists row. split; [|apply elem_of_inserted].
      by rewrite propagation_same_target.
Qed.

(** C9 as stated fails: redirects given as a pair are not checked.
    Municipality E holds the INSEE code "new"; a redirect of "new" to E
    itself is registered all the same, and so is one under the column
    "name", which the class does not declare as an identifier. *)
Lemma add_with_a_pair_is_not_validated :
  let env := Example.env_at 300 in
  let E := VStr "E" in
  Redirect.first Example.Municipality "insee" (VStr "new") Example.renamed_E
    ≫= (λ e, Some (ban_id e)) = Some E
  ∧ ("name" ∉ identifiers Example.Municipality ++ ["id"; "pk"])
  ∧ match Redirect.add env (inr ("municipality", E)) "insee" (VStr "new")
                       Example.renamed_E with
    | (inr _, db) =>
        redirects db = [Redirect.mk "municipality" "insee" "old" "E";
                        Redirect.mk "municipality" "insee" "new" "E"]
    | (inl _, _) => False
    end
  ∧ match Redirect.add env (inr ("municipality", E)) "name" (VStr "A")
                       Example.renamed_E with
    | (inr _, db) =>
        redirects db = [Redirect.mk "municipality" "insee" "old" "E";
                        Redirect.mk "municipality" "name" "A" "E"]
    | (inl _, _) => False
    end.
Proof.
  intros env E. split_and!.
  - vm_compute. reflexivity.
  - intros Hin. simpl in Hin.
    repeat (apply elem_of_cons in Hin as [[=]|Hin]).
    by apply elem_of_nil in Hin.
  - vm_compute. reflexivity.
  - vm_compute. reflexivity.
Qed.

(** ** Flags *)

Lemma filter_complement_all {A} (P : A → Prop) `{∀ x, Decision (P x)}
    (l : list A) :
  filter P l = [] → filter (λ x, ¬ P x) l = l.
Proof.
  induction l as [|x l IH]; [done|].
  destruct (decide (P x)) as [Hx|Hx].
  - by rewrite filter_cons_True.
  - rewrite filter_cons_False by done. intros Hl.
    rewrite filter_cons_True by done. by rewrite IH.
Qed.

Lemma filter_complement_none {A} (P : A → Prop) `{∀ x, Decision (P x)}
    (l : list A) :
  filter P (filter (λ x, ¬ P x) l) = [].
Proof.
  apply filter_none. intros x [Hx _]%list_elem_of_filter. done.
Qed.

Lemma length_filter_filter {A} (P Q : A → Prop) `{∀ x, Decision (P x)}
    `{∀ x, Decision (Q x)} (l : list A) :
  (length (filter P (filter Q l)) ≤ length (filter P l))%nat.
Proof.
  induction l as [|x l IH]; [done|].
  destruct (decide (Q x)), (decide (P x));
    repeat first [rewrite filter_cons_True by done
                 |rewrite filter_cons_False by done]; simpl; lia.
Qed.

Lemma where_snoc v c new n db :
  Flag.where_ v c (set_flags (flags db ++ [new]) n db)
  = Flag.where_ v c db
    ++ (if decide (f_version new = v_pk v
                   ∧ Some (f_client new) = client_pk <$> c)
        then [new] else []).
Proof.
  unfold Flag.where_. simpl. by rewrite filter_app.
Qed.

Section flags.
Context `{Collaborators}.

Lemma gate_open env s c (func : Session → M unit) :
may_flag env s c → contributor_type_required env func = func s.
Proof.
intros (Hs & Hc & Ht & Hv). unfold contributor_type_required.
rewrite Hs, Hc, Ht. simpl.
by rewrite bool_decide_eq_false_2.
Qed.

Lemma set_flags_id db : set_flags (flags db) (seq_flag db) db = db.
Proof. by destruct db. Qed.

(** C10. For a session that the decorator lets through, with client
  [c]: [flag] returns; called again for the same snapshot under any
  session of the same client it returns without writing; after [flag]
  the snapshot has exactly one flag of [c] if it had none, no flag of
  the table is lost, and a table without doubles has none afterwards.
  [unflag]
  returns, also when there is no flag to remove (the database is then
  the same); it removes the flags of [c] on this snapshot and keeps
  every flag of another client or another snapshot. *)
Theorem flags_once_per_client env1 env2 s1 s2 c v db :
may_flag env1 s1 c → may_flag env2 s2 c →
(∃ db1,
   Version.flag env1 v db = (inr tt, db1)
   ∧ Version.flag env2 v db1 = (inr tt, db1)
   ∧ (Flag.where_ v (Some c) db = [] →
        length (Flag.where_ v (Some c) db1) = 1%nat)
   ∧ (∀ f, f ∈ flags db → f ∈ flags db1)
   ∧ (flags_unique db → flags_unique db1))
∧ (∃ db2,
     Version.unflag env1 v db = (inr tt, db2)
     ∧ Flag.where_ v (Some c) db2 = []
     ∧ (∀ f, f ∈ flags db →
             f_version f ≠ v_pk v ∨ f_client f ≠ client_pk c →
             f ∈ flags db2)
     ∧ (∀ f, f ∈ flags db2 → f ∈ flags db)
     ∧ (Flag.where_ v (Some c) db = [] → db2 = db)
     ∧ (flags_unique db → flags_unique db2)).
Proof.
intros Hgate1 Hgate2.
assert (Hc1 : client s1 = Some c) by apply Hgate1.
assert (Hc2 : client s2 = Some c) by apply Hgate2.
split.
- unfold Version.flag. rewrite (gate_open _ _ _ _ Hgate1).
  rewrite (gate_open _ _ _ _ Hgate2). rewrite Hc1, Hc2.
  unfold bind at 1, get_db. simpl.
  set (new := {| f_pk := seq_flag db; f_version := v_pk v;
                 f_client := client_pk c; f_session := session_pk s1;
                 f_created_at := utcnow env1 |}).
  assert (Hnew : ∀ db0, Flag.where_ v (Some c)
                          (set_flags (flags db0 ++ [new]) (seq_flag db0 + 1) db0)
                        = Flag.where_ v (Some c) db0 ++ [new]).
  { intros db0. rewrite where_snoc. by rewrite decide_True. }
  destruct (Flag.where_ v (Some c) db) as [|f0 fs] eqn:Hwhere.
  + simpl. unfold Flag.create, bind, get_db, put_db. simpl. fold new.
    eexists. split; [reflexivity|]. split_and!.
    * by rewrite Hnew, Hwhere.
    * intros _. by rewrite Hnew, Hwhere.
    * intros f Hf. simpl. apply elem_of_app. by left.
    * intros Huniq v' c'. rewrite where_snoc, length_app.
      case_decide as Hsame; simpl; [|specialize (Huniq v' c'); lia].
      assert (Flag.where_ v' (Some c') db = Flag.where_ v (Some c) db)
        as ->; [|rewrite Hwhere; simpl; lia].
      unfold Flag.where_. apply list_filter_iff. intros f.
      destruct Hsame as [Hv Hc]. simpl in *. rewrite <- Hv.
      injection Hc as Hc. by rewrite <- Hc.
  + simpl. exists db. split; [done|]. split_and!; try done.
    unfold bind, get_db. simpl. by rewrite Hwhere.
- unfold Version.unflag. rewrite (gate_open _ _ _ _ Hgate1). rewrite Hc1.
  unfold Flag.delete_where, bind, get_db, put_db. simpl.
  eexists. split; [reflexivity|]. split_and!.
  + unfold Flag.where_. simpl. apply filter_complement_none.
  + intros f Hf Hother. simpl. apply list_elem_of_filter. split; [|done].
    intros [Hv Hc]. injection Hc as Hc. tauto.
  + intros f Hf. simpl in Hf. by apply list_elem_of_filter in Hf as [_ ?].
  + intros Hwhere. unfold Flag.where_ in Hwhere.
    rewrite filter_complement_all by done. apply set_flags_id.
  + intros Huniq v' c'. unfold Flag.where_. simpl.
    etrans; [apply length_filter_filter|apply Huniq].
Qed.
End flags.

(** C10, with alice's client flagging then unflagging a snapshot that
    bob's client has flagged. *)
Lemma flags_once_per_client_witness :
  let v := {| v_pk := 1; v_model_name := "municipality"; v_model_pk := 1;
              v_sequential := 1; v_data := ∅;
              v_period := (Some 100, None) |} in
  let flag who t := Version.flag (H := Example.world)
                      (Example.env_of (Some who) t) v in
  let unflag who t := Version.unflag (H := Example.world)
                        (Example.env_of (Some who) t) v in
  let db1 := Example.after (flag Example.bob 100) Example.empty in
  let db2 := Example.after (flag Example.alice 200) db1 in
  f_client <$> flags db2 = [4; 3]
  ∧ flag Example.alice 300 db2 = (inr tt, db2)
  ∧ f_client <$> flags (Example.after (unflag Example.alice 400) db2) = [4]
  ∧ unflag Example.alice 500 db1 = (inr tt, db1).
Proof.
  intros v flag unflag db1 db2.
  assert (Halice : ∀ t, may_flag (H := Example.world)
                          (Example.env_of (Some Example.alice) t)
                          Example.alice {| client_pk := 3 |}).
  { intros t. by repeat split. }
  destruct (flags_once_per_client (H := Example.world) _ _ _ _ _ v db1
              (Halice 200) (Halice 300))
    as ((db2' & Hflag & Hagain & _) & (db3 & Hunflag & _ & _ & _ & Hnone & _)).
  assert (db2' = db2) as ->.
  { unfold db2, Example.after, flag. by rewrite Hflag. }
  split_and!.
  - vm_compute. reflexivity.
  - exact Hagain.
  - vm_compute. reflexivity.
  - unfold unflag.
    destruct (flags_once_per_client (H := Example.world) _ _ _ _ _ v db1
                (Halice 500) (Halice 500))
      as (_ & (db4 & Hunflag' & _ & _ & _ & Hnone' & _)).
    rewrite Hunflag'. f_equal. apply Hnone'. vm_compute. reflexivity.
Defined.


(** * Further properties of the code *)

(** ** The steps of a save *)

Lemma Version_close_period_unique self bound db self' db' :
  Version.close_period self bound db = (inr self', db') →
  NoDup (Version.key <$> versions db').
Proof.
  unfold Version.close_period, Version.save, bind, get_db.
  case_bool_decide as Hnodup; [|discriminate].
  by intros [= _ <-].
Qed.

Section store_trace.
Context `{Collaborators}.

Lemma store_version_trace env e db db' :
Versioned.store_version env e db = (inr tt, db') →
∃ p new old db2,
  pk e = Some p
  ∧ new = {| v_pk := seq_version db;
             v_model_name := resource (__class__ e);
             v_model_pk := p; v_sequential := version e;
             v_data := as_version e; v_period := (modified_at e, None) |}
  ∧ (Version.key new ∉ Version.key <$> versions db)
  ∧ (if 1 <? version e then
       ∃ previous closed,
         Versioned.load_version e (RefSequential (version e - 1))
           (set_versions (versions db ++ [new]) (seq_version db + 1) db)
         = Some previous
         ∧ closed = Version.with_period
                      ((v_period previous).1, modified_at e) previous
         ∧ old = Some closed
         ∧ NoDup (Version.key <$> replaced closed (versions db ++ [new]))
         ∧ db2 = set_versions (replaced closed (versions db ++ [new]))
                              (seq_version db + 1) db
     else old = None
          ∧ db2 = set_versions (versions db ++ [new])
                               (seq_version db + 1) db)
  ∧ (if Diff_ACTIVE env then
       ∃ d, Diff.create env old (Some new) (modified_at e)
              (municipality_insee e) db2 = (inr d, db')
     else db' = db2).
Proof.
unfold Versioned.store_version.
intros (new & db1 & Hcreate & Hrest)%bind_inr.
apply bind_inr in Hrest as (old & db2 & Hold & Hdiff).
apply Version_create_ok in Hcreate as (p & Hp & Hnew & Hkey & ->).
exists p, new, old, db2. split_and!; [done..| |].
- destruct (1 <? version e); [|by injection Hold as <- <-].
  unfold bind at 1, get_db in Hold.
  destruct (Versioned.load_version _ _ _) as [previous|] eqn:Hload;
    [|discriminate].
  apply bind_inr in Hold as (closed & db2' & Hclose & [= <- <-]).
  pose proof (Version_close_period_unique _ _ _ _ _ Hclose) as Hnodup.
  apply Version_close_period_ok in Hclose as (Hclosed & ->).
  exists previous, closed. simpl in Hclosed, Hnodup.
  replace (v_period new).1 with (modified_at e) in Hclosed
    by (by rewrite Hnew).
  done.
- destruct (Diff_ACTIVE env); [|by injection Hdiff as <-].
  apply bind_inr in Hdiff as (d & db3 & Hdiff & [= <-]). eauto.
Qed.

(** The instance a save hands back, and what it wrote, step by step. *)
Lemma save_trace env e db e' db' :
Versioned.save env e db = (inr e', db') →
∃ locked e2 db1,
  _locked_version e = Some locked ∧ version e = locked + 1
  ∧ Versioned.super_save (stamped env e) db = (inr e2, db1)
  ∧ __class__ e2 = __class__ e ∧ version e2 = version e
  ∧ modified_at e2 = Some (utcnow env)
  ∧ versions db1 = versions db ∧ seq_version db1 = seq_version db
  ∧ diffs db1 = diffs db ∧ seq_diff db1 = seq_diff db
  ∧ redirects db1 = redirects db
  ∧ flags db1 = flags db ∧ seq_flag db1 = seq_flag db
  ∧ Versioned.store_version env e2 db1 = (inr tt, db')
  ∧ e' = Versioned.lock_version e2.
Proof.
intros (locked & e2 & db1 & Hl & Hv & Hsuper & Hstore & ->)%save_ok.
fold (stamped env e) in Hsuper.
exists locked, e2, db1.
destruct (stamped_same env e) as (Hc & _ & Hvs & _).
pose proof (stamped_modified_at env e) as Hm.
apply super_save_ok in Hsuper as Hcases.
destruct Hcases as [(_ & -> & ->)|(p & _ & -> & ->)]; simpl;
  split_and!; done.
Qed.
End store_trace.

(** ** The snapshot table under a save *)

Lemma insert_by_sequential_perm v l :
  Versioned.insert_by_sequential v l ≡ₚ v :: l.
Proof.
  induction l as [|w l IH]; simpl; [done|].
  case_decide; [done|]. rewrite IH. apply Permutation_swap.
Qed.

Lemma order_by_sequential_perm l : Versioned.order_by_sequential l ≡ₚ l.
Proof.
  induction l as [|v l IH]; simpl; [done|].
  by rewrite insert_by_sequential_perm, IH.
Qed.

Lemma elem_of_versions_of e db v :
  v ∈ Versioned.versions_of e db ↔ Versioned.belongs e v ∧ v ∈ versions db.
Proof.
  unfold Versioned.versions_of.
  by rewrite order_by_sequential_perm, list_elem_of_filter.
Qed.

(** The first row of a query that exactly one row answers. *)
Lemma head_filter_versions_of (P : VersionRow → Prop)
    `{∀ v, Decision (P v)} e db x :
  filter P (filter (Versioned.belongs e) (versions db)) = [x] →
  head (filter P (Versioned.versions_of e db)) = Some x.
Proof.
  intros Hone. unfold Versioned.versions_of.
  assert (Hperm : filter P (Versioned.order_by_sequential
                              (filter (Versioned.belongs e) (versions db)))
                  ≡ₚ [x]).
  { by rewrite order_by_sequential_perm, Hone. }
  apply Permutation_singleton_r in Hperm. by rewrite Hperm.
Qed.

Lemma head_filter_elem_of {A} (P : A → Prop) `{∀ x, Decision (P x)} l x :
  head (filter P l) = Some x → P x ∧ x ∈ l.
Proof.
  intros Hhead. apply head_Some_elem_of in Hhead.
  by apply list_elem_of_filter in Hhead.
Qed.

(** When the UPDATE of a row leaves the unique index intact, every row
    with the primary key of that row was that row, and no other row has
    its key. *)
Lemma replaced_unique x old l r :
  NoDup (Version.key <$> replaced x l) →
  old ∈ l → v_pk x = v_pk old → Version.key x = Version.key old →
  r ∈ l →
  (v_pk r = v_pk old → r = old) ∧ (Version.key r = Version.key old → r = old).
Proof.
  intros Hnodup Hold Hpk Hkey Hr.
  apply list_elem_of_lookup in Hold as [i Hi].
  apply list_elem_of_lookup in Hr as [j Hj].
  assert (Hat : ∀ k y, l !! k = Some y →
            (Version.key <$> replaced x l) !! k
            = Some (Version.key (if decide (v_pk y = v_pk x) then x else y))).
  { intros k y Hk. unfold replaced. by rewrite !list_lookup_fmap, Hk. }
  pose proof (Hat i old Hi) as Hio. rewrite decide_True in Hio by done.
  pose proof (Hat j r Hj) as Hjr.
  assert (Hsame : Version.key (if decide (v_pk r = v_pk x) then x else r)
                  = Version.key x → r = old).
  { intros Heq. rewrite Heq in Hjr.
    assert (i = j) as -> by (by eapply NoDup_lookup).
    congruence. }
  split.
  - intros Hp. apply Hsame. rewrite decide_True; [done|congruence].
  - intros Hk. apply Hsame. case_decide; [done|congruence].
Qed.

Section snapshot_table.
Context `{Collaborators}.

Lemma Diff_create_frame env old new created_at insee db :
same_history db (Diff.create env old new created_at insee db).2.
Proof. apply Diff_save_frame. Qed.

Lemma store_version_table env e db db' :
Versioned.store_version env e db = (inr tt, db') →
∃ p,
  pk e = Some p
  ∧ let new := {| v_pk := seq_version db;
                  v_model_name := resource (__class__ e);
                  v_model_pk := p; v_sequential := version e;
                  v_data := as_version e;
                  v_period := (modified_at e, None) |} in
    versions db' = (closed_by e (modified_at e) <$> versions db) ++ [new]
    ∧ seq_version db' = seq_version db + 1
    ∧ (Version.key new ∉ Version.key <$> versions db).
Proof.
intros (p & new & old & db2 & Hp & Hnew & Hfree & Hold & Hdiff)
  %store_version_trace.
exists p. split; [done|]. rewrite <- Hnew. simpl.
assert (Hframe : versions db' = versions db2
                 ∧ seq_version db' = seq_version db2).
{ destruct (Diff_ACTIVE env); [|by subst db'].
  destruct Hdiff as [d Hdiff].
  pose proof (Diff_create_frame env old (Some new) (modified_at e)
                (municipality_insee e) db2) as Hsame.
  rewrite Hdiff in Hsame. simpl in Hsame. unfold same_history in Hsame.
  tauto. }
destruct Hframe as [-> ->].
destruct (1 <? version e) eqn:Hv.
- apply Z.ltb_lt in Hv.
  destruct Hold as (previous & closed & Hload & Hclosed & _ & Hnodup & ->).
  simpl. split_and!; [|done..].
  unfold Versioned.load_version in Hload.
  apply head_filter_elem_of in Hload as [Hseq Hin].
  apply elem_of_versions_of in Hin as [Hbelongs Hin]. simpl in Hin.
  assert (Hpk : v_pk closed = v_pk previous) by by rewrite Hclosed.
  assert (Hkey : Version.key closed = Version.key previous)
    by by rewrite Hclosed.
  assert (Hnewin : new ∈ versions db ++ [new])
    by (apply elem_of_app; right; by left).
  assert (Hne : new ≠ previous).
  { intros <-. rewrite Hnew in Hseq. simpl in Hseq. lia. }
  rewrite replaced_app. f_equal.
  + unfold replaced. apply list_fmap_ext. intros i v Hi.
    apply list_elem_of_lookup_2 in Hi.
    assert (Hv_in : v ∈ versions db ++ [new])
      by (apply elem_of_app; by left).
    destruct (replaced_unique closed previous _ v Hnodup Hin Hpk Hkey Hv_in)
      as [Hbypk Hbykey].
    unfold closed_by. case_decide as Hsame.
    * rewrite Hpk in Hsame. rewrite (Hbypk Hsame).
      rewrite decide_True by done. done.
    * rewrite decide_False; [done|]. intros (_ & [Hn Hmp] & Hs).
      apply Hsame. rewrite Hpk. f_equal. apply Hbykey.
      destruct Hbelongs as [Hn' Hmp']. unfold Version.key.
      rewrite Hn, Hn', Hs, Hseq. do 2 f_equal. congruence.
  + unfold replaced. simpl. rewrite decide_False; [done|].
    rewrite Hpk. intros Heq.
    by destruct (replaced_unique closed previous _ new Hnodup Hin Hpk Hkey
                   Hnewin) as [Hbypk _]; apply Hne, Hbypk.
- apply Z.ltb_ge in Hv. destruct Hold as (_ & ->). simpl.
  split_and!; [|done..]. f_equal.
  rewrite <- (list_fmap_id (versions db)) at 1.
  apply list_fmap_ext. intros i v _. unfold closed_by.
  rewrite decide_False; [done|lia].
Qed.

(** The instance that [save] writes and hands back, in terms of the one
  it was given. *)
Lemma save_instance env e db e' db' :
Versioned.save env e db = (inr e', db') →
∃ p e2 db1,
  pk e' = Some p ∧ e2 = set_pk (Some p) (stamped env e)
  ∧ (pk e = None ∨ pk e = Some p)
  ∧ Versioned.super_save (stamped env e) db = (inr e2, db1)
  ∧ Versioned.store_version env e2 db1 = (inr tt, db')
  ∧ e' = Versioned.lock_version e2.
Proof.
intros (l & e2 & db1 & _ & _ & Hsuper & _ & _ & _ & _ & _ & _ & _ & _ & _
        & _ & Hstore & ->)%save_trace.
destruct (stamped_same env e) as (_ & Hps & _).
assert (Hlock : pk (Versioned.lock_version e2) = pk e2).
{ unfold Versioned.lock_version. by destruct (negb _). }
apply super_save_ok in Hsuper as Hcases.
destruct Hcases as [(Hnone & -> & _)|(p & Hp & -> & _)].
- exists (seq_entity db), (set_pk (Some (seq_entity db)) (stamped env e)), db1.
  split_and!; try done. left. congruence.
- exists p, (stamped env e), db1. rewrite Hlock.
  split_and!; try done; [|right; congruence].
  revert Hp. generalize (stamped env e). by intros [] [= <-].
Qed.
End snapshot_table.

Section closed.
Context `{Collaborators}.

Lemma closed_by_ext e1 e2 now :
__class__ e1 = __class__ e2 → pk e1 = pk e2 → version e1 = version e2 →
∀ l : list VersionRow, closed_by e1 now <$> l = closed_by e2 now <$> l.
Proof.
intros Hc Hp Hv l. apply list_fmap_ext. intros _ v _.
unfold closed_by.
destruct (decide (1 < version e1 ∧ _)) as [H1|H1],
         (decide (1 < version e2 ∧ _)) as [H2|H2]; try done;
  exfalso; apply H2 || apply H1; unfold Versioned.belongs in *;
  rewrite ?Hc, ?Hp, ?Hv in *; tauto.
Qed.

Lemma closed_by_key e now v :
Version.key (closed_by e now v) = Version.key v
∧ v_pk (closed_by e now v) = v_pk v
∧ v_data (closed_by e now v) = v_data v
∧ (v_period (closed_by e now v)).1 = (v_period v).1.
Proof. unfold closed_by. by case_decide. Qed.
End closed.

(** ** Optimistic concurrency, continued *)

Lemma version_iter_increment k e :
  version (Nat.iter k Versioned.increment_version e) = version e + Z.of_nat k
  ∧ _locked_version (Nat.iter k Versioned.increment_version e)
    = _locked_version e.
Proof.
  induction k as [|k [IHv IHl]]; simpl; [split; [lia|done]|].
  rewrite IHv, IHl. split; [lia|done].
Qed.

(** X1. After a save that succeeded, the instance handed back can be saved
    again only after exactly one [increment_version]: with none, or with two
    or more, the next save fails with [ForcedVersionError] whatever the
    database and the context, and writes nothing; with one, the version
    check passes.  (For an instance whose primary key is set and not zero,
    as one from the store is.) *)
Theorem save_again_needs_one_increment `{Collaborators}
    env e db e' db' (k : nat) env2 db2 :
  Versioned.save env e db = (inr e', db') →
  Versioned.pk_truthy e' = true →
  let again := Nat.iter k Versioned.increment_version e' in
  (k ≠ 1%nat →
     Versioned.save env2 again db2
     = (inl (ForcedVersionError
               ("wrong version number: " +:+ pretty (version e + Z.of_nat k))),
        db2))
  ∧ (k = 1%nat → Versioned.check_version again db2 = (inr tt, db2)).
Proof.
  intros Hsave Hpk again.
  apply save_ok in Hsave as (locked & e2 & db1 & Hl & Hv & Hsuper & _ & ->).
  assert (Hv2 : version e2 = version e).
  { destruct (stamped_same env e) as (_ & _ & Hvs & _).
    unfold stamped in Hvs.
    apply super_save_ok in Hsuper as [(_ & -> & _)|(p & _ & -> & _)];
      exact Hvs. }
  assert (Hpk2 : Versioned.pk_truthy e2 = true).
  { revert Hpk. unfold Versioned.lock_version.
    destruct (Versioned.pk_truthy e2) eqn:Hp; [done|]. simpl.
    unfold Versioned.pk_truthy in *. simpl. by rewrite Hp. }
  assert (Hlock : version (Versioned.lock_version e2) = version e
                  ∧ _locked_version (Versioned.lock_version e2)
                    = Some (version e)).
  { unfold Versioned.lock_version. rewrite Hpk2. simpl. by rewrite Hpk2, Hv2. }
  destruct Hlock as [Hva Hla].
  destruct (version_iter_increment k (Versioned.lock_version e2))
    as [Hvk Hlk].
  fold again in Hvk, Hlk. rewrite Hva in Hvk. rewrite Hla in Hlk.
  split.
  - intros Hk. unfold Versioned.save, atomic, Versioned.save_block, bind,
      Versioned.check_version, Versioned.locked_version.
    rewrite Hlk, Hvk, bool_decide_eq_false_2 by lia. done.
  - intros ->. unfold Versioned.check_version, Versioned.locked_version.
    rewrite Hlk, Hvk, bool_decide_eq_true_2 by lia. done.
Qed.

(** X1, on a municipality just created: saving it again as it is, or after
    two increments, is refused. *)
Lemma save_again_needs_one_increment_witness :
  match Versioned.save (H := Example.world) (Example.env_at 100)
          (Versioned.__init__ (Example.municipality "E" "old" "A"))
          Example.empty with
  | (inr e, db) =>
      Versioned.save (H := Example.world) (Example.env_at 200) e db
      = (inl (ForcedVersionError "wrong version number: 1"), db)
      ∧ Versioned.save (H := Example.world) (Example.env_at 200)
          (Versioned.increment_version (Versioned.increment_version e)) db
        = (inl (ForcedVersionError "wrong version number: 3"), db)
  | (inl _, _) => False
  end.
Proof.
  destruct (Versioned.save (H := Example.world) (Example.env_at 100)
              (Versioned.__init__ (Example.municipality "E" "old" "A"))
              Example.empty)
    as [[error|e] db] eqn:Hsave; [vm_compute in Hsave; discriminate|].
  assert (Hpk : Versioned.pk_truthy e = true).
  { vm_compute in Hsave. injection Hsave as <- _. reflexivity. }
  destruct (save_again_needs_one_increment (H := Example.world)
              (Example.env_at 100)
              (Versioned.__init__ (Example.municipality "E" "old" "A"))
              Example.empty e db 0 (Example.env_at 200) db Hsave Hpk)
    as [H0 _].
  destruct (save_again_needs_one_increment (H := Example.world)
              (Example.env_at 100)
              (Versioned.__init__ (Example.municipality "E" "old" "A"))
              Example.empty e db 2 (Example.env_at 200) db Hsave Hpk)
    as [H2 _].
  split; [exact (H0 ltac:(lia))|exact (H2 ltac:(lia))].
Defined.

Section conflicts.
Context `{Collaborators}.

Lemma super_save_raises e db error db' :
Versioned.super_save e db = (inl error, db') →
error = IntegrityError ∧ db' = db.
Proof.
unfold Versioned.super_save, bind, get_db.
destruct (pk e) as [p|]; destruct (store_accepts _ _); simpl;
  by intros [= <- <-].
Qed.

Lemma store_version_conflict env e db p :
pk e = Some p →
(resource (__class__ e), p, version e) ∈ Version.key <$> versions db →
Versioned.store_version env e db = (inl IntegrityError, db).
Proof.
intros Hp Hkey.
unfold Versioned.store_version, Version.create, bind at 1, bind at 1, get_db.
rewrite Hp. by rewrite bool_decide_eq_true_2.
Qed.

(** A save that passes the version check while the snapshot it would
  write is already there fails on the unique index of the snapshots. *)
Lemma save_conflict env e db p locked :
pk e = Some p → _locked_version e = Some locked →
version e = locked + 1 →
(resource (__class__ e), p, version e) ∈ Version.key <$> versions db →
Versioned.save env e db = (inl IntegrityError, db).
Proof.
intros Hp Hl Hv Hkey.
destruct (Versioned.save env e db) as [[error|e'] db'] eqn:Hsave.
- pose proof (save_failure_writes_nothing _ _ _ _ _ Hsave) as ->.
  f_equal. f_equal.
  unfold Versioned.save in Hsave.
  apply (proj1 (atomic_inl _ _ _ _)) in Hsave as (_ & db1 & Hblock).
  unfold Versioned.save_block in Hblock.
  apply bind_inl in Hblock as [Hcheck|(u & db2 & Hcheck & Hblock)].
  { unfold Versioned.check_version, Versioned.locked_version in Hcheck.
    rewrite Hl, bool_decide_eq_true_2 in Hcheck by done. discriminate. }
  apply check_version_ok in Hcheck as (-> & _).
  apply bind_inl in Hblock as [Hsuper|(e2 & db3 & Hsuper & Hblock)].
  { by apply super_save_raises in Hsuper as [-> _]. }
  fold (stamped env e) in Hsuper.
  destruct (stamped_same env e) as (Hc & Hps & Hvs & _).
  assert (He2 : e2 = stamped env e ∧ versions db3 = versions db).
  { apply super_save_ok in Hsuper as [(Hnone & _)|(q & _ & -> & ->)];
      [congruence|done]. }
  destruct He2 as [-> Hversions].
  apply bind_inl in Hblock as [Hstore|(u4 & db4 & _ & [=])].
  rewrite (store_version_conflict env (stamped env e) db3 p) in Hstore;
    [by injection Hstore as <- _|congruence|].
  by rewrite Hc, Hvs, Hversions.
- exfalso.
  apply save_trace in Hsave
    as (l & e2 & db1 & _ & _ & Hsuper & Hc2 & Hv2 & _ & Hvs & _ & _ & _ & _
        & _ & _ & Hstore & _).
  destruct (stamped_same env e) as (_ & Hps & _).
  assert (Hp2 : pk e2 = Some p).
  { apply super_save_ok in Hsuper as [(Hnone & _)|(q & _ & -> & _)];
      congruence. }
  apply store_version_trace in Hstore
    as (q & new & old & db2 & Hq & -> & Hfree & _).
  apply Hfree. unfold Version.key at 1. simpl.
  rewrite Hc2, Hv2, Hvs. congruence.
Qed.

(** X2. Two writers hold the same saved instance [e] and both increment it.
  Once the first has saved, the save of the second passes the version
  check (its baseline is still the old version), and fails on the unique
  index of the snapshots with [IntegrityError]; the database is the one
  the first writer left. *)
Theorem second_writer_loses attrs env steps db0 e db
  env1 fields1 e1 db1 env2 fields2 :
well_formed db0 → pk attrs = None →
save_sequence attrs env steps db0 = (inr e, db) →
Versioned.save env1
  (set_fields fields1 (Versioned.increment_version e)) db = (inr e1, db1) →
Versioned.save env2
  (set_fields fields2 (Versioned.increment_version e)) db1
= (inl IntegrityError, db1).
Proof.
intros Hwf Hattrs Hrun Hfirst.
unfold save_sequence in Hrun.
apply bind_inr in Hrun as (e0 & db0' & Hsave0 & Hrest).
apply (save_first _ _ _ _ _ Hwf Hattrs) in Hsave0.
apply (save_again_saved _ _ _ _ _ _ Hsave0) in Hrest.
set (ts := [utcnow env] ++ ((λ s, utcnow (edit_env s)) <$> steps)) in *.
clearbody ts.
assert (Hnext : saved (ts ++ [utcnow env1]) e1 db1).
{ by eapply (save_next env1 ts e
               (set_fields fields1 (Versioned.increment_version e))). }
destruct (saved_pk _ _ _ Hrest) as (p & Hp & _).
assert (Hsame : __class__ e1 = __class__ e ∧ pk e1 = pk e).
{ apply save_trace in Hfirst
    as (l & e2 & db2 & _ & _ & Hsuper & Hc2 & _ & _ & _ & _ & _ & _ & _
        & _ & _ & _ & ->).
  destruct (stamped_same env1
              (set_fields fields1 (Versioned.increment_version e)))
    as (_ & Hps & _).
  assert (Hp2 : pk e2 = Some p).
  { apply super_save_ok in Hsuper as [(Hnone & _)|(q & _ & -> & _)];
      simpl in *; congruence. }
  simpl in Hc2.
  unfold Versioned.lock_version. destruct (negb _); simpl;
    (split; [exact Hc2|by rewrite Hp2, Hp]). }
destruct Hsame as [Hc1 Hp1].
apply (save_conflict env2 _ db1 p (version e));
  [done|by apply Hrest|done|].
simpl.
pose proof (saved_sequential _ _ _ Hnext) as Hseq.
rewrite length_app, Nat2Z.inj_add in Hseq. simpl in Hseq.
assert (Hin : version e + 1 ∈ v_sequential <$> snapshots e1 db1).
{ rewrite Hseq, elem_of_seqZ. pose proof (saved_version _ _ _ Hrest). lia. }
apply list_elem_of_fmap in Hin as (v & Hv & Hin).
unfold snapshots in Hin. apply list_elem_of_filter in Hin as [[Hn Hmp] Hin].
apply list_elem_of_fmap. exists v. split; [|done].
unfold Version.key. rewrite Hn, <- Hv, Hc1. do 2 f_equal.
rewrite Hp1, Hp in Hmp. by injection Hmp.
Qed.
End conflicts.

(** X2, on a municipality created at time 100, then edited by two writers at
    the times 200 and 300. *)
Lemma second_writer_loses_witness :
  match save_sequence (H := Example.world)
          (Example.municipality "E" "old" "A") (Example.env_at 100) []
          Example.empty with
  | (inr e, db) =>
      match Versioned.save (H := Example.world) (Example.env_at 200)
              (set_fields (Example.insee_name "old" "B")
                          (Versioned.increment_version e)) db with
      | (inr e1, db1) =>
          Versioned.save (H := Example.world)
            (Example.env_of (Some Example.bob) 300)
            (set_fields (Example.insee_name "old" "C")
                        (Versioned.increment_version e)) db1
          = (inl IntegrityError, db1)
      | (inl _, _) => False
      end
  | (inl _, _) => False
  end.
Proof.
  destruct (save_sequence (H := Example.world)
              (Example.municipality "E" "old" "A") (Example.env_at 100) []
              Example.empty)
    as [[error|e] db] eqn:Hrun; [vm_compute in Hrun; discriminate|].
  destruct (Versioned.save (H := Example.world) (Example.env_at 200)
              (set_fields (Example.insee_name "old" "B")
                          (Versioned.increment_version e)) db)
    as [[error|e1] db1] eqn:Hfirst.
  { exfalso. revert Hfirst. vm_compute in Hrun.
    injection Hrun as <- <-. vm_compute. discriminate. }
  exact (second_writer_loses (H := Example.world)
           (Example.municipality "E" "old" "A") (Example.env_at 100) []
           Example.empty e db (Example.env_at 200)
           (Example.insee_name "old" "B") e1 db1
           (Example.env_of (Some Example.bob) 300)
           (Example.insee_name "old" "C")
           empty_well_formed eq_refl Hrun Hfirst).
Defined.

(** ** The snapshot table *)

Section snapshot_of_a_save.
Context `{Collaborators}.

(** X3. What a save that succeeds does to the table of snapshots: it
  appends one row, with the next primary key, the [resource] name and the
  primary key of the instance, its version as sequence number, the
  serialisation [as_version] of the instance as written, and a period that
  opens at the time of the save; among the rows that were there, the only
  one that changes is the snapshot of this instance with the previous
  sequence number, whose period now ends at the time of the save.
  [load_version] with the version saved returns the new row. *)
Theorem save_appends_one_snapshot env e db e' db' :
Versioned.save env e db = (inr e', db') →
∃ p,
  pk e' = Some p ∧ (pk e = None ∨ pk e = Some p)
  ∧ let new := {| v_pk := seq_version db;
                  v_model_name := resource (__class__ e);
                  v_model_pk := p; v_sequential := version e;
                  v_data := as_version (set_pk (Some p) (stamped env e));
                  v_period := (Some (utcnow env), None) |} in
    versions db'
    = (closed_by (set_pk (Some p) e) (Some (utcnow env)) <$> versions db)
      ++ [new]
    ∧ seq_version db' = seq_version db + 1
    ∧ Versioned.load_version e' (RefSequential (version e)) db' = Some new.
Proof.
intros Hsave.
apply save_trace in Hsave as Htrace.
destruct Htrace as (l & e2' & db1' & _ & _ & Hsuper' & Hc2 & Hv2 & Hm2 & Hvs
                    & Hseq & _).
apply save_instance in Hsave
  as (p & e2 & db1 & Hp & He2 & Hpk & Hsuper & Hstore & He').
rewrite Hsuper in Hsuper'. injection Hsuper' as <- <-.
exists p. split_and!; [done..|].
apply store_version_table in Hstore as (q & Hq & Htable & Hnext & Hfree).
assert (q = p) as -> by (rewrite He2 in Hq; simpl in Hq; congruence).
rewrite Hc2, Hv2, Hm2, Hvs, Hseq in Htable, Hfree.
rewrite Hseq in Hnext.
rewrite (closed_by_ext e2 (set_pk (Some p) e)) in Htable
  by (rewrite ?Hc2, ?Hv2, ?He2; done).
rewrite <- He2. split_and!; [done..|].
unfold Versioned.load_version. apply head_filter_versions_of.
assert (Hbelongs : ∀ v, Versioned.belongs e' v
                        ↔ v_model_name v = resource (__class__ e)
                          ∧ v_model_pk v = p).
{ intros v. unfold Versioned.belongs. rewrite Hp.
  assert (__class__ e' = __class__ e) as ->.
  { rewrite He', <- Hc2. unfold Versioned.lock_version.
    by destruct (negb _). }
  split; intros [? ?]; split; congruence. }
rewrite Htable, !filter_app.
rewrite (filter_none _ (filter _ (_ <$> versions db))).
- simpl. rewrite filter_cons_True by (by apply Hbelongs).
  by rewrite filter_nil, filter_cons_True, filter_nil.
- intros w [Hw Hin]%list_elem_of_filter Hs.
  apply list_elem_of_fmap in Hin as (v & -> & Hin).
  apply Hbelongs in Hw as [Hn Hmp].
  apply Hfree. apply list_elem_of_fmap. exists v. split; [|done].
  destruct (closed_by_key (set_pk (Some p) e) (Some (utcnow env)) v)
    as (<- & _).
  unfold Version.key. simpl. by rewrite Hn, Hmp, Hs.
Qed.
End snapshot_of_a_save.

(** X3, on the second save of a municipality. *)
Lemma save_appends_one_snapshot_witness :
  match Versioned.save (H := Example.world) (Example.env_at 100)
          (Versioned.__init__ (Example.municipality "E" "old" "A"))
          Example.empty with
  | (inr e1, db1) =>
      match Versioned.save (H := Example.world) (Example.env_at 200)
              (Versioned.increment_version e1) db1 with
      | (inr e2, db2) =>
          length (versions db2) = S (length (versions db1))
          ∧ seq_version db2 = seq_version db1 + 1
          ∧ (v_sequential <$>
               Versioned.load_version e2 (RefSequential (version e1 + 1)) db2)
            = Some (version e1 + 1)
      | (inl _, _) => False
      end
  | (inl _, _) => False
  end.
Proof.
  destruct (Versioned.save (H := Example.world) (Example.env_at 100)
              (Versioned.__init__ (Example.municipality "E" "old" "A"))
              Example.empty)
    as [[error|e1] db1] eqn:Hfirst; [vm_compute in Hfirst; discriminate|].
  destruct (Versioned.save (H := Example.world) (Example.env_at 200)
              (Versioned.increment_version e1) db1)
    as [[error|e2] db2] eqn:Hsecond.
  { exfalso. revert Hsecond. vm_compute in Hfirst.
    injection Hfirst as <- <-. vm_compute. discriminate. }
  destruct (save_appends_one_snapshot (H := Example.world)
              (Example.env_at 200) (Versioned.increment_version e1) db1 e2 db2
              Hsecond) as (p & _ & _ & Htable & Hseq & Hload).
  split_and!.
  - rewrite Htable, length_app, length_fmap. simpl. lia.
  - exact Hseq.
  - etrans; [exact (f_equal (fmap v_sequential) Hload)|]. reflexivity.
Defined.

Lemma filter_fmap_fixed {A} (P : A → Prop) `{∀ x, Decision (P x)}
    (g : A → A) (l : list A) :
  (∀ x, x ∈ l → (P x → g x = x) ∧ (P (g x) → P x)) →
  filter P (g <$> l) = filter P l.
Proof.
  induction l as [|x l IH]; intros Hl; [done|].
  rewrite fmap_cons.
  destruct (Hl x ltac:(by left)) as [Hfix Hback].
  assert (IH' : filter P (g <$> l) = filter P l).
  { apply IH. intros y Hy. apply Hl. by right. }
  destruct (decide (P x)) as [Hx|Hx].
  - rewrite (Hfix Hx), !filter_cons_True by done. by rewrite IH'.
  - rewrite !filter_cons_False; [done|done|]. intros Hgx. by apply Hx, Hback.
Qed.

Section other_entities.
Context `{Collaborators}.

(** X4. A save of one instance leaves the history of every other instance
  (another resource, or another primary key) as it is: [versions], and so
  every [load_version], give the same rows as before, and no row of theirs
  leaves the table. *)
Theorem save_leaves_other_histories env e db e' db' other :
Versioned.save env e db = (inr e', db') →
resource (__class__ other) ≠ resource (__class__ e) ∨ pk other ≠ pk e' →
Versioned.versions_of other db' = Versioned.versions_of other db
∧ (∀ ref, Versioned.load_version other ref db'
          = Versioned.load_version other ref db)
∧ (∀ v, v ∈ versions db → Versioned.belongs other v → v ∈ versions db').
Proof.
intros Hsave Hother.
apply save_trace in Hsave as Htrace.
destruct Htrace as (l & e2' & db1' & _ & _ & Hsuper' & Hc2 & Hv2 & Hm2 & Hvs
                    & Hseq & _).
apply save_instance in Hsave
  as (p & e2 & db1 & Hp & He2 & Hpk & Hsuper & Hstore & He').
rewrite Hsuper in Hsuper'. injection Hsuper' as <- <-.
apply store_version_table in Hstore as (q & Hq & Htable & _).
assert (q = p) as -> by (rewrite He2 in Hq; simpl in Hq; congruence).
rewrite Hvs in Htable.
assert (Hapart : ∀ v, Versioned.belongs other v → Versioned.belongs e2 v →
                      False).
{ intros v [Hn Hmp] [Hn2 Hmp2]. rewrite Hc2 in Hn2. rewrite Hq in Hmp2.
  destruct Hother as [Hr|Hk]; [congruence|].
  apply Hk. rewrite Hp. congruence. }
assert (Hfixed : ∀ v, (Versioned.belongs other v →
                         closed_by e2 (modified_at e2) v = v)
                      ∧ (Versioned.belongs other
                           (closed_by e2 (modified_at e2) v) →
                         Versioned.belongs other v)).
{ intros v. unfold closed_by.
  destruct (decide (1 < version e2 ∧ _)) as [(_ & Hb & _)|_]; [|done].
  split; [intros Ho; by destruct (Hapart v)|done]. }
assert (Hsnap : filter (Versioned.belongs other) (versions db')
                = filter (Versioned.belongs other) (versions db)).
{ rewrite Htable, filter_app, filter_fmap_fixed by (intros; apply Hfixed).
  rewrite filter_cons_False, filter_nil, app_nil_r; [done|].
  intros Ho. apply (Hapart _ Ho). split; simpl; [done|by rewrite Hq]. }
assert (Hhist : Versioned.versions_of other db'
                = Versioned.versions_of other db).
{ unfold Versioned.versions_of. by rewrite Hsnap. }
split_and!; [done| |].
- intros ref. unfold Versioned.load_version. by rewrite Hhist.
- intros v Hv Ho. rewrite Htable. apply elem_of_app. left.
  apply list_elem_of_fmap. exists v. split; [|done].
  symmetry. by apply Hfixed.
Qed.
End other_entities.

(** X4, for a street next to a municipality that is saved. *)
Lemma save_leaves_other_histories_witness :
  let street :=
    {| __class__ := {| __name__ := "Street"; resource := "street";
                       identifiers := ["fantoir"]; columns := ["name"] |};
       pk := Some 1; ban_id := VStr "S"; version := 1; created_at := None;
       created_by := None; modified_at := None; modified_by := None;
       source_kind := None; fields := ∅; _locked_version := Some 1 |} in
  match Versioned.save (H := Example.world) (Example.env_at 100)
          (Versioned.__init__ (Example.municipality "E" "old" "A"))
          Example.empty with
  | (inr e, db) =>
      Versioned.versions_of street db
      = Versioned.versions_of street Example.empty
  | (inl _, _) => False
  end.
Proof.
  intros street.
  destruct (Versioned.save (H := Example.world) (Example.env_at 100)
              (Versioned.__init__ (Example.municipality "E" "old" "A"))
              Example.empty)
    as [[error|e] db] eqn:Hsave; [vm_compute in Hsave; discriminate|].
  destruct (save_leaves_other_histories (H := Example.world)
              (Example.env_at 100)
              (Versioned.__init__ (Example.municipality "E" "old" "A"))
              Example.empty e db street Hsave) as (Hhistory & _).
  { left. simpl. discriminate. }
  exact Hhistory.
Defined.

Section store_alone.
Context `{Collaborators}.

(** X5. [store_version] called by itself, outside [save], is not undone
  when it fails: for an instance at a version above 1 with no snapshot
  yet, neither at this version nor at the one before, it raises
  [AttributeError] (the missing snapshot is [None]) after the new snapshot
  has been written.  Under [atomic()], as [save] calls it, the same
  failure leaves the database as it was. *)
Theorem store_version_alone_is_not_undone env e db p :
pk e = Some p → 1 < version e →
(∀ v, v ∈ versions db → Versioned.belongs e v →
      v_sequential v ≠ version e ∧ v_sequential v ≠ version e - 1) →
let new := {| v_pk := seq_version db;
              v_model_name := resource (__class__ e);
              v_model_pk := p; v_sequential := version e;
              v_data := as_version e;
              v_period := (modified_at e, None) |} in
Versioned.store_version env e db
= (inl (AttributeError "close_period"),
   set_versions (versions db ++ [new]) (seq_version db + 1) db)
∧ (atomic (Versioned.store_version env e) db).2 = db.
Proof.
intros Hp Hv Hnone new.
assert (Hstore : Versioned.store_version env e db
          = (inl (AttributeError "close_period"),
             set_versions (versions db ++ [new]) (seq_version db + 1) db)).
{ unfold Versioned.store_version, Version.create, bind at 1, bind at 1,
    get_db. rewrite Hp.
  rewrite bool_decide_eq_false_2.
  2:{ intros (v & Hkey & Hin)%list_elem_of_fmap.
      injection Hkey as Hn Hmp Hs.
      destruct (Hnone v Hin) as [Hne _]; [|done].
      split; [done|]. by rewrite <- Hmp, Hp. }
  unfold bind at 1, put_db. unfold bind at 1, ret.
  apply Z.ltb_lt in Hv as Hv'. rewrite Hv'.
  unfold bind at 1. unfold bind at 1, get_db.
  replace (Versioned.load_version e (RefSequential (version e - 1)) _)
    with (@None VersionRow); [done|].
  symmetry. unfold Versioned.load_version.
  rewrite filter_none; [done|].
  intros v [Hb Hin]%elem_of_versions_of Hs. simpl in Hin.
  apply elem_of_app in Hin as [Hin|Hin%list_elem_of_singleton].
  - by destruct (Hnone v Hin Hb).
  - rewrite Hin in Hs. simpl in Hs. lia. }
split; [done|]. unfold atomic. by rewrite Hstore.
Qed.
End store_alone.

(** X5, on a municipality with primary key 1 and version 2 in an empty
    database. *)
Lemma store_version_alone_is_not_undone_witness :
  let e := set_version 2 (set_pk (Some 1) (Example.municipality "E" "x" "A")) in
  length (versions
            (Versioned.store_version (H := Example.world)
               (Example.env_at 100) e Example.empty).2) = 1%nat.
Proof.
  intros e.
  destruct (store_version_alone_is_not_undone (H := Example.world)
              (Example.env_at 100) e Example.empty 1 eq_refl eq_refl)
    as [Hstore _].
  { by intros v ?%elem_of_nil. }
  by rewrite Hstore.
Defined.

Section classes.
Context `{Collaborators}.

(** X6. The snapshot that a save writes resolves back to the class of the
  instance: when the class is filed in the registry (as
  [BaseVersioned.__new__] files it, under its lowercased name) and its
  resource name is that lowercased name, the property [model] of the new
  snapshot is the class.  The registry has one slot per lowercased name: a
  class defined later under a name that differs by case only takes the
  slot, and the snapshot then resolves to that class. *)
Theorem snapshot_resolves_to_its_class env e db e' db' classes :
registry env = register (__class__ e) classes →
resource (__class__ e) = lower (__name__ (__class__ e)) →
Versioned.save env e db = (inr e', db') →
∃ new,
  Versioned.load_version e' (RefSequential (version e)) db' = Some new
  ∧ Version.model env new = inr (__class__ e)
  ∧ ∀ later,
      lower (__name__ later) = lower (__name__ (__class__ e)) →
      Version.model
        {| session := session env; utcnow := utcnow env;
           Diff_ACTIVE := Diff_ACTIVE env;
           registry := register later (registry env) |} new
      = inr later.
Proof.
intros Hregistry Hresource Hsave.
apply save_trace in Hsave as Htrace.
destruct Htrace as (l & e2' & db1' & _ & _ & Hsuper' & Hc2 & Hv2 & Hm2 & Hvs
                    & Hseq & _).
apply save_instance in Hsave
  as (p & e2 & db1 & Hp & He2 & Hpk & Hsuper & Hstore & He').
rewrite Hsuper in Hsuper'. injection Hsuper' as <- <-.
apply store_version_table in Hstore as (q & Hq & Htable & Hnext & Hfree).
set (new := {| v_pk := seq_version db1;
               v_model_name := resource (__class__ e2);
               v_model_pk := q; v_sequential := version e2;
               v_data := as_version e2;
               v_period := (modified_at e2, None) |}) in *.
assert (Hbelongs : ∀ v, Versioned.belongs e' v ↔ Versioned.belongs e2 v).
{ intros v. unfold Versioned.belongs. rewrite He'.
  unfold Versioned.lock_version. by destruct (negb _). }
exists new. split_and!.
- unfold Versioned.load_version. apply head_filter_versions_of.
  rewrite Htable, !filter_app.
  rewrite (filter_none _ (filter _ (_ <$> versions db1))).
  + simpl. rewrite filter_cons_True.
    2:{ apply Hbelongs. split; simpl; [done|by rewrite Hq]. }
    rewrite filter_nil, filter_cons_True, filter_nil; [done|].
    simpl. exact Hv2.
  + intros w [Hw Hin]%list_elem_of_filter Hs.
    apply list_elem_of_fmap in Hin as (v & -> & Hin).
    apply Hbelongs in Hw as [Hn Hmp].
    apply Hfree. apply list_elem_of_fmap. exists v. split; [|done].
    destruct (closed_by_key e2 (modified_at e2) v) as (<- & _).
    unfold Version.key. simpl. rewrite Hn, Hs, Hv2. do 2 f_equal.
    rewrite Hq in Hmp. by injection Hmp.
- unfold Version.model. simpl. rewrite Hc2, Hregistry, Hresource.
  unfold register. by rewrite lookup_insert_eq.
- intros later Hlater. unfold Version.model. simpl.
  rewrite Hc2, Hresource, <- Hlater. unfold register.
  by rewrite lookup_insert_eq.
Qed.
End classes.

(** X6, on the first snapshot of a municipality. *)
Lemma snapshot_resolves_to_its_class_witness :
  match Versioned.save (H := Example.world) (Example.env_at 100)
          (Versioned.__init__ (Example.municipality "E" "old" "A"))
          Example.empty with
  | (inr e, db) =>
      ∃ new, Versioned.load_version e (RefSequential 1) db = Some new
             ∧ Version.model (Example.env_at 100) new
               = inr Example.Municipality
  | (inl _, _) => False
  end.
Proof.
  destruct (Versioned.save (H := Example.world) (Example.env_at 100)
              (Versioned.__init__ (Example.municipality "E" "old" "A"))
              Example.empty)
    as [[error|e] db] eqn:Hsave; [vm_compute in Hsave; discriminate|].
  destruct (snapshot_resolves_to_its_class (H := Example.world)
              (Example.env_at 100)
              (Versioned.__init__ (Example.municipality "E" "old" "A"))
              Example.empty e db ∅ eq_refl eq_refl Hsave)
    as (new & Hload & Hmodel & _).
  exists new. split; [exact Hload|exact Hmodel].
Defined.

(** ** Queries on the history *)

Lemma head_filter_lookup {A} (P : A → Prop) `{∀ x, Decision (P x)}
    (l : list A) (k : nat) :
  (∀ j x, l !! j = Some x → P x ↔ j = k) →
  head (filter P l) = l !! k.
Proof.
  revert k. induction l as [|x l IH]; intros k Hat; [done|].
  destruct k as [|k].
  - rewrite filter_cons_True; [done|]. by apply (Hat 0%nat).
  - rewrite filter_cons_False.
    + apply IH. intros j y Hj. rewrite (Hat (S j) y Hj). lia.
    + intros HP. by apply (Hat 0%nat x) in HP.
Qed.

Section queries.
Context `{Collaborators}.

Lemma save_sequence_saved attrs env steps db0 e db :
well_formed db0 → pk attrs = None →
save_sequence attrs env steps db0 = (inr e, db) →
saved (utcnow env :: ((λ s, utcnow (edit_env s)) <$> steps)) e db.
Proof.
intros Hwf Hattrs Hrun. unfold save_sequence in Hrun.
apply bind_inr in Hrun as (e1 & db1 & Hfirst & Hrest).
apply (save_first _ _ _ _ _ Hwf Hattrs) in Hfirst.
by apply (save_again_saved _ _ _ _ _ _ Hfirst) in Hrest.
Qed.

Lemma saved_sequential_lookup ts e db j v :
saved ts e db → Versioned.versions_of e db !! j = Some v →
v_sequential v = Z.of_nat (S j).
Proof.
intros Hsaved Hj. rewrite (versions_of_saved _ _ _ Hsaved) in Hj.
pose proof (saved_sequential _ _ _ Hsaved) as Hseq.
assert (Hat : (v_sequential <$> snapshots e db) !! j
              = Some (v_sequential v)) by by rewrite list_lookup_fmap, Hj.
rewrite Hseq in Hat. apply lookup_seqZ in Hat. lia.
Qed.

(** X7. After N saves of an instance, [load_version] with the sequence
  number k returns the k-th row of [versions], whose sequence number is k;
  with a number below 1 or above N it returns nothing; and with no
  argument it returns the last row, the snapshot of the current version.
  *)
Theorem load_version_by_sequence attrs env steps db0 e db :
well_formed db0 → pk attrs = None →
save_sequence attrs env steps db0 = (inr e, db) →
let history := Versioned.versions_of e db in
(∀ k : nat,
   Versioned.load_version e (RefSequential (Z.of_nat (S k))) db
   = history !! k)
∧ (∀ (k : nat) v, history !! k = Some v → v_sequential v = Z.of_nat (S k))
∧ (∀ n, n < 1 ∨ Z.of_nat (S (length steps)) < n →
        Versioned.load_version e (RefSequential n) db = None)
∧ Versioned.load_version e RefNone db = history !! length steps.
Proof.
intros Hwf Hattrs Hrun history.
pose proof (save_sequence_saved _ _ _ _ _ _ Hwf Hattrs Hrun) as Hsaved.
assert (Hlen : length history = S (length steps)).
{ unfold history.
  rewrite (versions_of_saved _ e db Hsaved).
  rewrite <- (length_fmap v_sequential), (saved_sequential _ e db Hsaved).
  rewrite length_seqZ. simpl. rewrite length_fmap. lia. }
assert (Hby : ∀ k : nat,
          head (filter (λ v, v_sequential v = Z.of_nat (S k)) history)
          = history !! k).
{ intros k. apply head_filter_lookup. intros j x Hj.
  rewrite (saved_sequential_lookup _ _ _ _ _ Hsaved Hj). lia. }
split_and!.
- exact Hby.
- intros k v. by apply (saved_sequential_lookup _ _ _ _ _ Hsaved).
- intros n Hn. unfold Versioned.load_version. fold history.
  rewrite filter_none; [done|].
  intros v [j Hj]%list_elem_of_lookup Hv.
  rewrite (saved_sequential_lookup _ _ _ _ _ Hsaved Hj) in Hv.
  apply lookup_lt_Some in Hj. rewrite Hlen in Hj. lia.
- unfold Versioned.load_version. fold history.
  rewrite (saved_version _ _ _ Hsaved). simpl. rewrite length_fmap.
  apply (Hby (length steps)).
Qed.

(** X8. After N saves of an instance, at times that never go backwards,
  [load_version] with a date returns the snapshot that was current at that
  date: nothing before the first save, and the i-th snapshot from the time
  of the i-th save up to the time of the next one (for ever, for the
  last). *)
Theorem load_version_at_a_date attrs env steps db0 e db t :
well_formed db0 → pk attrs = None →
save_sequence attrs env steps db0 = (inr e, db) →
let ts := utcnow env :: ((λ s, utcnow (edit_env s)) <$> steps) in
clock_monotone ts →
(t < utcnow env → Versioned.load_version e (RefDatetime t) db = None)
∧ (∀ (i : nat) ti,
     ts !! i = Some ti → ti ≤ t → (∀ tn, ts !! S i = Some tn → t < tn) →
     Versioned.load_version e (RefDatetime t) db
     = Versioned.versions_of e db !! i).
Proof.
intros Hwf Hattrs Hrun ts Hclock.
pose proof (save_sequence_saved _ _ _ _ _ _ Hwf Hattrs Hrun) as Hsaved.
fold ts in Hsaved. unfold Versioned.load_version. split.
- intros Hbefore. rewrite filter_none; [done|].
  intros v [j Hj]%list_elem_of_lookup [Hlo _].
  destruct (saved_period _ _ _ _ _ Hsaved Hj) as (tj & Htj & Hp).
  rewrite Hp in Hlo. simpl in Hlo.
  assert (utcnow env ≤ tj)
    by (apply (Hclock 0%nat j); [lia|done|done]).
  lia.
- intros i ti Hi Hfrom Hto. apply head_filter_lookup. intros j v Hj.
  destruct (saved_period _ _ _ _ _ Hsaved Hj) as (tj & Htj & Hp).
  unfold Versioned.period_contains. rewrite Hp. cbn [fst snd].
  destruct (decide (j = i)) as [->|Hne].
  + rewrite Hi in Htj. injection Htj as <-.
    split; [done|intros _]. split; [done|].
    destruct (ts !! S i) as [tn|] eqn:Hn; [by apply Hto|done].
  + split; [|done]. intros [Hlo Hhi]. exfalso.
    destruct (decide (j < i)%nat) as [Hlt|Hge].
    * destruct (ts !! S j) as [tn|] eqn:Hn; cbn [fst snd] in Hhi.
      -- assert (tn ≤ ti) by (apply (Hclock (S j) i); [lia|done|done]).
         lia.
      -- apply lookup_ge_None_1 in Hn. apply lookup_lt_Some in Hi. lia.
    * destruct (ts !! S i) as [tn|] eqn:Hn.
      -- assert (tn ≤ tj) by (apply (Hclock (S i) j); [lia|done|done]).
         specialize (Hto tn eq_refl). lia.
      -- apply lookup_ge_None_1 in Hn. apply lookup_lt_Some in Htj. lia.
Qed.
End queries.

(** X7, on a municipality saved twice. *)
Lemma load_version_by_sequence_witness :
  match save_sequence (H := Example.world)
          (Example.municipality "E" "old" "A") (Example.env_at 100)
          [Example.edit (Example.env_at 200) (Example.insee_name "new" "A")]
          Example.empty with
  | (inr e, db) =>
      Versioned.load_version e (RefSequential 1) db
      = Versioned.versions_of e db !! 0%nat
      ∧ Versioned.load_version e (RefSequential 3) db = None
      ∧ Versioned.load_version e RefNone db
        = Versioned.versions_of e db !! 1%nat
  | (inl _, _) => False
  end.
Proof.
  destruct (save_sequence (H := Example.world)
              (Example.municipality "E" "old" "A") (Example.env_at 100)
              [Example.edit (Example.env_at 200)
                            (Example.insee_name "new" "A")]
              Example.empty)
    as [[error|e] db] eqn:Hrun; [vm_compute in Hrun; discriminate|].
  destruct (load_version_by_sequence (H := Example.world)
              (Example.municipality "E" "old" "A") (Example.env_at 100)
              [Example.edit (Example.env_at 200)
                            (Example.insee_name "new" "A")]
              Example.empty e db empty_well_formed eq_refl Hrun)
    as (Hby & _ & Hout & Hcurrent).
  split_and!; [exact (Hby 0%nat)|apply Hout; simpl; lia|exact Hcurrent].
Defined.

(** X8, on a municipality saved at the times 100 and 200, asked for the
    dates 150 and 99. *)
Lemma load_version_at_a_date_witness :
  match save_sequence (H := Example.world)
          (Example.municipality "E" "old" "A") (Example.env_at 100)
          [Example.edit (Example.env_at 200) (Example.insee_name "new" "A")]
          Example.empty with
  | (inr e, db) =>
      Versioned.load_version e (RefDatetime 150) db
      = Versioned.versions_of e db !! 0%nat
      ∧ Versioned.load_version e (RefDatetime 99) db = None
  | (inl _, _) => False
  end.
Proof.
  destruct (save_sequence (H := Example.world)
              (Example.municipality "E" "old" "A") (Example.env_at 100)
              [Example.edit (Example.env_at 200)
                            (Example.insee_name "new" "A")]
              Example.empty)
    as [[error|e] db] eqn:Hrun; [vm_compute in Hrun; discriminate|].
  assert (Hclock : clock_monotone [100; 200]).
  { intros [|[|i]] [|[|j]] ti tj Hij; simpl; intros [= <-] [= <-]; lia. }
  destruct (load_version_at_a_date (H := Example.world)
              (Example.municipality "E" "old" "A") (Example.env_at 100)
              [Example.edit (Example.env_at 200)
                            (Example.insee_name "new" "A")]
              Example.empty e db 150 empty_well_formed eq_refl Hrun Hclock)
    as (_ & Hat).
  destruct (load_version_at_a_date (H := Example.world)
              (Example.municipality "E" "old" "A") (Example.env_at 100)
              [Example.edit (Example.env_at 200)
                            (Example.insee_name "new" "A")]
              Example.empty e db 99 empty_well_formed eq_refl Hrun Hclock)
    as (Hbefore & _).
  split.
  - apply (Hat 0%nat 100); [reflexivity|lia|].
    intros tn [= <-]. lia.
  - apply Hbefore. simpl. lia.
Defined.

Section reload.
Context `{Collaborators}.

(** X9. Loading an instance again after its saves gives back the very
  instance the last save returned, with the version just saved as its
  baseline; asking for a primary key that no row of the model has raises
  [DoesNotExist].  Neither writes anything. *)
Theorem get_returns_the_saved_instance attrs env steps db0 e db :
well_formed db0 → pk attrs = None →
save_sequence attrs env steps db0 = (inr e, db) →
∃ p,
  pk e = Some p
  ∧ Versioned.get (__class__ e) p db = (inr e, db)
  ∧ Versioned.locked_version e = Some (version e)
  ∧ (∀ model q,
       (∀ r, r ∈ entities db → __class__ r = model → pk r ≠ Some q) →
       Versioned.get model q db = (inl DoesNotExist, db)).
Proof.
intros Hwf Hattrs Hrun.
pose proof (save_sequence_saved _ _ _ _ _ _ Hwf Hattrs Hrun) as Hsaved.
destruct (saved_pk _ _ _ Hsaved) as (p & Hp & _).
exists p. split_and!; [done| | |].
- by apply (get_saved _ _ _ _ Hsaved).
- apply (saved_locked _ _ _ Hsaved).
- intros model q Hnone. unfold Versioned.get, bind, get_db.
  rewrite filter_none; [done|].
  intros r Hr [Hc Hq]. by apply (Hnone r Hr Hc).
Qed.
End reload.

(** X9, on a municipality saved twice. *)
Lemma get_returns_the_saved_instance_witness :
  match save_sequence (H := Example.world)
          (Example.municipality "E" "old" "A") (Example.env_at 100)
          [Example.edit (Example.env_at 200) (Example.insee_name "new" "A")]
          Example.empty with
  | (inr e, db) =>
      ∃ p, pk e = Some p
           ∧ Versioned.get (__class__ e) p db = (inr e, db)
  | (inl _, _) => False
  end.
Proof.
  destruct (save_sequence (H := Example.world)
              (Example.municipality "E" "old" "A") (Example.env_at 100)
              [Example.edit (Example.env_at 200)
                            (Example.insee_name "new" "A")]
              Example.empty)
    as [[error|e] db] eqn:Hrun; [vm_compute in Hrun; discriminate|].
  destruct (get_returns_the_saved_instance (H := Example.world)
              (Example.municipality "E" "old" "A") (Example.env_at 100)
              [Example.edit (Example.env_at 200)
                            (Example.insee_name "new" "A")]
              Example.empty e db empty_well_formed eq_refl Hrun)
    as (p & Hp & Hget & _).
  exists p. split; [exact Hp|exact Hget].
Defined.

(** ** The store stays in order *)

Section well_formed_store.
Context `{Collaborators}.

Lemma store_version_frame env e db db' :
Versioned.store_version env e db = (inr tt, db') →
entities db' = entities db ∧ seq_entity db' = seq_entity db
∧ flags db' = flags db.
Proof.
intros (q & new & old & db2 & _ & _ & _ & Hold & Hdiff)%store_version_trace.
assert (Hdb2 : entities db2 = entities db ∧ seq_entity db2 = seq_entity db
               ∧ flags db2 = flags db).
{ destruct (1 <? version e).
  - by destruct Hold as (? & ? & _ & _ & _ & _ & ->).
  - by destruct Hold as (_ & ->). }
destruct (Diff_ACTIVE env); [|by subst db'].
destruct Hdiff as [d Hdiff].
pose proof (Diff_create_frame env old (Some new) (modified_at e)
              (municipality_insee e) db2) as Hsame.
rewrite Hdiff in Hsame. simpl in Hsame.
destruct Hsame as (-> & _ & -> & -> & _). done.
Qed.

(** X10. [save] keeps the store in order, whether it succeeds or fails: the
  sequences stay above every key handed out, every row of an entity has a
  primary key, every snapshot refers to a key below the sequence of the
  entities, and the primary keys of the snapshots stay unique.  (The
  instance has no primary key yet, or one that the store handed out.) *)
Theorem save_keeps_the_store_in_order env e db :
well_formed db →
(∀ p, pk e = Some p → p < seq_entity db) →
well_formed (Versioned.save env e db).2.
Proof.
intros Hwf Hpk.
destruct (Versioned.save env e db) as [[error|e'] db'] eqn:Hsave.
{ by rewrite (save_failure_writes_nothing _ _ _ _ _ Hsave). }
simpl.
apply save_instance in Hsave
  as (p & e2 & db1 & Hp & He2 & Hcases & Hsuper & Hstore & He').
destruct (stamped_same env e) as (Hc & Hps & _).
apply store_version_table in Hstore as Htable.
destruct Htable as (q & Hq & Htable & Hnext & _).
assert (q = p) as -> by (rewrite He2 in Hq; simpl in Hq; congruence).
apply store_version_frame in Hstore as (Hents & Hseq & _).
assert (Hdb1 : versions db1 = versions db ∧ seq_version db1 = seq_version db
               ∧ seq_entity db ≤ seq_entity db1 ∧ p < seq_entity db1
               ∧ ∀ r, r ∈ entities db1 →
                      ∃ k, pk r = Some k ∧ k < seq_entity db1).
{ apply super_save_ok in Hsuper
    as [(Hnone & He2' & ->)|(k & Hk & He2' & ->)]; simpl.
  - assert (p = seq_entity db) as ->
      by (rewrite He2 in He2'; by injection He2').
    split_and!; [done|done|lia|lia|].
    intros r [Hr|Hr%list_elem_of_singleton]%elem_of_app.
    + destruct (wf_entities _ Hwf r Hr) as (k & Hk & Hlt).
      exists k. split; [done|lia].
    + exists (seq_entity db). rewrite Hr, He2'. split; [done|lia].
  - rewrite Hps in Hk.
    assert (k = p) as -> by (destruct Hcases; congruence).
    pose proof (Hpk p Hk) as Hlt.
    split_and!; [done|done|lia|done|].
    intros r (r0 & -> & Hr0)%list_elem_of_fmap.
    case_decide; [|by apply (wf_entities _ Hwf)].
    exists p. split; [|done]. simpl. by rewrite Hps. }
destruct Hdb1 as (Hvs & Hvseq & Hle & Hlt & Hrows).
rewrite Hvs in Htable. rewrite Hvseq in Htable, Hnext.
split.
- rewrite Hseq. pose proof (wf_seq_entity _ Hwf). lia.
- rewrite Hents, Hseq. exact Hrows.
- rewrite Htable, Hnext.
  intros v [(v0 & -> & Hv0)%list_elem_of_fmap|Hv%list_elem_of_singleton]
    %elem_of_app.
  + destruct (closed_by_key e2 (modified_at e2) v0) as (_ & -> & _).
    pose proof (wf_version_pks _ Hwf v0 Hv0). lia.
  + rewrite Hv. simpl. lia.
- rewrite Htable, Hseq.
  intros v [(v0 & -> & Hv0)%list_elem_of_fmap|Hv%list_elem_of_singleton]
    %elem_of_app.
  + assert (v_model_pk (closed_by e2 (modified_at e2) v0) = v_model_pk v0)
      as -> by (unfold closed_by; by case_decide).
    pose proof (wf_model_pks _ Hwf v0 Hv0). lia.
  + rewrite Hv. simpl. lia.
- rewrite Htable, fmap_app, <- list_fmap_compose. simpl.
  rewrite (list_fmap_ext _ v_pk (versions db)).
  2:{ intros i v _. simpl.
      by destruct (closed_by_key e2 (modified_at e2) v) as (_ & -> & _). }
  apply NoDup_app. split_and!;
    [apply (wf_version_unique _ Hwf)| |apply NoDup_singleton].
  intros k (v & -> & Hv)%list_elem_of_fmap Hk%list_elem_of_singleton.
  pose proof (wf_version_pks _ Hwf v Hv). lia.
Qed.
End well_formed_store.

(** X10, for the first save of a municipality into the empty database. *)
Lemma save_keeps_the_store_in_order_witness :
  well_formed
    (Versioned.save (H := Example.world) (Example.env_at 100)
       (Versioned.__init__ (Example.municipality "E" "old" "A"))
       Example.empty).2.
Proof.
  apply (save_keeps_the_store_in_order (H := Example.world)
           (Example.env_at 100)
           (Versioned.__init__ (Example.municipality "E" "old" "A"))
           Example.empty empty_well_formed).
  intros p. simpl. discriminate.
Defined.

(** ** Provenance, continued *)

Lemma last_cons_default {A} (a d : A) l :
  List.last (a :: l) d = List.last l a.
Proof.
  revert a d. induction l as [|b l IH]; intros a d; [done|].
  change (List.last (a :: b :: l) d) with (List.last (b :: l) d).
  rewrite IH. symmetry. apply IH.
Qed.

Section stamps.
Context `{Collaborators}.

Lemma lock_version_meta e :
created_at (Versioned.lock_version e) = created_at e
∧ created_by (Versioned.lock_version e) = created_by e
∧ modified_at (Versioned.lock_version e) = modified_at e
∧ modified_by (Versioned.lock_version e) = modified_by e.
Proof. unfold Versioned.lock_version. by destruct (negb _). Qed.

Lemma save_meta env e db e' db' :
Versioned.save env e db = (inr e', db') →
created_at e' = Some (default (utcnow env) (created_at e))
∧ created_by e'
  = match session env with
    | Some s => Some (default s (created_by e))
    | None => created_by e
    end
∧ modified_at e' = Some (utcnow env).
Proof.
intros (p & e2 & db1 & _ & -> & _ & _ & _ & ->)%save_instance.
destruct (lock_version_meta (set_pk (Some p) (stamped env e)))
  as (-> & -> & -> & _).
simpl. destruct (stamped_meta env e) as (-> & Hby & Hnone).
rewrite stamped_modified_at. split_and!; [done| |done].
destruct (session env) as [s|]; [by destruct (Hby s eq_refl)|].
by destruct (Hnone eq_refl).
Qed.

Lemma save_again_meta steps ts e db e' db' t :
saved ts e db → save_again steps e db = (inr e', db') →
created_at e = Some t →
created_at e' = Some t
∧ (∀ s, created_by e = Some s → created_by e' = Some s)
∧ (∀ now, modified_at e = Some now →
     modified_at e'
     = Some (List.last ((λ s, utcnow (edit_env s)) <$> steps) now)).
Proof.
revert ts e db. induction steps as [|step steps IH]; intros ts e db Hs.
- simpl. by intros [= <- <-].
- simpl. intros (e0 & db0 & Hload & Hrest)%bind_inr Hcreated.
  assert (e0 = e ∧ db0 = db) as [-> ->].
  { destruct (reload step); [|by injection Hload as <- <-].
    destruct (saved_pk _ _ _ Hs) as (p & Hp & _). rewrite Hp in Hload.
    rewrite (get_saved _ _ _ _ Hs Hp) in Hload.
    by injection Hload as <- <-. }
  apply bind_inr in Hrest as (e1 & db1 & Hsave & Hrest).
  pose proof (save_meta _ _ _ _ _ Hsave) as (Hca & Hcb & Hma).
  simpl in Hca, Hcb. rewrite Hcreated in Hca. simpl in Hca.
  apply (save_next _ ts e _ db e1 db1 Hs) in Hsave; [|done..].
  destruct (IH _ _ _ Hsave Hrest Hca) as (Hca' & Hcb' & Hma').
  split_and!; [done| |].
  + intros s Hby. apply Hcb'. rewrite Hcb, Hby.
    by destruct (session (edit_env step)).
  + intros now _. rewrite (Hma' _ Hma). f_equal. symmetry.
    exact (last_cons_default (utcnow (edit_env step)) now
             ((λ s, utcnow (edit_env s)) <$> steps)).
Qed.

(** X11. Over the whole life of an instance, [created_at] is the time of
  the first save (or the value the constructor was given); [created_by] is
  the session given to the constructor if there was one, and otherwise the
  session of the first save when that save had one; neither changes with
  the later saves, also when the instance is loaded again in between;
  [modified_at] is the time of the last save. *)
Theorem creation_stamp_is_kept attrs env steps db0 e db :
well_formed db0 → pk attrs = None →
save_sequence attrs env steps db0 = (inr e, db) →
created_at e = Some (default (utcnow env) (created_at attrs))
∧ (∀ s, session env = Some s →
        created_by e = Some (default s (created_by attrs)))
∧ (∀ s, created_by attrs = Some s → created_by e = Some s)
∧ modified_at e
  = Some (List.last ((λ s, utcnow (edit_env s)) <$> steps) (utcnow env)).
Proof.
intros Hwf Hattrs Hrun. unfold save_sequence in Hrun.
apply bind_inr in Hrun as (e1 & db1 & Hfirst & Hrest).
pose proof (save_meta _ _ _ _ _ Hfirst) as (Hca & Hcb & Hma).
assert (Hinit : created_at (Versioned.__init__ attrs) = created_at attrs
                ∧ created_by (Versioned.__init__ attrs) = created_by attrs).
{ unfold Versioned.__init__, Versioned.prepared.
  by destruct (lock_version_meta (set_locked None attrs)) as (-> & -> & _). }
destruct Hinit as [Hia Hib]. rewrite Hia in Hca. rewrite Hib in Hcb.
apply (save_first _ _ _ _ _ Hwf Hattrs) in Hfirst.
destruct (save_again_meta _ _ _ _ _ _ _ Hfirst Hrest Hca)
  as (Hca' & Hcb' & Hma').
split_and!; [done| | |by apply Hma'].
- intros s Hs. apply Hcb'. by rewrite Hcb, Hs.
- intros s Hs. apply Hcb'. rewrite Hcb, Hs. by destruct (session env).
Qed.
End stamps.

(** X11, on a municipality created by alice at time 100 and edited by bob at
    time 200. *)
Lemma creation_stamp_is_kept_witness :
  match save_sequence (H := Example.world)
          (Example.municipality "E" "old" "A")
          (Example.env_of (Some Example.alice) 100)
          [Example.edit (Example.env_of (Some Example.bob) 200)
                        (Example.insee_name "new" "A")]
          Example.empty with
  | (inr e, db) =>
      created_at e = Some 100 ∧ created_by e = Some Example.alice
      ∧ modified_at e = Some 200
  | (inl _, _) => False
  end.
Proof.
  destruct (save_sequence (H := Example.world)
              (Example.municipality "E" "old" "A")
              (Example.env_of (Some Example.alice) 100)
              [Example.edit (Example.env_of (Some Example.bob) 200)
                            (Example.insee_name "new" "A")]
              Example.empty)
    as [[error|e] db] eqn:Hrun; [vm_compute in Hrun; discriminate|].
  destruct (creation_stamp_is_kept (H := Example.world)
              (Example.municipality "E" "old" "A")
              (Example.env_of (Some Example.alice) 100)
              [Example.edit (Example.env_of (Some Example.bob) 200)
                            (Example.insee_name "new" "A")]
              Example.empty e db empty_well_formed eq_refl Hrun)
    as (Hat & Hby & _ & Hmodified).
  split_and!; [exact Hat|exact (Hby Example.alice eq_refl)|exact Hmodified].
Defined.

(** ** The diff of a save *)

Lemma Diff_create_ok env old new created_at insee db d db' :
  Diff.create env old new created_at insee db = (inr d, db') →
  d = {| d_pk := Some (seq_diff db); d_old := old; d_new := new;
         d_insee := insee;
         d_diff := Some (make_diff (Diff.data_of old) (Diff.data_of new));
         d_created_at := created_at |}
  ∧ diffs db' = diffs db ++ [d] ∧ seq_diff db' = seq_diff db + 1.
Proof.
  unfold Diff.create, Diff.save.
  intros (d1 & db1 & Hsuper & Hrest)%bind_inr.
  apply bind_inr in Hrest as (u & db2 & Hfrom & [= <- <-]).
  unfold Diff.super_save, bind, get_db in Hsuper. simpl in Hsuper.
  injection Hsuper as <- <-.
  pose proof (from_diff_frame env
    (Diff.with_pk (Some (seq_diff db))
       (Diff.with_computed_diff
          {| d_pk := None; d_old := old; d_new := new; d_insee := insee;
             d_diff := None; d_created_at := created_at |}))
    (set_diffs
       (diffs db ++
          [Diff.with_pk (Some (seq_diff db))
             (Diff.with_computed_diff
                {| d_pk := None; d_old := old; d_new := new;
                   d_insee := insee; d_diff := None;
                   d_created_at := created_at |})])
       (seq_diff db + 1) db)) as Hframe.
  rewrite Hfrom in Hframe. simpl in Hframe. unfold only_redirects in Hframe.
  rewrite Hframe. done.
Qed.

Section diff_of_a_save.
Context `{Collaborators}.

(** X12. With [Diff.ACTIVE] on, a save that succeeds appends exactly one
  row to the table of diffs.  It has the next primary key and the time of
  the save as [created_at], the INSEE code of the municipality of the
  instance, the snapshot just written as [new], and as [old] the previous
  snapshot of the instance with its period closed, or nothing when the
  version saved is the first; and when no earlier diff refers to the key
  of the new snapshot, the property [diff] of the new snapshot is this
  row. *)
Theorem save_records_one_diff env e db e' db' :
Diff_ACTIVE env = true →
Versioned.save env e db = (inr e', db') →
∃ d new,
  diffs db' = diffs db ++ [d] ∧ seq_diff db' = seq_diff db + 1
  ∧ d_pk d = Some (seq_diff db)
  ∧ d_created_at d = Some (utcnow env)
  ∧ d_insee d = municipality_insee (set_pk (pk e') (stamped env e))
  ∧ d_new d = Some new ∧ last (versions db') = Some new
  ∧ v_pk new = seq_version db ∧ v_sequential new = version e
  ∧ (if 1 <? version e then
       ∃ previous,
         previous ∈ versions db ∧ Versioned.belongs e' previous
         ∧ v_sequential previous = version e - 1
         ∧ d_old d = Some (Version.with_period
                             ((v_period previous).1, Some (utcnow env))
                             previous)
     else d_old d = None)
  ∧ ((∀ d0, d0 ∈ diffs db → v_pk <$> d_new d0 ≠ Some (seq_version db)) →
     Version.diff new db' = Some d).
Proof.
intros Hactive Hsave.
apply save_trace in Hsave as Htrace.
destruct Htrace as (l & e2' & db1' & _ & _ & Hsuper' & Hc2 & Hv2 & Hm2 & Hvs
                    & Hseq & Hds & Hdseq & _).
apply save_instance in Hsave
  as (p & e2 & db1 & Hp & He2 & Hpk & Hsuper & Hstore & He').
rewrite Hsuper in Hsuper'. injection Hsuper' as <- <-.
apply store_version_table in Hstore as Htable.
destruct Htable as (q & Hq & Htable & _).
apply store_version_trace in Hstore
  as (q' & new & old & db2 & Hq' & Hnew & _ & Hold & Hdiff).
rewrite Hactive in Hdiff. destruct Hdiff as [d Hdiff].
apply Diff_create_ok in Hdiff as (Hd & Hdiffs & Hdnext).
assert (Hdb2 : diffs db2 = diffs db ∧ seq_diff db2 = seq_diff db).
{ destruct (1 <? version e2).
  - destruct Hold as (? & ? & _ & _ & _ & _ & ->). simpl. by rewrite Hds.
  - destruct Hold as (_ & ->). simpl. by rewrite Hds. }
destruct Hdb2 as [Hdiffs2 Hdseq2].
rewrite Hdiffs2 in Hdiffs. rewrite Hdseq2 in Hdnext, Hd.
rewrite Hq in Hq'. injection Hq' as <-.
assert (Hbelongs : ∀ v, Versioned.belongs e2 v → Versioned.belongs e' v).
{ intros v. unfold Versioned.belongs. rewrite He'.
  unfold Versioned.lock_version. by destruct (negb _). }
exists d, new. split_and!.
- done.
- done.
- by rewrite Hd.
- rewrite Hd. simpl. exact Hm2.
- rewrite Hd. simpl. rewrite Hp. by rewrite He2.
- by rewrite Hd.
- rewrite Htable, last_snoc. by rewrite Hnew.
- rewrite Hnew. simpl. exact Hseq.
- rewrite Hnew. simpl. exact Hv2.
- rewrite <- Hv2. destruct (1 <? version e2);
    [|destruct Hold as (-> & _); by rewrite Hd].
  destruct Hold as (previous & closed & Hload & -> & -> & _).
  unfold Versioned.load_version in Hload.
  apply head_filter_elem_of in Hload as [Hs Hin].
  apply elem_of_versions_of in Hin as [Hb Hin]. simpl in Hin.
  exists previous. rewrite Hd. simpl. rewrite Hm2.
  split_and!; [|by apply Hbelongs|done|done].
  apply elem_of_app in Hin as [Hin|Hin%list_elem_of_singleton];
    [by rewrite <- Hvs|].
  rewrite Hin, Hnew in Hs. simpl in Hs. lia.
- intros Hfresh. unfold Version.diff. rewrite Hdiffs, filter_app.
  rewrite filter_none.
  + simpl. rewrite filter_cons_True, filter_nil; [done|].
    rewrite Hd, Hnew. simpl. done.
  + intros d0 Hd0. rewrite Hnew. simpl. rewrite Hseq. by apply Hfresh.
Qed.

(** X13. With [Diff.ACTIVE] off, a save that succeeds writes neither a diff
  nor a redirect. *)
Theorem save_without_diffs env e db e' db' :
Diff_ACTIVE env = false →
Versioned.save env e db = (inr e', db') →
diffs db' = diffs db ∧ seq_diff db' = seq_diff db
∧ redirects db' = redirects db.
Proof.
intros Hactive Hsave.
apply save_trace in Hsave
  as (l & e2 & db1 & _ & _ & _ & _ & _ & _ & _ & _ & Hds & Hdseq & Hr & _ & _
      & Hstore & _).
apply store_version_trace in Hstore
  as (q & new & old & db2 & _ & _ & _ & Hold & Hdiff).
rewrite Hactive in Hdiff. subst db'.
destruct (1 <? version e2).
- destruct Hold as (? & ? & _ & _ & _ & _ & ->). simpl. by rewrite Hds.
- destruct Hold as (_ & ->). simpl. by rewrite Hds.
Qed.
End diff_of_a_save.

(** X12, on the first save of a municipality: one diff, without [old]. *)
Lemma save_records_one_diff_witness :
  match Versioned.save (H := Example.world) (Example.env_at 100)
          (Versioned.__init__ (Example.municipality "E" "old" "A"))
          Example.empty with
  | (inr e, db) =>
      ∃ d, diffs db = [d] ∧ d_pk d = Some 1 ∧ d_created_at d = Some 100
           ∧ d_old d = None
  | (inl _, _) => False
  end.
Proof.
  destruct (Versioned.save (H := Example.world) (Example.env_at 100)
              (Versioned.__init__ (Example.municipality "E" "old" "A"))
              Example.empty)
    as [[error|e] db] eqn:Hsave; [vm_compute in Hsave; discriminate|].
  destruct (save_records_one_diff (H := Example.world) (Example.env_at 100)
              (Versioned.__init__ (Example.municipality "E" "old" "A"))
              Example.empty e db eq_refl Hsave)
    as (d & new & Hdiffs & _ & Hpk & Hat & _ & _ & _ & _ & _ & Hold & _).
  exists d. split_and!; [exact Hdiffs|exact Hpk|exact Hat|exact Hold].
Defined.

(** X13, on the first save of a municipality. *)
Lemma save_without_diffs_witness :
  let env := {| session := Some Example.alice; utcnow := 100;
                Diff_ACTIVE := false;
                registry := register Example.Municipality ∅ |} in
  match Versioned.save (H := Example.world) env
          (Versioned.__init__ (Example.municipality "E" "old" "A"))
          Example.empty with
  | (inr e, db) => diffs db = [] ∧ redirects db = []
  | (inl _, _) => False
  end.
Proof.
  intros env.
  destruct (Versioned.save (H := Example.world) env
              (Versioned.__init__ (Example.municipality "E" "old" "A"))
              Example.empty)
    as [[error|e] db] eqn:Hsave; [vm_compute in Hsave; discriminate|].
  destruct (save_without_diffs (H := Example.world) env
              (Versioned.__init__ (Example.municipality "E" "old" "A"))
              Example.empty e db eq_refl Hsave) as (Hdiffs & _ & Hredirects).
  split; [exact Hdiffs|exact Hredirects].
Defined.

(** ** Deletion *)

Section deletion.
Context `{Collaborators}.

(** X14. [delete_instance] either does nothing or does all of it.  When the
  table refuses the deletion, it raises [IntegrityError] and the database,
  redirects included, is the one from before.  Otherwise it removes the
  rows of the instance and every redirect that points at it, and only
  those: no [follow] under the resource of the instance returns its id any
  more, and the snapshots, the diffs and the flags are not touched. *)
Theorem delete_instance_clears_redirects_or_nothing
  (deletable : list Versioned → Versioned → bool) e db :
(deletable (entities db) e = false →
   Versioned.delete_instance deletable e db = (inl IntegrityError, db))
∧ (deletable (entities db) e = true →
   ∃ db',
     Versioned.delete_instance deletable e db = (inr tt, db')
     ∧ (∀ r, r ∈ entities db' ↔
             r ∈ entities db ∧ ¬ (__class__ r = __class__ e ∧ pk r = pk e))
     ∧ (∀ r, r ∈ redirects db' ↔
             r ∈ redirects db
             ∧ ¬ (r_model_name r = resource (__class__ e)
                  ∧ r_model_id r = str (ban_id e)))
     ∧ (∀ name identifier value,
          lower name = resource (__class__ e) →
          ∃ ids, Redirect.follow name identifier value db' = (inr ids, db')
                 ∧ str (ban_id e) ∉ ids)
     ∧ versions db' = versions db ∧ diffs db' = diffs db
     ∧ flags db' = flags db).
Proof.
unfold Versioned.delete_instance, atomic, Redirect.clear, bind, get_db,
  put_db. simpl. split; intros ->; [done|].
eexists. split; [done|]. simpl. split_and!; try done.
- intros r. rewrite list_elem_of_filter. tauto.
- intros r. rewrite list_elem_of_filter. tauto.
- intros name identifier value Hname.
  unfold Redirect.follow, bind, get_db, ret. simpl.
  eexists. split; [done|].
  intros (r & Hid & Hr)%list_elem_of_fmap.
  apply list_elem_of_filter in Hr as [(Hn & _) Hr].
  apply list_elem_of_filter in Hr as [Hkeep _].
  apply Hkeep. split; congruence.
Qed.
End deletion.

(** ** The redirect table *)

Lemma add_row_present env instance identifier value db db' :
  Redirect.add env instance identifier value db = (inr tt, db') →
  Redirect.mk (add_target instance).1 identifier (str value)
              (str (add_target instance).2) ∈ redirects db'.
Proof.
  intros ->%add_ok. simpl. apply list_elem_of_fmap.
  eexists. split; [|apply elem_of_inserted].
  by rewrite propagation_same_target.
Qed.

(** X15. After [add] has registered a redirect, [follow] with the same
    identifier and value returns the id it points at, under every spelling
    of the model name that lowercases to the one registered.  [coerce] on a
    class of that name, asked for the value under the identifier and finding
    no row with it, then raises [RedirectError] with this id, or
    [MultipleRedirectsError] with a list that holds it. *)
Theorem add_then_follow {R} `{PeeweeModel R} env instance identifier value
    db db' :
  Redirect.add env instance identifier value db = (inr tt, db') →
  let target := str (add_target instance).2 in
  (∀ name, lower name = (add_target instance).1 →
     ∃ ids, Redirect.follow name identifier value db' = (inr ids, db')
            ∧ target ∈ ids)
  ∧ (∀ field,
       lower cls_name = (add_target instance).1 →
       identifier ≠ "" →
       cls_field identifier = Some field →
       List.filter (field value) (raw_select db') = [] →
       Version.coerce (inr value) (Some identifier) db'
       = (inl (RedirectError identifier value target), db')
       ∨ ∃ ids,
           target ∈ ids
           ∧ Version.coerce (inr value) (Some identifier) db'
             = (inl (MultipleRedirectsError identifier value ids), db')).
Proof.
  intros Hadd target.
  apply add_row_present in Hadd.
  assert (Hfollow : ∀ name, lower name = (add_target instance).1 →
            ∃ ids, Redirect.follow name identifier value db' = (inr ids, db')
                   ∧ target ∈ ids).
  { intros name Hname. unfold Redirect.follow, bind, get_db, ret.
    eexists. split; [done|].
    apply list_elem_of_fmap. eexists. split; [|apply list_elem_of_filter].
    2:{ split; [|exact Hadd]. by rewrite Hname. }
    done. }
  split; [exact Hfollow|].
  intros field Hname Hidentifier Hfield Hnone.
  destruct (Hfollow cls_name Hname) as (ids & Hids & Hin).
  assert (Hcoerce : Version.coerce (inr value) (Some identifier) db'
            = match ids with
              | [] => (inl DoesNotExist, db')
              | first :: others =>
                  if (1 <? length ids)%nat
                  then (inl (MultipleRedirectsError identifier value ids), db')
                  else (inl (RedirectError identifier value first), db')
              end).
  { unfold Version.coerce, Version.resolve_identifier. simpl.
    destruct (String.eqb_spec identifier "") as [|_]; [done|]. simpl.
    rewrite Hfield. unfold bind at 1, get_db. cbv beta iota.
    rewrite Hnone. unfold bind. rewrite Hids.
    by destruct ids as [|first [|second others]]. }
  rewrite Hcoerce.
  destruct ids as [|first [|second others]].
  - by apply elem_of_nil in Hin.
  - left. apply list_elem_of_singleton in Hin. by rewrite Hin.
  - right. by exists (first :: second :: others).
Qed.

(** X15, for a redirect of the sequential number 9 to the id 7. *)
Lemma add_then_follow_witness :
  match Redirect.add (Example.env_at 100) (inr ("version", VInt 7))
          "sequential" (VStr "9") Example.empty with
  | (inr _, db) =>
      ∃ ids, Redirect.follow "Version" "sequential" (VStr "9") db
             = (inr ids, db)
             ∧ "7" ∈ ids
  | (inl _, _) => False
  end.
Proof.
  destruct (Redirect.add (Example.env_at 100) (inr ("version", VInt 7))
              "sequential" (VStr "9") Example.empty)
    as [[error|[]] db] eqn:Hadd; [vm_compute in Hadd; discriminate|].
  destruct (add_then_follow (R := VersionRow) (Example.env_at 100)
              (inr ("version", VInt 7)) "sequential" (VStr "9")
              Example.empty db Hadd) as (Hfollow & _).
  exact (Hfollow "Version" eq_refl).
Defined.

Lemma retarget_idemp model_name old_id model_id r :
  Redirect.retarget model_name old_id model_id
    (Redirect.retarget model_name old_id model_id r)
  = Redirect.retarget model_name old_id model_id r.
Proof.
  unfold Redirect.retarget.
  destruct (decide (r_model_id r = old_id ∧ r_model_name r = model_name));
    [by case_decide|by rewrite decide_False].
Qed.

Lemma propagate_idemp env model_name identifier value model_id db db1 :
  Redirect.propagate env model_name identifier value model_id db
    = (inr tt, db1) →
  Redirect.propagate env model_name identifier value model_id db1
    = (inr tt, db1).
Proof.
  unfold Redirect.propagate.
  destruct (registry env !! model_name) as [model|]; [|by intros [= <-]].
  destruct (hasattr model identifier); simpl; [|discriminate].
  intros Hprop. unfold bind, get_db in *.
  destruct (Redirect.first model identifier value db) as [old|] eqn:Hfirst.
  2:{ injection Hprop as <-. by rewrite Hfirst. }
  unfold Redirect.update_model_id, bind, get_db, put_db, raise in Hprop.
  case_bool_decide as Hnodup; [|discriminate]. injection Hprop as <-.
  unfold Redirect.first in *. simpl. rewrite Hfirst.
  unfold Redirect.update_model_id, bind, get_db, put_db. simpl.
  rewrite <- list_fmap_compose.
  rewrite (list_fmap_ext _ (Redirect.retarget model_name (str (ban_id old))
                              (str model_id)) (redirects db))
    by (intros; apply retarget_idemp).
  by rewrite bool_decide_eq_true_2.
Qed.

(** X16. [add] is idempotent: once it has succeeded, the same call on the
    resulting database succeeds again and changes nothing. *)
Theorem add_twice_is_add_once env instance identifier value db db1 :
  Redirect.add env instance identifier value db = (inr tt, db1) →
  Redirect.add env instance identifier value db1 = (inr tt, db1).
Proof.
  intros Hadd. pose proof (add_row_present _ _ _ _ _ _ Hadd) as Hrow.
  unfold Redirect.add in *.
  apply bind_inr in Hadd as (target & db0 & Htarget & Hadd).
  assert (Hvalid : ∀ db2,
            match instance with
            | inr (model_name, model_id) => ret (model_name, model_id)
            | inl instance =>
                if bool_decide
                     (identifier ∉ identifiers (__class__ instance)
                                   ++ ["id"; "pk"])
                then raise (ValueError ("Invalid identifier: " +:+ identifier))
                else if bool_decide (getattr instance identifier = value)
                then raise (ValueError "Redirect cannot point to itself")
                else ret (resource (__class__ instance), ban_id instance)
            end db2 = (inr (add_target instance), db2)
            ∧ target = add_target instance ∧ db0 = db).
  { intros db2. destruct instance as [e|[model_name model_id]]; simpl in *.
    - repeat case_bool_decide; try discriminate.
      by injection Htarget as <- <-.
    - by injection Htarget as <- <-. }
  destruct (Hvalid db1) as (Hagain & -> & ->).
  apply bind_inr in Hadd as ([] & db2 & Hcreate & Hprop).
  apply propagate_idemp in Hprop.
  unfold bind at 1. rewrite Hagain.
  unfold bind. rewrite get_or_create_spec.
  unfold inserted. rewrite bool_decide_eq_true_2 by done.
  by rewrite set_redirects_id.
Qed.

(** X16, for the redirect of the INSEE code of a municipality. *)
Lemma add_twice_is_add_once_witness :
  match Redirect.add (Example.env_at 100) (inr ("municipality", VStr "E"))
          "insee" (VStr "old") Example.empty with
  | (inr _, db) =>
      Redirect.add (Example.env_at 100) (inr ("municipality", VStr "E"))
        "insee" (VStr "old") db = (inr tt, db)
  | (inl _, _) => False
  end.
Proof.
  destruct (Redirect.add (Example.env_at 100)
              (inr ("municipality", VStr "E")) "insee" (VStr "old")
              Example.empty)
    as [[error|[]] db] eqn:Hadd; [vm_compute in Hadd; discriminate|].
  exact (add_twice_is_add_once (Example.env_at 100)
           (inr ("municipality", VStr "E")) "insee" (VStr "old")
           Example.empty db Hadd).
Defined.

(** X17. [remove] takes back what [add] registered for an instance: when
    the redirect was not in the table and no entity held the value (so that
    nothing was retargeted), the database after [add] then [remove] is the
    one from before.  On any database [remove] returns normally, and the
    redirect it names is not in the table afterwards. *)
Theorem remove_undoes_add env e identifier value db db1 :
  Redirect.mk (resource (__class__ e)) identifier (str value)
              (str (ban_id e)) ∉ redirects db →
  (∀ model, registry env !! resource (__class__ e) = Some model →
            Redirect.first model identifier value db = None) →
  Redirect.add env (inl e) identifier value db = (inr tt, db1) →
  Redirect.remove e identifier value db1 = (inr tt, db)
  ∧ ∀ db2, (Redirect.remove e identifier value db2).1 = inr tt
           ∧ Redirect.mk (resource (__class__ e)) identifier (str value)
                         (str (ban_id e))
             ∉ redirects (Redirect.remove e identifier value db2).2.
Proof.
  intros Hfresh Hquiet Hadd. split.
  - apply add_ok in Hadd. simpl in Hadd.
    assert (Hid : propagation env (resource (__class__ e)) identifier value
                    (ban_id e) db = λ r, r).
    { unfold propagation.
      destruct (registry env !! resource (__class__ e)) as [model|] eqn:Hm;
        [|done].
      by rewrite (Hquiet model). }
    rewrite Hid, list_fmap_id in Hadd.
    unfold inserted in Hadd. rewrite bool_decide_eq_false_2 in Hadd by done.
    subst db1. unfold Redirect.remove, bind, get_db, put_db. simpl.
    rewrite filter_app, filter_cons_False, filter_nil, app_nil_r
      by (simpl; tauto).
    rewrite (filter_complement_all
               (λ r, r_model_name r = resource (__class__ e)
                     ∧ r_identifier r = identifier ∧ r_value r = str value
                     ∧ r_model_id r = str (ban_id e))).
    + f_equal. by destruct db.
    + apply filter_none. intros r Hr (Hn & Hi & Hv & Hm). apply Hfresh.
      destruct r. simpl in *. by subst.
  - intros db2. unfold Redirect.remove, bind, get_db, put_db. simpl.
    split; [done|].
    intros [Hnot _]%list_elem_of_filter. by apply Hnot.
Qed.

(** X17, for the former INSEE code of a municipality. *)
Lemma remove_undoes_add_witness :
  let e := set_pk (Some 1) (Example.municipality "E" "new" "A") in
  match Redirect.add (Example.env_at 100) (inl e) "insee" (VStr "old")
          Example.empty with
  | (inr _, db) =>
      Redirect.remove e "insee" (VStr "old") db = (inr tt, Example.empty)
  | (inl _, _) => False
  end.
Proof.
  intros e.
  destruct (Redirect.add (Example.env_at 100) (inl e) "insee" (VStr "old")
              Example.empty)
    as [[error|[]] db] eqn:Hadd; [vm_compute in Hadd; discriminate|].
  destruct (remove_undoes_add (Example.env_at 100) e "insee" (VStr "old")
              Example.empty db) as (Hremove & _).
  - simpl. apply not_elem_of_nil.
  - intros model _. reflexivity.
  - exact Hadd.
  - exact Hremove.
Defined.

Lemma for_each_invariant {A} (P : Database → Prop) (body : A → M unit)
    (l : list A) db :
  (∀ x db, P db → P (body x db).2) → P db → P (for_each l body db).2.
Proof.
  intros Hbody. revert db. induction l as [|x l IH]; intros db Hdb; [done|].
  simpl. unfold bind. specialize (Hbody x db Hdb).
  destruct (body x db) as [[error|[]] db1]; [done|]. by apply IH.
Qed.

Lemma NoDup_inserted row l : NoDup l → NoDup (inserted row l).
Proof.
  intros Hl. unfold inserted. case_bool_decide as Hin; [done|].
  apply NoDup_app. split_and!; [done| |apply NoDup_singleton].
  by intros r Hr ->%list_elem_of_singleton.
Qed.

Lemma propagate_unique env model_name identifier value model_id db :
  NoDup (redirects db) →
  NoDup (redirects
           (Redirect.propagate env model_name identifier value model_id db).2).
Proof.
  intros Hdb. unfold Redirect.propagate.
  destruct (registry env !! model_name) as [model|]; [|done].
  destruct (hasattr model identifier); simpl; [|done].
  unfold bind, get_db.
  destruct (Redirect.first _ _ _ _); [|done].
  unfold Redirect.update_model_id, bind, get_db, put_db, raise.
  by case_bool_decide.
Qed.

Lemma add_unique env instance identifier value db :
  NoDup (redirects db) →
  NoDup (redirects (Redirect.add env instance identifier value db).2).
Proof.
  intros Hdb.
  assert (Hrest : ∀ target : string * pyval,
            NoDup (redirects
                     ((Redirect.get_or_create
                         (Redirect.mk target.1 identifier (str value)
                                      (str target.2)) ;;;
                       Redirect.propagate env target.1 identifier value
                                          target.2) db).2)).
  { intros target. unfold bind. rewrite get_or_create_spec.
    apply propagate_unique. simpl. by apply NoDup_inserted. }
  unfold Redirect.add, bind at 1.
  destruct instance as [e|[model_name model_id]]; simpl.
  - repeat case_bool_decide; simpl; try done.
    apply (Hrest (resource (__class__ e), ban_id e)).
  - apply (Hrest (model_name, model_id)).
Qed.

Lemma from_diff_unique env diff db :
  NoDup (redirects db) →
  NoDup (redirects (Redirect.from_diff env diff db).2).
Proof.
  intros Hdb. unfold Redirect.from_diff.
  destruct (d_new diff) as [new|], (d_old diff) as [old|]; try done.
  destruct (registry env !! v_model_name new) as [model|]; [|done].
  destruct (d_diff diff) as [changes|]; [|done].
  apply (for_each_invariant (λ db, NoDup (redirects db))); [|done].
  intros identifier db0 Hdb0. unfold Redirect.from_diff_step.
  destruct (changes !! identifier) as [[old_value new_value]|]; [|done].
  destruct (negb _ || negb _); [done|].
  destruct (v_data new !! "id"); [|done].
  by apply add_unique.
Qed.

Section unique_redirects.
Context `{Collaborators}.

Lemma save_unique env e db :
NoDup (redirects db) →
NoDup (redirects (Versioned.save env e db).2).
Proof.
intros Hdb.
destruct (Versioned.save env e db) as [[error|e'] db'] eqn:Hsave.
{ by rewrite (save_failure_writes_nothing _ _ _ _ _ Hsave). }
apply save_trace in Hsave
  as (l & e2 & db1 & _ & _ & _ & _ & _ & _ & _ & _ & _ & _ & Hr & _ & _
      & Hstore & _).
apply store_version_trace in Hstore
  as (q & new & old & db2 & _ & _ & _ & Hold & Hdiff).
assert (Hdb2 : redirects db2 = redirects db).
{ destruct (1 <? version e2).
  - by destruct Hold as (? & ? & _ & _ & _ & _ & ->).
  - by destruct Hold as (_ & ->). }
simpl. destruct (Diff_ACTIVE env); [|subst db'; by rewrite Hdb2].
destruct Hdiff as [d Hdiff].
apply Diff_save_ok in Hdiff as (_ & _ & _ & _ & db3 & Hdb3 & Hfrom).
pose proof (from_diff_unique env d db3) as Hunique.
rewrite Hfrom in Hunique. apply Hunique. by rewrite Hdb3, Hdb2.
Qed.

(** X18. The table of redirects never holds the same row twice: if it has
  no double, it has none after [add], [remove], [clear], [from_diff],
  [save] or [delete_instance], whether they succeed or raise. *)
Theorem redirects_stay_unique env db :
NoDup (redirects db) →
(∀ instance identifier value,
   NoDup (redirects (Redirect.add env instance identifier value db).2))
∧ (∀ e identifier value,
     NoDup (redirects (Redirect.remove e identifier value db).2))
∧ (∀ e, NoDup (redirects (Redirect.clear e db).2))
∧ (∀ diff, NoDup (redirects (Redirect.from_diff env diff db).2))
∧ (∀ e, NoDup (redirects (Versioned.save env e db).2))
∧ (∀ deletable e,
     NoDup (redirects (Versioned.delete_instance deletable e db).2)).
Proof.
intros Hdb. split_and!.
- intros. by apply add_unique.
- intros. by apply NoDup_filter.
- intros. by apply NoDup_filter.
- intros. by apply from_diff_unique.
- intros. by apply save_unique.
- intros deletable e.
  unfold Versioned.delete_instance, atomic, Redirect.clear, bind, get_db,
    put_db. simpl.
  destruct (deletable _ _); simpl; [by apply NoDup_filter|done].
Qed.
End unique_redirects.

(** X18, for [add] on the empty table. *)
Lemma redirects_stay_unique_witness :
  NoDup (redirects
           (Redirect.add (Example.env_at 100)
              (inr ("municipality", VStr "E")) "insee" (VStr "old")
              Example.empty).2).
Proof.
  destruct (redirects_stay_unique (H := Example.world) (Example.env_at 100)
              Example.empty (NoDup_nil_2 (A := RedirectRow))) as (Hadd & _).
  exact (Hadd (inr ("municipality", VStr "E")) "insee" (VStr "old")).
Defined.

(** ** What [coerce] looks up *)

Lemma split_colon_nonempty s : split_colon s ≠ [].
Proof.
  destruct s as [|c s]; simpl; [done|].
  destruct (Ascii.eqb _ _); [done|]. by destruct (split_colon s).
Qed.

Lemma split_colon_app k s :
  split_colon k = [k] →
  split_colon (k +:+ ":" +:+ s) = k :: split_colon s.
Proof.
  induction k as [|c k IH]; [done|]. simpl.
  destruct (Ascii.eqb c _); [discriminate|].
  destruct (split_colon k) as [|p ps] eqn:Hk;
    [by destruct (split_colon_nonempty k)|].
  intros [= -> ->]. by rewrite IH.
Qed.

Section parsing.
Context {R : Type} `{PeeweeModel R}.

Lemma coerce_resolved id identifier id' identifier' db :
Version.resolve_identifier id identifier
= Version.resolve_identifier id' identifier' →
Version.coerce (inr id) identifier db
= Version.coerce (inr id') identifier' db.
Proof. unfold Version.coerce. by intros ->. Qed.

(** X19. Which lookup [coerce] makes when it is given no identifier.  A
  string with colons, whose first piece is not empty, is looked up under
  its first piece, with its last piece as the value (the pieces in between
  are dropped); a string without colon is looked up as [sequential]; an
  integer is looked up as [pk]; an empty identifier counts as none; and a
  model instance is returned as it is. *)
Theorem coerce_reads_the_identifier_off_the_id db :
(∀ s k rest,
   split_colon s = k :: rest → rest ≠ [] → k ≠ "" →
   Version.coerce (inr (VStr s)) None db
   = Version.coerce (inr (VStr (List.last rest ""))) (Some k) db)
∧ (∀ s, split_colon s = [s] →
     Version.coerce (inr (VStr s)) None db
     = Version.coerce (inr (VStr s)) (Some "sequential") db)
∧ (∀ z, Version.coerce (inr (VInt z)) None db
        = Version.coerce (inr (VInt z)) (Some "pk") db)
∧ (∀ id, Version.coerce (inr id) (Some "") db
         = Version.coerce (inr id) None db)
∧ (∀ instance identifier,
     Version.coerce (inl instance) identifier db = (inr instance, db)).
Proof.
split_and!.
- intros s k rest Hs Hrest Hk. apply coerce_resolved.
  unfold Version.resolve_identifier. simpl. rewrite Hs.
  destruct (String.eqb_spec k "") as [|_]; [done|]. simpl.
  destruct rest as [|v rest]; [done|]. done.
- intros s Hs. apply coerce_resolved.
  unfold Version.resolve_identifier. simpl. by rewrite Hs.
- intros z. by apply coerce_resolved.
- intros id. by apply coerce_resolved.
- done.
Qed.

(** X20. [coerce] understands what [Redirect.serialize] writes: given the
  text of a redirect whose identifier and value contain no colon (and
  whose identifier is not empty), it makes the lookup of that value under
  that identifier. *)
Theorem coerce_reads_a_serialized_redirect r db :
split_colon (r_identifier r) = [r_identifier r] →
r_identifier r ≠ "" →
split_colon (r_value r) = [r_value r] →
Version.coerce (inr (VStr (Redirect.serialize r))) None db
= Version.coerce (inr (VStr (r_value r))) (Some (r_identifier r)) db.
Proof.
intros Hidentifier Hnonempty Hvalue. apply coerce_resolved.
unfold Version.resolve_identifier, Redirect.serialize. simpl.
rewrite (split_colon_app _ _ Hidentifier), Hvalue.
destruct (String.eqb_spec (r_identifier r) "") as [|_]; done.
Qed.
End parsing.

(** X20, for the text of the redirect of the sequential number 1. *)
Lemma coerce_reads_a_serialized_redirect_witness :
  Version.coerce (inr (VStr "sequential:1")) None Example.renamed_E
  = Version.coerce (inr (VStr "1")) (Some "sequential") Example.renamed_E.
Proof.
  exact (coerce_reads_a_serialized_redirect
           (Redirect.mk "version" "sequential" "1" "7") Example.renamed_E
           eq_refl ltac:(discriminate) eq_refl).
Defined.

Lemma coerce_outcome {R} `{PeeweeModel R} id identifier db :
  ∃ outcome,
    Version.coerce id identifier db = (outcome, db)
    ∧ match outcome with
      | inr instance => id = inl instance ∨ instance ∈ raw_select db
      | inl (AttributeError name) => cls_field name = None
      | inl DoesNotExist => True
      | inl (RedirectError _ _ _) => True
      | inl (MultipleRedirectsError _ _ targets) => (1 < length targets)%nat
      | inl _ => False
      end.
Proof.
  unfold Version.coerce.
  destruct id as [instance|value]; [eexists; split; [done|by left]|].
  destruct (Version.resolve_identifier value identifier) as [name v].
  destruct (cls_field name) as [field|] eqn:Hfield;
    [|eexists; split; [done|done]].
  unfold bind at 1, get_db.
  destruct (List.filter (field v) (raw_select db)) as [|first rest] eqn:Hrows.
  - unfold bind, Redirect.follow, bind, get_db, ret, raise.
    destruct (r_model_id <$> filter _ (redirects db))
      as [|target [|second others]]; simpl;
      (eexists; split; [done|]); simpl; [done|done|lia].
  - eexists. split; [done|]. right. apply list_elem_of_In.
    apply (proj1 (filter_In (field v) first (raw_select db))).
    rewrite Hrows. by left.
Qed.

(** X21. [coerce] never writes: whatever it is given and whatever the
    outcome, the database is unchanged.  It raises nothing but
    [AttributeError] (for a name that is no attribute of the class),
    [DoesNotExist], [RedirectError] and [MultipleRedirectsError] (with at
    least two targets), and the row it returns for a value is a row of the
    table. *)
Theorem coerce_only_reads {R} `{PeeweeModel R} id identifier db :
  (Version.coerce id identifier db).2 = db
  ∧ (∀ error, (Version.coerce id identifier db).1 = inl error →
       (∃ name, error = AttributeError name ∧ cls_field name = None)
       ∨ error = DoesNotExist
       ∨ (∃ name value target, error = RedirectError name value target)
       ∨ (∃ name value targets,
            error = MultipleRedirectsError name value targets
            ∧ (1 < length targets)%nat))
  ∧ (∀ value instance,
       id = inr value →
       (Version.coerce id identifier db).1 = inr instance →
       instance ∈ raw_select db).
Proof.
  destruct (coerce_outcome id identifier db) as (outcome & -> & Hout).
  simpl. split_and!; [done| |].
  - intros error ->. destruct error; try done; eauto 10.
  - intros value instance -> ->. by destruct Hout.
Qed.

(** ** Flags, continued *)

(** X22. [contributor_type_required] raises [ValueError] before the
    decorated method runs, in this order: without session; for a session
    without client; for a session whose contributor type is missing or
    empty; for a viewer.  The database is unchanged each time, and so [flag]
    and [unflag] write nothing whenever they raise. *)
Theorem gate_rejects_before_the_method_runs `{Collaborators} env
    (func : Session → M unit) db :
  (session env = None →
     contributor_type_required env func db
     = (inl (ValueError "Must be logged in."), db))
  ∧ (∀ s, session env = Some s → client s = None →
       contributor_type_required env func db
       = (inl (ValueError "Token must be linked to a client."), db))
  ∧ (∀ s c, session env = Some s → client s = Some c →
       contributor_type s = None ∨ contributor_type s = Some "" →
       contributor_type_required env func db
       = (inl (ValueError "Session must have a valid contributor_type."), db))
  ∧ (∀ s c, session env = Some s → client s = Some c →
       contributor_type s = Some TYPE_VIEWER → TYPE_VIEWER ≠ "" →
       contributor_type_required env func db
       = (inl (ValueError
                 "Contributor type viewer cannot flag/unflag resource."), db))
  ∧ (∀ v error db',
       Version.flag env v db = (inl error, db')
       ∨ Version.unflag env v db = (inl error, db') →
       db' = db).
Proof.
  unfold contributor_type_required. split_and!.
  - by intros ->.
  - by intros s -> ->.
  - intros s c -> -> [->| ->]; done.
  - intros s c -> -> -> Hviewer. simpl.
    rewrite bool_decide_eq_true_2 by done.
    destruct (String.eqb_spec TYPE_VIEWER ""); done.
  - intros v error db'.
    unfold Version.flag, Version.unflag, contributor_type_required.
    destruct (session env) as [s|]; [|by intros [[= _ <-]|[= _ <-]]].
    destruct (client s) as [c|]; simpl; [|by intros [[= _ <-]|[= _ <-]]].
    destruct (negb (str_truthy (contributor_type s)));
      [by intros [[= _ <-]|[= _ <-]]|].
    destruct (bool_decide (contributor_type s = Some TYPE_VIEWER));
      [by intros [[= _ <-]|[= _ <-]]|].
    unfold bind, get_db, Flag.delete_where, Flag.create, put_db, ret.
    destruct (negb _); intros [[=]|[=]].
Qed.

Section flag_round_trip.
Context `{Collaborators}.

(** X23. For a client that has no flag on a snapshot, [flag] appends one
  flag, with the next primary key, the snapshot, the client, the session
  of the call and the time of the call; [unflag] by that client (under any
  of its sessions) then leaves the table of flags as it was before the two
  calls, and no other table is touched. *)
Theorem flag_then_unflag_restores_the_flags env1 env2 s1 s2 c v db :
may_flag env1 s1 c → may_flag env2 s2 c →
Flag.where_ v (Some c) db = [] →
∃ db1 db2,
  Version.flag env1 v db = (inr tt, db1)
  ∧ flags db1
    = flags db ++ [ {| f_pk := seq_flag db; f_version := v_pk v;
                       f_client := client_pk c;
                       f_session := session_pk s1;
                       f_created_at := utcnow env1 |} ]
  ∧ Version.unflag env2 v db1 = (inr tt, db2)
  ∧ flags db2 = flags db
  ∧ entities db2 = entities db ∧ versions db2 = versions db
  ∧ diffs db2 = diffs db ∧ redirects db2 = redirects db.
Proof.
intros Hs1 Hs2 Hnone.
pose proof Hs1 as (_ & Hc1 & _). pose proof Hs2 as (_ & Hc2 & _).
unfold Version.flag, Version.unflag.
rewrite (gate_open env1 s1 c _ Hs1), (gate_open env2 s2 c _ Hs2).
unfold bind at 1, get_db. rewrite Hc1, Hc2, Hnone. simpl.
unfold bind, get_db, put_db, Flag.delete_where, bind, get_db, put_db.
eexists _, _. split; [done|]. split; [done|]. split; [done|]. simpl.
split_and!; [|done..].
rewrite filter_app. unfold Flag.where_ in Hnone. simpl in Hnone.
rewrite (filter_complement_all _ _ Hnone).
rewrite filter_cons_False, filter_nil, app_nil_r; [done|].
simpl. intros Hnot. by apply Hnot.
Qed.
End flag_round_trip.

(** X23, with alice flagging a snapshot at time 100 and unflagging it at
    time 200. *)
Lemma flag_then_unflag_restores_the_flags_witness :
  let v := {| v_pk := 1; v_model_name := "municipality"; v_model_pk := 1;
              v_sequential := 1; v_data := ∅;
              v_period := (Some 100, None) |} in
  ∃ db1 db2,
    Version.flag (H := Example.world) (Example.env_at 100) v Example.empty
    = (inr tt, db1)
    ∧ Version.unflag (H := Example.world) (Example.env_at 200) v db1
      = (inr tt, db2)
    ∧ flags db2 = flags Example.empty.
Proof.
  intros v.
  assert (Halice : ∀ t, may_flag (H := Example.world) (Example.env_at t)
                          Example.alice {| client_pk := 3 |}).
  { intros t. by repeat split. }
  destruct (flag_then_unflag_restores_the_flags (H := Example.world)
              (Example.env_at 100) (Example.env_at 200) Example.alice
              Example.alice {| client_pk := 3 |} v Example.empty
              (Halice 100) (Halice 200) eq_refl)
    as (db1 & db2 & Hflag & _ & Hunflag & Hflags & _).
  exists db1, db2. split_and!; [exact Hflag|exact Hunflag|exact Hflags].
Defined.
